(** * lab0-c: the queue of [queue.c] over an explicit C heap

    The queue is an intrusive circular doubly-linked list: a sentinel
    [struct list_head] and elements [element_t] that embed a
    [struct list_head] and own a heap-allocated string.  The functions of
    [queue.c] are embedded as programs of a small state-and-error monad
    over a heap of objects; a null dereference, an access to freed storage
    or an out-of-bounds access is a [Fault], and a loop that exhausts its
    fuel is a [Timeout].

    [queue.c] holds two copies of the file; the functions embedded here
    are those of the first, complete one (in the second, [q_size],
    [q_swap] and [q_sort] are still empty). *)

From Stdlib Require Import ZArith List Lia Permutation Sorted.
From Stdlib Require Import Strings.Byte.
From stdpp Require Import base option list gmap strings.

Open Scope Z_scope.

(** ** Memory *)

Definition ptr := Z.
Definition NULL : ptr := 0.

(** [struct list_head { struct list_head *next, *prev; }] *)
Record list_head := ListHead { next : ptr; prev : ptr }.

(** The objects of the heap.  An [element_t] is addressed by its embedded
    [list] member: [list_entry] and [&e->list] are the identity on
    addresses, the offset of the member is not modelled. *)
Inductive object :=
| OHead (l : list_head)
| OElem (value : ptr) (lnk : list_head)
| OChars (bytes : list byte).

(** [heap]: the allocated objects.  [brk]: the next address [malloc] hands
    out.  [faults]: the allocation plan of the test harness, one flag per
    coming allocation, [true] for an allocation that fails (the harness
    replaces [malloc] and [strdup] by versions that can fail). *)
Record mem := Mem { heap : gmap Z object; brk : Z; faults : list bool }.

Inductive res (A : Type) :=
| Done (a : A) (m : mem)
| Fault
| Timeout.
Arguments Done {A} a m.
Arguments Fault {A}.
Arguments Timeout {A}.

Definition M (A : Type) : Type := mem -> res A.

Definition ret {A} (a : A) : M A := fun m => Done a m.

Definition bind {A B} (c : M A) (k : A -> M B) : M B :=
  fun m => match c m with
           | Done a m' => k a m'
           | Fault => Fault
           | Timeout => Timeout
           end.

Definition fault {A} : M A := fun _ => Fault.
Definition timeout {A} : M A := fun _ => Timeout.

Declare Scope mem_scope.
Notation "x <- c ;; k" := (bind c (fun x => k))
  (at level 100, c at next level, k at level 200, right associativity)
  : mem_scope.
Notation "c ;; k" := (bind c (fun _ => k))
  (at level 100, k at level 200, right associativity) : mem_scope.
Open Scope mem_scope.

Definition deref (p : ptr) : M object :=
  fun m => if p =? NULL then Fault
           else match heap m !! p with
                | Some o => Done o m
                | None => Fault
                end.

Definition store (p : ptr) (o : object) : M unit :=
  fun m => Done tt (Mem (<[p := o]> (heap m)) (brk m) (faults m)).

Definition links (o : object) : option list_head :=
  match o with
  | OHead l => Some l
  | OElem _ l => Some l
  | OChars _ => None
  end.

Definition with_links (o : object) (l : list_head) : object :=
  match o with
  | OHead _ => OHead l
  | OElem v _ => OElem v l
  | OChars b => OChars b
  end.

(** [p->next] and [p->prev], read and written *)
Definition get_next (p : ptr) : M ptr :=
  o <- deref p ;;
  match links o with Some l => ret (next l) | None => fault end.

Definition get_prev (p : ptr) : M ptr :=
  o <- deref p ;;
  match links o with Some l => ret (prev l) | None => fault end.

Definition set_next (p v : ptr) : M unit :=
  o <- deref p ;;
  match links o with
  | Some l => store p (with_links o (ListHead v (prev l)))
  | None => fault
  end.

Definition set_prev (p v : ptr) : M unit :=
  o <- deref p ;;
  match links o with
  | Some l => store p (with_links o (ListHead (next l) v))
  | None => fault
  end.

(** [e->value], read and written *)
Definition get_value (e : ptr) : M ptr :=
  o <- deref e ;;
  match o with OElem v _ => ret v | _ => fault end.

Definition set_value (e v : ptr) : M unit :=
  o <- deref e ;;
  match o with OElem _ l => store e (OElem v l) | _ => fault end.

Definition load_chars (p : ptr) : M (list byte) :=
  o <- deref p ;;
  match o with OChars b => ret b | _ => fault end.

(** ** The C library *)

(** [malloc]: the content of the new object is indeterminate in C; the
    model fills it with the [init] it is given, which no caller reads
    before writing. *)
Definition malloc (init : object) : M ptr :=
  fun m => match faults m with
           | true :: fs => Done NULL (Mem (heap m) (brk m) fs)
           | _ => Done (brk m)
                    (Mem (<[brk m := init]> (heap m)) (brk m + 1)
                         (tail (faults m)))
           end.

(** [free(NULL)] does nothing; freeing what is not allocated is a fault. *)
Definition free (p : ptr) : M unit :=
  fun m => if p =? NULL then Done tt m
           else match heap m !! p with
                | Some _ => Done tt (Mem (delete p (heap m)) (brk m) (faults m))
                | None => Fault
                end.

Definition is_nul (c : byte) : bool := Byte.eqb c x00.

(** The C string held by an array of bytes: the bytes before the first
    null byte; none when the array holds no null byte. *)
Fixpoint cstr (b : list byte) : option (list byte) :=
  match b with
  | [] => None
  | c :: b' => if is_nul c then Some []
               else match cstr b' with
                    | Some s => Some (c :: s)
                    | None => None
                    end
  end.

(** [strdup(s)], [s] the array the argument points to *)
Definition strdup (s : list byte) : M ptr :=
  match cstr s with
  | Some c => malloc (OChars (c ++ [x00]))
  | None => fault
  end.

(** The [n] bytes [strncpy] writes: the source up to its null byte, then
    null bytes; none when the source array ends first. *)
Fixpoint strncpy_bytes (src : list byte) (n : nat) : option (list byte) :=
  match n with
  | O => Some []
  | S n' =>
      match src with
      | [] => None
      | c :: src' =>
          if is_nul c then Some (replicate n x00)
          else match strncpy_bytes src' n' with
               | Some r => Some (c :: r)
               | None => None
               end
      end
  end.

Definition strncpy (dst src : ptr) (n : Z) : M unit :=
  d <- load_chars dst ;;
  s <- load_chars src ;;
  if Z.of_nat (length d) <? n then fault
  else match strncpy_bytes s (Z.to_nat n) with
       | Some bs => store dst (OChars (bs ++ drop (Z.to_nat n) d))
       | None => fault
       end.

(** [*(p + i) = c] *)
Definition store_char (p : ptr) (i : Z) (c : byte) : M unit :=
  d <- load_chars p ;;
  if (i <? 0) || (Z.of_nat (length d) <=? i) then fault
  else store p (OChars (<[Z.to_nat i := c]> d)).

Definition uchar (c : byte) : Z := Z.of_N (Byte.to_N c).

(** [strcmp] on the bytes up to the null bytes, as unsigned chars; the
    end of a string compares as the null byte. *)
Fixpoint strcmp_bytes (a b : list byte) : Z :=
  match a, b with
  | [], [] => 0
  | [], d :: _ => 0 - uchar d
  | c :: _, [] => uchar c
  | c :: a', d :: b' =>
      if uchar c =? uchar d then strcmp_bytes a' b' else uchar c - uchar d
  end.

Definition strcmp (p q : ptr) : M Z :=
  a <- load_chars p ;;
  b <- load_chars q ;;
  match cstr a, cstr b with
  | Some s, Some t => ret (strcmp_bytes s t)
  | _, _ => fault
  end.

(** [size_t] arithmetic wraps around *)
Definition size_max : Z := 2 ^ 64.
Definition size_sub (a b : Z) : Z := (a - b) mod size_max.

(** ** list.h *)

(** Modelled from the spec: [list.h] is not among the sources; section 4.1
    gives [INIT_LIST_HEAD] (both links of the sentinel point to itself). *)
Definition INIT_LIST_HEAD (head : ptr) : M unit :=
  set_next head head ;;
  set_prev head head.

(** Modelled from the spec: [list.h] is not among the sources; section 4.1,
    [empty(head)] is true iff [head.next == head]. *)
Definition list_empty (head : ptr) : M bool :=
  n <- get_next head ;;
  ret (n =? head).

(** Modelled from the spec: [list.h] is not among the sources; section 4.1,
    [is_singular(head)] is [!empty(head) && head.next.next == head]. *)
Definition list_is_singular (head : ptr) : M bool :=
  e <- list_empty head ;;
  if e then ret false
  else n <- get_next head ;;
       nn <- get_next n ;;
       ret (nn =? head).

(** Modelled from the spec: [list.h] is not among the sources; section 4.1,
    [insert_after]: the pointer splice that links [node] right after
    [head]. *)
Definition list_add (node head : ptr) : M unit :=
  nxt <- get_next head ;;
  set_prev nxt node ;;
  set_next node nxt ;;
  set_prev node head ;;
  set_next head node.

(** Modelled from the spec: [list.h] is not among the sources; section 4.1,
    [insert_before]: the pointer splice that links [node] right before
    [head]. *)
Definition list_add_tail (node head : ptr) : M unit :=
  prv <- get_prev head ;;
  set_next prv node ;;
  set_next node head ;;
  set_prev node prv ;;
  set_prev head node.

(** Modelled from the spec: [list.h] is not among the sources; section 4.1,
    [delete(node)] unlinks and leaves the node's own pointers dangling. *)
Definition list_del (node : ptr) : M unit :=
  nxt <- get_next node ;;
  prv <- get_prev node ;;
  set_prev nxt prv ;;
  set_next prv nxt.

(** Modelled from the spec: [list.h] is not among the sources.
    [list_move_tail(node, head)] is the relocation of an already linked
    node, [delete] followed by [insert_before]: the node becomes the tail
    of the list whose head is [head].  Section 8, scenario C fixes this
    reading for the call in [q_swap]. *)
Definition list_move_tail (node head : ptr) : M unit :=
  list_del node ;;
  list_add_tail node head.

(** Modelled from the spec: [list.h] is not among the sources; the first
    entry of a list is the element next to the sentinel (glossary: the
    neighbours of the sentinel are the first and last elements). *)
Definition list_first_entry (head : ptr) : M ptr :=
  get_next head.

(** Modelled from the spec: [list.h] is not among the sources; the last
    entry of a list is the element before the sentinel (glossary: the
    neighbours of the sentinel are the first and last elements). *)
Definition list_last_entry (head : ptr) : M ptr :=
  get_prev head.

(** ** queue.c *)

Definition q_new : M ptr :=
  new <- malloc (OHead (ListHead NULL NULL)) ;;
  if new =? NULL then ret NULL
  else INIT_LIST_HEAD new ;;
       ret new.

(** Modelled from the spec: [list.h] is not among the sources; section 4.2
    has [q_free] go through every element, and the comment in [q_free]
    has [list_for_each_entry_safe] iterate in a way that allows the
    deletion of the current entry: [entry] starts at the first element
    and [safe] at the one after it; each round tests [entry] against the
    sentinel, runs the body, then steps with
    [entry = safe, safe = safe->list.next]. *)
Fixpoint q_free_loop (fuel : nat) (l entry safe : ptr) : M unit :=
  match fuel with
  | O => timeout
  | S f =>
      if entry =? l then ret tt
      else list_del entry ;;
           free entry ;;
           safe' <- get_next safe ;;
           q_free_loop f l safe safe'
  end.

Definition q_free (fuel : nat) (l : ptr) : M unit :=
  entry <- list_first_entry l ;;
  safe <- get_next entry ;;
  q_free_loop fuel l entry safe ;;
  free l.

Definition q_insert_head (head : ptr) (s : list byte) : M bool :=
  if head =? NULL then ret false
  else
    new <- malloc (OElem NULL (ListHead NULL NULL)) ;;
    if new =? NULL then ret false
    else
      v <- strdup s ;;
      set_value new v ;;
      if v =? NULL then free new ;; ret false
      else list_add new head ;;
           ret true.

Definition q_insert_tail (head : ptr) (s : list byte) : M bool :=
  if head =? NULL then ret false
  else
    new <- malloc (OElem NULL (ListHead NULL NULL)) ;;
    if new =? NULL then ret false
    else
      v <- strdup s ;;
      set_value new v ;;
      if v =? NULL then free new ;; ret false
      else list_add_tail new head ;;
           ret true.

Definition q_remove_head (head sp : ptr) (bufsize : Z) : M ptr :=
  if head =? NULL then ret NULL
  else
    e <- list_empty head ;;
    if e then ret NULL
    else
      rm <- list_first_entry head ;;
      v <- get_value rm ;;
      strncpy sp v (size_sub bufsize 1) ;;
      store_char sp (bufsize - 1) x00 ;;
      list_del rm ;;
      ret rm.

Definition q_remove_tail (head sp : ptr) (bufsize : Z) : M ptr :=
  if head =? NULL then ret NULL
  else
    e <- list_empty head ;;
    if e then ret NULL
    else
      rm <- list_last_entry head ;;
      v <- get_value rm ;;
      strncpy sp v (size_sub bufsize 1) ;;
      store_char sp (bufsize - 1) x00 ;;
      list_del rm ;;
      ret rm.

Definition q_release_element (e : ptr) : M unit :=
  v <- get_value e ;;
  free v ;;
  free e.

(** [head == NULL || list_empty(head) || list_is_singular(head)] *)
Definition trivial_queue (head : ptr) : M bool :=
  if head =? NULL then ret true
  else e <- list_empty head ;;
       if e then ret true
       else list_is_singular head.

Fixpoint mid_loop (fuel : nat) (head slow fast : ptr) : M ptr :=
  match fuel with
  | O => timeout
  | S f =>
      if fast =? head then ret slow
      else hn <- get_next head ;;
           if fast =? hn then ret slow
           else slow' <- get_next slow ;;
                fn <- get_next fast ;;
                fast' <- get_next fn ;;
                mid_loop f head slow' fast'
  end.

Definition q_delete_mid (fuel : nat) (head : ptr) : M bool :=
  t <- trivial_queue head ;;
  if t then ret false
  else
    slow <- get_next head ;;
    hn <- get_next head ;;
    fast <- get_next hn ;;
    slow' <- mid_loop fuel head slow fast ;;
    list_del slow' ;;
    q_release_element slow' ;;
    ret true.

Definition q_delete_dup (head : ptr) : M bool :=
  ret true.

Fixpoint swap_loop (fuel : nat) (head node : ptr) : M unit :=
  match fuel with
  | O => timeout
  | S f =>
      if node =? head then ret tt
      else n <- get_next node ;;
           if n =? head then ret tt
           else n1 <- get_next node ;;
                list_move_tail n1 node ;;
                node' <- get_next node ;;
                swap_loop f head node'
  end.

Definition q_swap (fuel : nat) (head : ptr) : M unit :=
  t <- trivial_queue head ;;
  if t then ret tt
  else node <- get_next head ;;
       swap_loop fuel head node.

Fixpoint reverse_loop (fuel : nat) (head node : ptr) : M unit :=
  match fuel with
  | O => timeout
  | S f =>
      buff <- get_next node ;;
      p <- get_prev node ;;
      set_next node p ;;
      set_prev node buff ;;
      if buff =? head then ret tt
      else reverse_loop f head buff
  end.

Definition q_reverse (fuel : nat) (head : ptr) : M unit :=
  t <- trivial_queue head ;;
  if t then ret tt
  else reverse_loop fuel head head.

Definition element_t_cmp (a b : ptr) : M Z :=
  va <- get_value a ;;
  vb <- get_value b ;;
  strcmp va vb.

(** What [struct list_head **tail] of [merge] points to: the local
    variable [head], or the [next] member of a node. *)
Inductive slot :=
| LocalHead
| NextOf (p : ptr).

(** [*tail = v]; the first component of the result is the local [head] *)
Definition slot_store (tl : slot) (head v : ptr) : M ptr :=
  match tl with
  | LocalHead => ret v
  | NextOf p => set_next p v ;; ret head
  end.

(** [*tail] *)
Definition slot_load (tl : slot) (head : ptr) : M ptr :=
  match tl with
  | LocalHead => ret head
  | NextOf p => get_next p
  end.

Fixpoint merge_loop (fuel : nat) (cmp : ptr -> ptr -> M Z)
    (head : ptr) (tl : slot) (a b : ptr) : M ptr :=
  match fuel with
  | O => timeout
  | S f =>
      c <- cmp a b ;;
      if c <=? 0 then
        head1 <- slot_store tl head a ;;
        t <- slot_load tl head1 ;;
        a' <- get_next a ;;
        if a' =? NULL then slot_store (NextOf t) head1 b
        else merge_loop f cmp head1 (NextOf t) a' b
      else
        head1 <- slot_store tl head b ;;
        t <- slot_load tl head1 ;;
        b' <- get_next b ;;
        if b' =? NULL then slot_store (NextOf t) head1 a
        else merge_loop f cmp head1 (NextOf t) a b'
  end.

Definition merge (fuel : nat) (cmp : ptr -> ptr -> M Z) (a b : ptr) : M ptr :=
  merge_loop fuel cmp NULL LocalHead a b.

Fixpoint reconnect_loop (fuel : nat) (node : ptr) : M ptr :=
  match fuel with
  | O => timeout
  | S f =>
      n <- get_next node ;;
      set_prev n node ;;
      node' <- get_next node ;;
      nn <- get_next node' ;;
      if nn =? NULL then ret node'
      else reconnect_loop f node'
  end.

Definition reconnect (fuel : nat) (head : ptr) : M unit :=
  node <- reconnect_loop fuel head ;;
  set_next node head ;;
  set_prev head node.

(** The loop of [merge_sort] that finds where to split *)
Fixpoint split_loop (fuel : nat) (slow fast : ptr) : M ptr :=
  match fuel with
  | O => timeout
  | S f =>
      if fast =? NULL then ret slow
      else fn <- get_next fast ;;
           if fn =? NULL then ret slow
           else slow' <- get_next slow ;;
                fn' <- get_next fast ;;
                fast' <- get_next fn' ;;
                split_loop f slow' fast'
  end.

(** The two recursive calls are the arguments of one call of [merge]; C
    leaves their order open, the model runs the left one first (they work
    on separate chains). *)
Fixpoint merge_sort (fuel : nat) (head : ptr) (cmp : ptr -> ptr -> M Z)
    : M ptr :=
  match fuel with
  | O => timeout
  | S f =>
      n <- get_next head ;;
      if n =? NULL then ret head
      else
        slow <- get_next head ;;
        hn <- get_next head ;;
        fast <- get_next hn ;;
        slow' <- split_loop fuel slow fast ;;
        sp <- get_prev slow' ;;
        set_next sp NULL ;;
        l <- merge_sort f head cmp ;;
        r <- merge_sort f slow' cmp ;;
        merge fuel cmp l r
  end.

Definition q_sort (fuel : nat) (head : ptr) : M unit :=
  t <- trivial_queue head ;;
  if t then ret tt
  else
    hp <- get_prev head ;;
    set_next hp NULL ;;
    hn <- get_next head ;;
    sorted <- merge_sort fuel hn element_t_cmp ;;
    set_next head sorted ;;
    reconnect fuel head.

(** ** Reading the heap: views *)

Definition obj_at (m : mem) (p : ptr) : option object :=
  if p =? NULL then None else heap m !! p.

Definition nx (m : mem) (p : ptr) : option ptr :=
  match obj_at m p with
  | Some o => option_map next (links o)
  | None => None
  end.

Definition pv (m : mem) (p : ptr) : option ptr :=
  match obj_at m p with
  | Some o => option_map prev (links o)
  | None => None
  end.

Definition val (m : mem) (p : ptr) : option ptr :=
  match obj_at m p with
  | Some (OElem v _) => Some v
  | _ => None
  end.

Definition chars (m : mem) (p : ptr) : option (list byte) :=
  match obj_at m p with
  | Some (OChars b) => Some b
  | _ => None
  end.

(** The string of the element at [e] *)
Definition str (m : mem) (e : ptr) : option (list byte) :=
  match val m e with
  | Some v => match chars m v with
              | Some b => cstr b
              | None => None
              end
  | None => None
  end.

(** ** Writing the heap: the states the primitives produce *)

Definition upd (m : mem) (p : ptr) (o : object) : mem :=
  Mem (<[p := o]> (heap m)) (brk m) (faults m).

Definition modify (g : object -> object) (p : ptr) (m : mem) : mem :=
  match obj_at m p with
  | Some o => upd m p (g o)
  | None => m
  end.

Definition o_next (v : ptr) (o : object) : object :=
  match links o with
  | Some l => with_links o (ListHead v (prev l))
  | None => o
  end.

Definition o_prev (v : ptr) (o : object) : object :=
  match links o with
  | Some l => with_links o (ListHead (next l) v)
  | None => o
  end.

Definition o_value (v : ptr) (o : object) : object :=
  match o with
  | OElem _ l => OElem v l
  | _ => o
  end.

Definition o_flip (o : object) : object :=
  match links o with
  | Some l => with_links o (ListHead (prev l) (next l))
  | None => o
  end.

Definition put_next (p v : ptr) : mem -> mem := modify (o_next v) p.
Definition put_prev (p v : ptr) : mem -> mem := modify (o_prev v) p.
Definition put_value (p v : ptr) : mem -> mem := modify (o_value v) p.

Definition release (p : ptr) (m : mem) : mem :=
  Mem (delete p (heap m)) (brk m) (faults m).

(** ** The shape of the list *)

(** [fpath f a l b]: [f] leads from [a] through the nodes of [l], in
    order, to [b].  [bpath f a l b]: [f] leads from [b] back through [l],
    in reverse order, to [a]. *)
Fixpoint fpath (f : ptr -> option ptr) (a : ptr) (l : list ptr) (b : ptr)
    : Prop :=
  match l with
  | [] => f a = Some b
  | x :: l' => f a = Some x /\ fpath f x l' b
  end.

Fixpoint bpath (f : ptr -> option ptr) (a : ptr) (l : list ptr) (b : ptr)
    : Prop :=
  match l with
  | [] => f b = Some a
  | x :: l' => f x = Some a /\ bpath f x l' b
  end.

(** The ring with sentinel [h] whose elements are, in order, the nodes
    [l]: [next] runs around it one way and [prev] the other way. *)
Definition ring (m : mem) (h : ptr) (l : list ptr) : Prop :=
  NoDup (h :: l) /\ fpath (nx m) h l h /\ bpath (pv m) h l h.

(** [n.next.prev == n] and [n.prev.next == n] *)
Definition consistent (m : mem) (n : ptr) : Prop :=
  (exists b, nx m n = Some b /\ pv m b = Some n) /\
  (exists a, pv m n = Some a /\ nx m a = Some n).

(** Nothing but link members differs between [m] and [m']: the same
    objects are allocated, with the same values and bytes. *)
Record same_data (m m' : mem) : Prop := SameData {
  sd_brk : brk m' = brk m;
  sd_faults : faults m' = faults m;
  sd_dom : dom (heap m') = dom (heap m);
  sd_val : forall q, val m' q = val m q;
  sd_chars : forall q, chars m' q = chars m q
}.

(** The allocator only hands out addresses above every allocated one. *)
Definition heap_ok (m : mem) : Prop :=
  0 < brk m /\ forall k, k ∈ dom (heap m) -> 0 < k < brk m.

(** The queue with sentinel [h] and elements [l]: a ring whose elements
    each own a null-terminated string, no two of them the same storage. *)
Definition queue (m : mem) (h : ptr) (l : list ptr) : Prop :=
  ring m h l /\
  Forall (fun e => is_Some (str m e)) l /\
  NoDup (map (val m) l).

(** [m'] is [m] with the links of nodes of [S] rewritten: nothing else
    differs. *)
Definition relinked (S : list ptr) (m m' : mem) : Prop :=
  same_data m m' /\
  forall q, q ∉ S -> nx m' q = nx m q /\ pv m' q = pv m q.

(** [m'] is [m] with [next] and [prev] exchanged in every node of [S]. *)
Definition mirrored (S : list ptr) (m m' : mem) : Prop :=
  same_data m m' /\
  (forall q, q ∈ S -> nx m' q = pv m q /\ pv m' q = nx m q) /\
  (forall q, q ∉ S -> nx m' q = nx m q /\ pv m' q = pv m q).

(** The list with the elements of each adjacent pair exchanged; an
    unpaired last element stays. *)
Fixpoint swap_pairs {A} (l : list A) : list A :=
  match l with
  | a :: b :: t => b :: a :: swap_pairs t
  | _ => l
  end.

Definition o_chars (b : list byte) (o : object) : object :=
  match o with
  | OChars _ => OChars b
  | _ => o
  end.

Definition put_chars (p : ptr) (b : list byte) : mem -> mem :=
  modify (o_chars b) p.

(** The state after a successful [malloc] *)
Definition alloc (o : object) (m : mem) : mem :=
  Mem (<[brk m := o]> (heap m)) (brk m + 1) (tail (faults m)).

(** The state after a failed [malloc] *)
Definition refuse (m : mem) : mem :=
  Mem (heap m) (brk m) (tail (faults m)).

(** Whether the next allocation fails *)
Definition fails (fs : list bool) : bool :=
  match fs with
  | true :: _ => true
  | _ => false
  end.

Definition nonul (s : list byte) : Prop :=
  Forall (fun c => is_nul c = false) s.
(** The body the two insertions share, up to the call that links the
    new element: [q_insert_head] is [insert_with list_add] and
    [q_insert_tail] is [insert_with list_add_tail]. *)
Definition insert_with (link : ptr -> ptr -> M unit) (head : ptr)
    (s : list byte) : M bool :=
  if head =? NULL then ret false
  else
    new <- malloc (OElem NULL (ListHead NULL NULL)) ;;
    if new =? NULL then ret false
    else
      v <- strdup s ;;
      set_value new v ;;
      if v =? NULL then free new ;; ret false
      else link new head ;;
           ret true.

(** The state in which a new element is linked: the element and the
    copy of the string allocated, the element pointing to the copy. *)
Definition with_element (c : list byte) (m : mem) : mem :=
  put_value (brk m) (brk m + 1)
    (alloc (OChars (c ++ [x00])) (alloc (OElem NULL (ListHead NULL NULL)) m)).

(** What the buffer [d] holds after a removal copied the string [s] into
    it with size [bufsize]: at most [bufsize - 1] bytes of [s], null
    bytes up to [bufsize - 1], the null byte at [bufsize - 1], and the
    rest of the buffer as it was. *)
Definition copied (s d : list byte) (bufsize : Z) : list byte :=
  let n := Z.to_nat (bufsize - 1) in
  take n s ++ replicate (n - length s) x00 ++ x00 :: drop (S n) d.

(** [m'] is [m] but for links and for the bytes at [sp]. *)
Definition same_but (sp : ptr) (m m' : mem) : Prop :=
  brk m' = brk m /\ faults m' = faults m /\
  dom (heap m') = dom (heap m) /\
  (forall q, val m' q = val m q) /\
  (forall q, q <> sp -> chars m' q = chars m q).

(** The part of the two removals after the choice of the element *)
Definition remove_at (rm sp : ptr) (bufsize : Z) : M ptr :=
  v <- get_value rm ;;
  strncpy sp v (size_sub bufsize 1) ;;
  store_char sp (bufsize - 1) x00 ;;
  list_del rm ;;
  ret rm.

(** ** Order *)

#[export] Instance byte_eq_dec : EqDecision byte := Byte.byte_eq_dec.

(** [s] sorts before [t] or equal to it *)
Definition str_le (s t : list byte) : Prop := strcmp_bytes s t <= 0.

(** The string of [e], empty when [e] holds none *)
Definition key (m : mem) (e : ptr) : list byte := default [] (str m e).

Section Order.
Variable k : ptr -> list byte.

Definition le (x y : ptr) : bool := strcmp_bytes (k x) (k y) <=? 0.

(** The list [merge] builds from the chains [a] and [b] *)
Fixpoint merge_list (a : list ptr) : list ptr -> list ptr :=
  fix go (b : list ptr) : list ptr :=
    match a, b with
    | [], _ => b
    | _, [] => a
    | x :: a', y :: b' =>
        if le x y then x :: merge_list a' b else y :: go b'
    end.

Definition ascending (l : list ptr) : Prop :=
  StronglySorted (fun x y => str_le (k x) (k y)) l.

(** Elements with equal strings are in [l'] in the order they have in
    [l]. *)
Definition stable (l l' : list ptr) : Prop :=
  forall s, filter (fun e => k e = s) l' = filter (fun e => k e = s) l.

Definition sorted_of (l l' : list ptr) : Prop :=
  l ≡ₚ l' /\ ascending l' /\ stable l l'.

End Order.

(** [pv] leads from each node of [l] to the one before it, from the
    first one to [a]. *)
Fixpoint bseg (f : ptr -> option ptr) (a : ptr) (l : list ptr) : Prop :=
  match l with
  | [] => True
  | x :: l' => f x = Some a /\ bseg f x l'
  end.

(** The state after [*tail = v] *)
Definition slot_mem (tl : slot) (v : ptr) (m : mem) : mem :=
  match tl with
  | LocalHead => m
  | NextOf t => put_next t v m
  end.

(** The local [head] after [*tail = v] *)
Definition slot_head (tl : slot) (head v : ptr) : ptr :=
  match tl with
  | LocalHead => v
  | NextOf _ => head
  end.

(** [tail] points into a node that is none of [l] *)
Definition slot_ok (m : mem) (tl : slot) (l : list ptr) : Prop :=
  match tl with
  | LocalHead => True
  | NextOf t => is_Some (nx m t) /\ t ∉ l
  end.

(** [*tail] is [o] *)
Definition slot_holds (m : mem) (tl : slot) (o : ptr) : Prop :=
  match tl with
  | LocalHead => True
  | NextOf t => nx m t = Some o
  end.

(** [q] is not the node [tail] points into *)
Definition off_slot (tl : slot) (q : ptr) : Prop :=
  match tl with
  | LocalHead => True
  | NextOf t => q <> t
  end.

(** ** Sequences of operations *)

Inductive op :=
| InsertHead (s : list byte)
| InsertTail (s : list byte)
| RemoveHead (sp : ptr) (bufsize : Z)
| RemoveTail (sp : ptr) (bufsize : Z)
| DeleteMid
| Swap
| Reverse
| Sort.

Definition run_op (fuel : nat) (h : ptr) (o : op) : M unit :=
  match o with
  | InsertHead s => q_insert_head h s ;; ret tt
  | InsertTail s => q_insert_tail h s ;; ret tt
  | RemoveHead sp n => q_remove_head h sp n ;; ret tt
  | RemoveTail sp n => q_remove_tail h sp n ;; ret tt
  | DeleteMid => q_delete_mid fuel h ;; ret tt
  | Swap => q_swap fuel h
  | Reverse => q_reverse fuel h
  | Sort => q_sort fuel h
  end.

Fixpoint run_ops (fuel : nat) (h : ptr) (os : list op) : M unit :=
  match os with
  | [] => ret tt
  | o :: os' => run_op fuel h o ;; run_ops fuel h os'
  end.

(** What the caller owes: the string to insert is null-terminated; the
    buffer of a removal is one of the caller's arrays, those of the
    memory [m0] the queue was created in, and [bufsize], a [size_t], is at
    least 1 and at most the size of the array. *)
Definition valid_op (m0 : mem) (o : op) : Prop :=
  match o with
  | InsertHead s | InsertTail s => is_Some (cstr s)
  | RemoveHead sp n | RemoveTail sp n =>
      exists d, chars m0 sp = Some d /\
                1 <= n <= Z.of_nat (length d) /\ n < size_max
  | _ => True
  end.

(** What holds of the memory between the operations on a queue created
    in [m0]. *)
Definition inv (m0 m : mem) (h : ptr) (l : list ptr) : Prop :=
  queue m h l /\ heap_ok m /\ heap_ok m0 /\ brk m0 <= brk m /\
  (forall sp d, chars m0 sp = Some d ->
     exists d', chars m sp = Some d' /\ length d' = length d) /\
  (forall e v, e ∈ l -> val m e = Some v -> chars m0 v = None).

(** ** What a caller holds *)

(** [h] is a null queue, or the sentinel of a ring of the nodes [l] *)
Definition list_at (m : mem) (h : ptr) (l : list ptr) : Prop :=
  (h = NULL /\ l = []) \/ ring m h l.

(** [h] is a null queue, or the sentinel of a queue of the elements [l] *)
Definition queue_at (m : mem) (h : ptr) (l : list ptr) : Prop :=
  (h = NULL /\ l = []) \/ queue m h l.

(** ** Example memories *)

(** The array of a string literal *)
Definition lit (s : string) : list byte :=
  String.list_byte_of_string s ++ [x00].

(** A queue of five elements, b a c a b *)
Definition ex5 : mem :=
  Mem (list_to_map
         [(1, OHead (ListHead 2 10));
          (2, OElem 3 (ListHead 4 1)); (3, OChars (lit "b"));
          (4, OElem 5 (ListHead 6 2)); (5, OChars (lit "a"));
          (6, OElem 7 (ListHead 8 4)); (7, OChars (lit "c"));
          (8, OElem 9 (ListHead 10 6)); (9, OChars (lit "a"));
          (10, OElem 11 (ListHead 1 8)); (11, OChars (lit "b"))])
      12 [].

(** The same queue, and an array of eight bytes of the caller at 12 *)
Definition ex5_buf : mem :=
  Mem (<[12 := OChars (replicate 8 x01)]> (heap ex5)) 13 [].

(** The same queue, when the next allocation fails *)
Definition ex5_refusing : mem := Mem (heap ex5) 12 [true].

(** A queue of six elements, a b c d e f *)
Definition ex6 : mem :=
  Mem (list_to_map
         [(1, OHead (ListHead 2 12));
          (2, OElem 3 (ListHead 4 1)); (3, OChars (lit "a"));
          (4, OElem 5 (ListHead 6 2)); (5, OChars (lit "b"));
          (6, OElem 7 (ListHead 8 4)); (7, OChars (lit "c"));
          (8, OElem 9 (ListHead 10 6)); (9, OChars (lit "d"));
          (10, OElem 11 (ListHead 12 8)); (11, OChars (lit "e"));
          (12, OElem 13 (ListHead 1 10)); (13, OChars (lit "f"))])
      14 [].

(** A sorted queue of three elements, a a b *)
Definition ex3 : mem :=
  Mem (list_to_map
         [(1, OHead (ListHead 2 6));
          (2, OElem 3 (ListHead 4 1)); (3, OChars (lit "a"));
          (4, OElem 5 (ListHead 6 2)); (5, OChars (lit "a"));
          (6, OElem 7 (ListHead 1 4)); (7, OChars (lit "b"))])
      8 [].

(** The memory of a caller before it creates a queue: one array of eight
    bytes; the fourth allocation to come fails. *)
Definition ex_caller : mem :=
  Mem {[1 := OChars (replicate 8 x01)]} 2 [false; false; false; true].

Definition ex_ops : list op :=
  [InsertTail (lit "b"); InsertTail (lit "refused"); InsertHead (lit "a");
   InsertTail (lit "c"); InsertHead (lit "d"); Sort; Swap; Reverse;
   DeleteMid; RemoveHead 1 2; RemoveTail 1 8].

(** ** queue.c: the size of the queue *)

(** Modelled from the spec: [list.h] is not among the sources; section 4.5
    has [q_size] count the nodes other than the sentinel in one traversal:
    [list_for_each (node, head)] starts at the node next to the sentinel
    and follows [next] until it is back at the sentinel.  The body is
    [length++], on a [size_t]. *)
Fixpoint q_size_loop (fuel : nat) (head node : ptr) (length : Z) : M Z :=
  match fuel with
  | O => timeout
  | S f =>
      if node =? head then ret length
      else node' <- get_next node ;;
           q_size_loop f head node' ((length + 1) mod size_max)
  end.

(** The conversion of the [size_t] to the [int] that [q_size] returns:
    modulo [2 ^ 32], into the range of a 32-bit [int]. *)
Definition int_of_size (n : Z) : Z :=
  let r := n mod 2 ^ 32 in
  if r <? 2 ^ 31 then r else r - 2 ^ 32.

Definition q_size (fuel : nat) (head : ptr) : M Z :=
  if head =? NULL then ret 0
  else
    e <- list_empty head ;;
    if e then ret 0
    else
      node <- get_next head ;;
      length <- q_size_loop fuel head node 0 ;;
      ret (int_of_size length).

(** ** What a caller counts *)

(** An operation, and the change of the number of elements that its
    result tells the caller: one more after an insertion that returns
    true, one less after a removal that returns an element or a deletion
    that returns true, none otherwise. *)
Definition tally_op (fuel : nat) (h : ptr) (o : op) : M Z :=
  match o with
  | InsertHead s => b <- q_insert_head h s ;; ret (if b : bool then 1 else 0)
  | InsertTail s => b <- q_insert_tail h s ;; ret (if b : bool then 1 else 0)
  | RemoveHead sp n =>
      e <- q_remove_head h sp n ;; ret (if e =? NULL then 0 else -1)
  | RemoveTail sp n =>
      e <- q_remove_tail h sp n ;; ret (if e =? NULL then 0 else -1)
  | DeleteMid => b <- q_delete_mid fuel h ;; ret (if b : bool then -1 else 0)
  | Swap => q_swap fuel h ;; ret 0
  | Reverse => q_reverse fuel h ;; ret 0
  | Sort => q_sort fuel h ;; ret 0
  end.

Fixpoint tally_ops (fuel : nat) (h : ptr) (os : list op) : M Z :=
  match os with
  | [] => ret 0
  | o :: os' =>
      d <- tally_op fuel h o ;;
      n <- tally_ops fuel h os' ;;
      ret (d + n)
  end.

(** An empty queue, and an array of four bytes of the caller at 2 *)
Definition ex0 : mem :=
  Mem (list_to_map
         [(1, OHead (ListHead 1 1)); (2, OChars (replicate 4 x01))])
      3 [].

(** [a] comes before [b] in the order of the dictionary, the bytes taken
    as unsigned chars: at the first place where they differ, [a] has
    ended or has the smaller byte. *)
Fixpoint lex_lt (a b : list byte) : Prop :=
  match a, b with
  | _, [] => False
  | [], _ :: _ => True
  | c :: a', d :: b' => uchar c < uchar d \/ (c = d /\ lex_lt a' b')
  end.

(** Two null-terminated chains as [merge] takes them, a c and b *)
Definition ex_chains : mem :=
  Mem (list_to_map
         [(2, OElem 3 (ListHead 6 NULL)); (3, OChars (lit "a"));
          (6, OElem 7 (ListHead NULL NULL)); (7, OChars (lit "c"));
          (4, OElem 5 (ListHead NULL NULL)); (5, OChars (lit "b"))])
      8 [].

(** A null-terminated chain as [merge_sort] takes it, c a b, each node
    but the first with its [prev] link *)
Definition ex_chain : mem :=
  Mem (list_to_map
         [(2, OElem 3 (ListHead 6 NULL)); (3, OChars (lit "c"));
          (6, OElem 7 (ListHead 4 2)); (7, OChars (lit "a"));
          (4, OElem 5 (ListHead NULL 6)); (5, OChars (lit "b"))])
      8 [].

(** A sentinel and a null-terminated chain as [reconnect] takes them,
    no [prev] link set *)
Definition ex_open : mem :=
  Mem (list_to_map
         [(1, OHead (ListHead 2 NULL));
          (2, OElem 3 (ListHead 4 NULL)); (3, OChars (lit "a"));
          (4, OElem 5 (ListHead NULL NULL)); (5, OChars (lit "b"))])
      6 [].

(** The strings of [l] never increase along the list *)
Definition descending (k : ptr -> list byte) (l : list ptr) : Prop :=
  StronglySorted (fun x y => str_le (k y) (k x)) l.

(** ** Properties *)

Lemma last_cons {A} (x : A) l a : List.last (x :: l) a = List.last l x.
Proof.
  revert x a. induction l as [|y l IH]; intros x a; [done|].
  change (List.last (x :: y :: l) a) with (List.last (y :: l) a).
  by rewrite !IH.
Qed.

Lemma last_snoc {A} (x : A) l a : List.last (l ++ [x]) a = x.
Proof. apply last_last. Qed.

Section Paths.
Variable f : ptr -> option ptr.

Lemma fpath_app a l1 x l2 b :
  fpath f a (l1 ++ x :: l2) b <-> fpath f a l1 x /\ fpath f x l2 b.
Proof.
  revert a. induction l1 as [|y l1 IH]; intros a; simpl; [tauto|].
  rewrite IH. tauto.
Qed.

Lemma fpath_snoc a l x b :
  fpath f a (l ++ [x]) b <-> fpath f a l x /\ f x = Some b.
Proof. apply fpath_app. Qed.

Lemma bpath_app a l1 x l2 b :
  bpath f a (l1 ++ x :: l2) b <-> bpath f a l1 x /\ bpath f x l2 b.
Proof.
  revert a. induction l1 as [|y l1 IH]; intros a; simpl; [tauto|].
  rewrite IH. tauto.
Qed.

Lemma bpath_snoc a l x b :
  bpath f a (l ++ [x]) b <-> bpath f a l x /\ f b = Some x.
Proof. apply bpath_app. Qed.

Lemma fpath_first a l b : fpath f a l b -> f a = Some (hd b l).
Proof. destruct l; simpl; tauto. Qed.

Lemma fpath_last a l b : fpath f a l b -> f (List.last l a) = Some b.
Proof.
  revert a. induction l as [|x l IH]; intros a; [done|].
  intros [_ H]. rewrite last_cons. by apply IH.
Qed.

Lemma bpath_first a l b : bpath f a l b -> f (hd b l) = Some a.
Proof. destruct l; simpl; tauto. Qed.

Lemma bpath_last a l b : bpath f a l b -> f b = Some (List.last l a).
Proof.
  revert a. induction l as [|x l IH]; intros a; [done|].
  intros [_ H]. rewrite last_cons. by apply IH.
Qed.

(** A backward path is a forward path through the reversed list. *)
Lemma bpath_rev a l b : bpath f a l b <-> fpath f b (rev l) a.
Proof.
  revert a. induction l as [|x l IH]; intros a; simpl; [done|].
  rewrite fpath_snoc, IH. tauto.
Qed.

Lemma fpath_rev a l b : fpath f a l b <-> bpath f b (rev l) a.
Proof. rewrite bpath_rev, rev_involutive. done. Qed.

End Paths.

Lemma fpath_ext f g a l b :
  (forall q, q ∈ a :: l -> g q = f q) -> fpath f a l b -> fpath g a l b.
Proof.
  revert a. induction l as [|x l IH]; intros a Hq; simpl.
  - intros <-. apply Hq. set_solver.
  - intros [H1 H2]. split.
    + rewrite <- H1. apply Hq. set_solver.
    + apply IH; [|done]. intros q Hin. apply Hq. set_solver.
Qed.

Lemma bpath_ext f g a l b :
  (forall q, q ∈ l ++ [b] -> g q = f q) -> bpath f a l b -> bpath g a l b.
Proof.
  revert a. induction l as [|x l IH]; intros a Hq; simpl.
  - intros <-. apply Hq. set_solver.
  - intros [H1 H2]. split.
    + rewrite <- H1. apply Hq. set_solver.
    + apply IH; [|done]. intros q Hin. apply Hq. set_solver.
Qed.

(** *** Views of the written states *)

Lemma obj_at_nonnull m p o : obj_at m p = Some o -> p <> NULL.
Proof. unfold obj_at. by destruct (Z.eqb_spec p NULL). Qed.

Lemma obj_at_heap m p o : obj_at m p = Some o -> heap m !! p = Some o.
Proof. unfold obj_at. by destruct (p =? NULL). Qed.

Lemma obj_at_upd m p o q :
  p <> NULL ->
  obj_at (upd m p o) q = if decide (q = p) then Some o else obj_at m q.
Proof.
  intros Hp. unfold obj_at, upd; simpl. case_decide as E.
  - subst q. destruct (Z.eqb_spec p NULL); [done|]. by rewrite lookup_insert_eq.
  - destruct (q =? NULL); [done|]. by rewrite lookup_insert_ne.
Qed.

Lemma obj_at_modify g p m q :
  obj_at (modify g p m) q =
  if decide (q = p) then option_map g (obj_at m p) else obj_at m q.
Proof.
  unfold modify. destruct (obj_at m p) as [o|] eqn:Ho.
  - rewrite obj_at_upd by eauto using obj_at_nonnull. done.
  - case_decide; by subst.
Qed.

Lemma obj_at_release p m q :
  obj_at (release p m) q = if decide (q = p) then None else obj_at m q.
Proof.
  unfold obj_at, release; simpl. destruct (q =? NULL); [by case_decide|].
  case_decide; subst; [apply lookup_delete_eq | by apply lookup_delete_ne].
Qed.

Lemma dom_modify g p m : dom (heap (modify g p m)) = dom (heap m).
Proof.
  unfold modify. destruct (obj_at m p) as [o|] eqn:Ho; [|done].
  apply obj_at_heap in Ho. simpl. rewrite dom_insert_L.
  apply elem_of_dom_2 in Ho. set_solver.
Qed.

Ltac views :=
  unfold str, nx, pv, val, chars, put_next, put_prev, put_value;
  rewrite ?obj_at_modify, ?obj_at_release;
  repeat case_decide; subst; try done.

Lemma nx_put_next p v m q :
  nx (put_next p v m) q =
  if decide (q = p) then option_map (fun _ => v) (nx m p) else nx m q.
Proof. views. destruct (obj_at m p) as [[]|]; done. Qed.

Lemma pv_put_next p v m q : pv (put_next p v m) q = pv m q.
Proof. views. destruct (obj_at m p) as [[]|]; done. Qed.

Lemma nx_put_prev p v m q : nx (put_prev p v m) q = nx m q.
Proof. views. destruct (obj_at m p) as [[]|]; done. Qed.

Lemma pv_put_prev p v m q :
  pv (put_prev p v m) q =
  if decide (q = p) then option_map (fun _ => v) (pv m p) else pv m q.
Proof. views. destruct (obj_at m p) as [[]|]; done. Qed.

Lemma val_put_next p v m q : val (put_next p v m) q = val m q.
Proof. views. destruct (obj_at m p) as [[]|]; done. Qed.

Lemma val_put_prev p v m q : val (put_prev p v m) q = val m q.
Proof. views. destruct (obj_at m p) as [[]|]; done. Qed.

Lemma chars_put_next p v m q : chars (put_next p v m) q = chars m q.
Proof. views. destruct (obj_at m p) as [[]|]; done. Qed.

Lemma chars_put_prev p v m q : chars (put_prev p v m) q = chars m q.
Proof. views. destruct (obj_at m p) as [[]|]; done. Qed.

Lemma str_put_next p v m q : str (put_next p v m) q = str m q.
Proof.
  unfold str. rewrite val_put_next. destruct (val m q); [|done].
  by rewrite chars_put_next.
Qed.

Lemma str_put_prev p v m q : str (put_prev p v m) q = str m q.
Proof.
  unfold str. rewrite val_put_prev. destruct (val m q); [|done].
  by rewrite chars_put_prev.
Qed.

Lemma nx_release p m q :
  nx (release p m) q = if decide (q = p) then None else nx m q.
Proof. by views. Qed.

Lemma pv_release p m q :
  pv (release p m) q = if decide (q = p) then None else pv m q.
Proof. by views. Qed.

Lemma val_release p m q :
  val (release p m) q = if decide (q = p) then None else val m q.
Proof. by views. Qed.

Lemma chars_release p m q :
  chars (release p m) q = if decide (q = p) then None else chars m q.
Proof. by views. Qed.

(** *** The primitives, run *)

Lemma deref_run m p o : obj_at m p = Some o -> deref p m = Done o m.
Proof.
  unfold obj_at, deref. destruct (p =? NULL); [done|]. by intros ->.
Qed.

Lemma get_next_run m p v : nx m p = Some v -> get_next p m = Done v m.
Proof.
  unfold nx, get_next, bind. destruct (obj_at m p) as [o|] eqn:Ho; [|done].
  rewrite (deref_run _ _ _ Ho). destruct (links o); simpl; unfold ret; congruence.
Qed.

Lemma get_prev_run m p v : pv m p = Some v -> get_prev p m = Done v m.
Proof.
  unfold pv, get_prev, bind. destruct (obj_at m p) as [o|] eqn:Ho; [|done].
  rewrite (deref_run _ _ _ Ho). destruct (links o); simpl; unfold ret; congruence.
Qed.

Lemma get_value_run m p v : val m p = Some v -> get_value p m = Done v m.
Proof.
  unfold val, get_value, bind. destruct (obj_at m p) as [o|] eqn:Ho; [|done].
  rewrite (deref_run _ _ _ Ho). destruct o; simpl; unfold ret; congruence.
Qed.

Lemma load_chars_run m p b : chars m p = Some b -> load_chars p m = Done b m.
Proof.
  unfold chars, load_chars, bind. destruct (obj_at m p) as [o|] eqn:Ho; [|done].
  rewrite (deref_run _ _ _ Ho). destruct o; simpl; unfold ret; congruence.
Qed.

Lemma set_next_run m p v :
  is_Some (nx m p) -> set_next p v m = Done tt (put_next p v m).
Proof.
  unfold nx, set_next, put_next, modify, o_next, bind. intros [b Hb].
  destruct (obj_at m p) as [o|] eqn:Ho; [|done].
  rewrite (deref_run _ _ _ Ho). by destruct (links o).
Qed.

Lemma set_prev_run m p v :
  is_Some (pv m p) -> set_prev p v m = Done tt (put_prev p v m).
Proof.
  unfold pv, set_prev, put_prev, modify, o_prev, bind. intros [b Hb].
  destruct (obj_at m p) as [o|] eqn:Ho; [|done].
  rewrite (deref_run _ _ _ Ho). by destruct (links o).
Qed.

Lemma set_value_run m p v :
  is_Some (val m p) -> set_value p v m = Done tt (put_value p v m).
Proof.
  unfold val, set_value, put_value, modify, o_value, bind. intros [b Hb].
  destruct (obj_at m p) as [o|] eqn:Ho; [|done].
  rewrite (deref_run _ _ _ Ho). by destruct o.
Qed.

Lemma free_run m p :
  is_Some (obj_at m p) -> free p m = Done tt (release p m).
Proof.
  unfold obj_at, free. destruct (p =? NULL); intros [o Ho]; [done|].
  by rewrite Ho.
Qed.

Lemma node_nx_pv m p : is_Some (nx m p) <-> is_Some (pv m p).
Proof.
  unfold nx, pv. destruct (obj_at m p) as [o|]; [|done].
  destruct (links o); simpl; split; intros [? ?]; eauto; done.
Qed.

Lemma bind_run {A B} (c : M A) (k : A -> M B) m a m' :
  c m = Done a m' -> bind c k m = k a m'.
Proof. unfold bind. by intros ->. Qed.

(** *** Tactics for views and distinctness *)

Create Rewrite HintDb mem.
#[export] Hint Rewrite nx_put_next pv_put_next nx_put_prev pv_put_prev
  val_put_next val_put_prev chars_put_next chars_put_prev
  str_put_next str_put_prev : mem.

(** Solve [is_Some (view)] and [view = Some ?v] side conditions. *)
Ltac use_links :=
  repeat match goal with
  | H : nx _ _ = Some _ |- _ => rewrite H
  | H : pv _ _ = Some _ |- _ => rewrite H
  | H : val _ _ = Some _ |- _ => rewrite H
  | H : chars _ _ = Some _ |- _ => rewrite H
  end.

Lemma is_Some_option_map {A B} (g : A -> B) (o : option A) :
  is_Some (option_map g o) <-> is_Some o.
Proof. destruct o; simpl; split; intros [? ?]; eauto; done. Qed.

Ltac side :=
  repeat match goal with
  | H : is_Some _ |- _ => destruct H as [? H]
  end;
  autorewrite with mem;
  repeat match goal with
  | |- context [decide (?a = ?b)] => destruct (decide (a = b)) as [->|?]
  end;
  try (exfalso; congruence);
  rewrite ?is_Some_option_map;
  first
    [ by (use_links; simpl; eauto)
    | by (apply node_nx_pv; use_links; simpl; eauto)
    | by (apply <- node_nx_pv; use_links; simpl; eauto) ].

Lemma NoDup_snoc {A} (l : list A) x : NoDup (l ++ [x]) <-> (x ∉ l) /\ NoDup l.
Proof.
  rewrite NoDup_app. split.
  - intros (? & Hx & _). split; [|done]. intros Hin. apply (Hx _ Hin). by left.
  - intros [? ?]. split_and!; [done| |apply NoDup_singleton].
    intros y ? ->%list_elem_of_singleton. done.
Qed.

(** Break the facts on distinctness and membership into atoms. *)
Ltac nd :=
  repeat match goal with
  | H : NoDup (_ :: _) |- _ => apply NoDup_cons in H; destruct H
  | H : NoDup (_ ++ [_]) |- _ => apply NoDup_snoc in H; destruct H
  | H : _ ∉ _ :: _ |- _ => apply not_elem_of_cons in H; destruct H
  | H : _ ∉ _ ++ _ |- _ => apply not_elem_of_app in H; destruct H
  | H : _ ∈ _ :: _ |- _ => apply elem_of_cons in H; destruct H
  | H : _ ∈ _ ++ _ |- _ => apply elem_of_app in H; destruct H
  | H : _ ∈ [] |- _ => by apply elem_of_nil in H
  | H : NoDup [] |- _ => clear H
  | H : _ ∉ [] |- _ => clear H
  end; subst.

Ltac vws :=
  nd; autorewrite with mem; repeat case_decide; subst;
  try done; try congruence;
  repeat match goal with
  | H : is_Some _ |- _ => destruct H as [? H]
  end;
  use_links; simpl; try done.

(** Run the next primitive of a program. *)
Ltac run1 :=
  first
    [ erewrite (bind_run (get_next _)) by (apply get_next_run; side)
    | erewrite (bind_run (get_prev _)) by (apply get_prev_run; side)
    | erewrite (bind_run (get_value _)) by (apply get_value_run; side)
    | erewrite (bind_run (load_chars _)) by (apply load_chars_run; side)
    | erewrite (bind_run (set_next _ _)) by (apply set_next_run; side)
    | erewrite (bind_run (set_prev _ _)) by (apply set_prev_run; side)
    | erewrite (bind_run (set_value _ _)) by (apply set_value_run; side)
    | erewrite get_next_run by side
    | erewrite get_prev_run by side
    | erewrite set_next_run by side
    | erewrite set_prev_run by side ].
Ltac run := repeat run1.

Lemma list_del_run m x a b :
  nx m x = Some b -> pv m x = Some a ->
  is_Some (nx m a) -> is_Some (nx m b) ->
  list_del x m = Done tt (put_next a b (put_prev b a m)).
Proof. intros Hb Ha Na Nb. unfold list_del. by run. Qed.

Lemma list_add_tail_run m y x a :
  pv m x = Some a -> is_Some (nx m a) -> is_Some (nx m y) ->
  list_add_tail y x m =
  Done tt (put_prev x y (put_prev y a (put_next y x (put_next a y m)))).
Proof. intros Ha Na Ny. unfold list_add_tail. by run. Qed.

Lemma list_add_run m y x b :
  nx m x = Some b -> is_Some (nx m b) -> is_Some (nx m y) ->
  list_add y x m =
  Done tt (put_next x y (put_prev y x (put_next y b (put_prev b y m)))).
Proof. intros Hb Nb Ny. unfold list_add. by run. Qed.

(** *** Rings *)

Lemma ring_rot1 m a l b : ring m a (l ++ [b]) <-> ring m b (a :: l).
Proof.
  unfold ring. simpl. rewrite fpath_snoc, bpath_snoc.
  assert (NoDup (a :: l ++ [b]) <-> NoDup (b :: a :: l)) as ->.
  { split; apply NoDup_Permutation_proper; 
    [|symmetry]; rewrite (Permutation_app_comm l [b]); simpl; apply Permutation_swap. }
  tauto.
Qed.

Lemma ring_rot m h l1 x l2 :
  ring m h (l1 ++ x :: l2) <-> ring m x (l2 ++ h :: l1).
Proof.
  revert h l1. induction l2 as [|y l2 IH] using rev_ind; intros h l1.
  - apply ring_rot1.
  - replace (l1 ++ x :: l2 ++ [y]) with ((l1 ++ x :: l2) ++ [y])
      by (by rewrite <- app_assoc).
    rewrite ring_rot1. rewrite (IH y (h :: l1)).
    by rewrite <- app_assoc.
Qed.

Lemma ring_nx m h l : ring m h l -> nx m h = Some (hd h l).
Proof. intros (_ & F & _). by apply fpath_first in F. Qed.

Lemma ring_pv m h l : ring m h l -> pv m h = Some (List.last l h).
Proof. intros (_ & _ & B). by apply bpath_last in B. Qed.

(** [list_del x] on the ring seen from [x]: the state it produces *)
Lemma del_ring m x b c :
  ring m x (b :: c) ->
  let a := List.last (b :: c) x in
  ring (put_next a b (put_prev b a m)) b c.
Proof.
  intros (ND & F & B) a. subst a. rewrite last_cons.
  simpl in F, B. destruct F as [Fx F], B as [Bb B].
  split; [by apply NoDup_cons in ND as [_ ?]|].
  destruct c as [|a c _] using rev_ind.
  - simpl in *. split; by vws.
  - rewrite last_snoc. apply fpath_snoc in F as [F Fa].
    apply bpath_snoc in B as [B Ba]. rewrite fpath_snoc, bpath_snoc.
    repeat split.
    + eapply fpath_ext; [|exact F]. intros q Hq.
      by vws.
    + by vws.
    + eapply bpath_ext; [|exact B]. intros q Hq.
      by vws.
    + by vws.
Qed.
(** [list_add_tail y x], the insertion of [y] right before [x], on the
    ring seen from [x] *)
Lemma add_tail_ring m x c y :
  ring m x c -> y ∉ x :: c -> is_Some (nx m y) ->
  let a := List.last c x in
  ring (put_prev x y (put_prev y a (put_next y x (put_next a y m)))) x (c ++ [y]).
Proof.
  intros (ND & F & B) Hy Ny a. subst a.
  assert (is_Some (pv m y)) as Py by by apply node_nx_pv.
  split; [|rewrite fpath_snoc, bpath_snoc].
  { change (NoDup ((x :: c) ++ [y])). by apply NoDup_snoc. }
  destruct c as [|a c _] using rev_ind.
  - simpl in *. split_and!; by vws.
  - rewrite last_snoc. apply fpath_snoc in F as [F Fa].
    apply bpath_snoc in B as [B Ba]. rewrite fpath_snoc, bpath_snoc.
    split_and!; try by vws.
    + eapply fpath_ext; [|exact F]. intros q Hq. by vws.
    + eapply bpath_ext; [|exact B]. intros q Hq. by vws.
Qed.

(** [list_add y x], the insertion of [y] right after [x], on the ring
    seen from [x] *)
Lemma add_ring m x c y :
  ring m x c -> y ∉ x :: c -> is_Some (nx m y) ->
  let b := hd x c in
  ring (put_next x y (put_prev y x (put_next y b (put_prev b y m)))) x (y :: c).
Proof.
  intros (ND & F & B) Hy Ny b. subst b.
  assert (is_Some (pv m y)) as Py by by apply node_nx_pv.
  split; [|simpl].
  { nd. rewrite !NoDup_cons, not_elem_of_cons. split_and!; try done;
    congruence. }
  destruct c as [|b c].
  - simpl in *. split_and!; by vws.
  - simpl in *. destruct F as [Fx F], B as [Bb B].
    split_and!; try by vws.
    + eapply fpath_ext; [|exact F]. intros q Hq. by vws.
    + eapply bpath_ext; [|exact B]. intros q Hq. by vws.
Qed.

(** *** Walking the ring *)

Lemma nx_nonnull m p v : nx m p = Some v -> p <> NULL.
Proof.
  unfold nx. destruct (obj_at m p) eqn:E; [|done].
  intros _. by apply obj_at_nonnull in E.
Qed.

Lemma fpath_node f a l b q : fpath f a l b -> q ∈ a :: l -> is_Some (f q).
Proof.
  revert a. induction l as [|x l IH]; intros a; simpl.
  - intros H ->%list_elem_of_singleton. eauto.
  - intros [H1 H2] [->|Hq]%elem_of_cons; [eauto|]. by apply (IH x).
Qed.

Lemma ring_node m h l q : ring m h l -> q ∈ h :: l -> is_Some (nx m q).
Proof. intros (_ & F & _). by eapply fpath_node. Qed.

Lemma ring_nonnull m h l q : ring m h l -> q ∈ h :: l -> q <> NULL.
Proof. intros R Hq. destruct (ring_node _ _ _ _ R Hq). by eapply nx_nonnull. Qed.

Lemma fpath_lookup f a l b i p q :
  fpath f a l b ->
  (a :: l ++ [b]) !! i = Some p -> (a :: l ++ [b]) !! S i = Some q ->
  f p = Some q.
Proof.
  revert a i. induction l as [|x l IH]; intros a i; simpl.
  - destruct i as [|[|i]]; simpl; intros; simplify_eq. done.
  - intros [H1 H2]. destruct i as [|i]; simpl.
    + intros; simplify_eq. done.
    + apply IH. done.
Qed.

(** Twice around the ring *)
Lemma ring_twice m h l i p q :
  ring m h l ->
  ((h :: l) ++ (h :: l) ++ [h]) !! i = Some p ->
  ((h :: l) ++ (h :: l) ++ [h]) !! S i = Some q ->
  nx m p = Some q.
Proof.
  intros (_ & F & _).
  replace ((h :: l) ++ (h :: l) ++ [h]) with (h :: (l ++ h :: l) ++ [h])
    by (simpl; by rewrite <- app_assoc).
  apply fpath_lookup. by apply fpath_app.
Qed.

Lemma list_empty_run m h v :
  nx m h = Some v -> list_empty h m = Done (v =? h) m.
Proof. intros H. unfold list_empty. by run. Qed.

Lemma trivial_queue_null m : trivial_queue NULL m = Done true m.
Proof. done. Qed.

Lemma trivial_queue_run m h l :
  ring m h l ->
  trivial_queue h m =
  Done (match l with _ :: _ :: _ => false | _ => true end) m.
Proof.
  intros R. pose proof (ring_nonnull _ _ _ h R ltac:(by left)) as Hh.
  pose proof (ring_nx _ _ _ R) as Hn.
  destruct R as (ND & F & B).
  unfold trivial_queue, list_is_singular.
  destruct (Z.eqb_spec h NULL); [done|].
  rewrite (bind_run _ _ _ _ _ (list_empty_run _ _ _ Hn)).
  destruct l as [|x l]; simpl in *.
  { by rewrite Z.eqb_refl. }
  destruct F as [_ F]. apply fpath_first in F.
  destruct (Z.eqb_spec x h) as [->|_]; [by nd|].
  rewrite (bind_run _ _ _ _ _ (list_empty_run _ _ _ Hn)).
  destruct (Z.eqb_spec x h) as [->|_]; [by nd|].
  run. unfold ret. f_equal.
  destruct l as [|y l]; simpl; [apply Z.eqb_refl|].
  apply Z.eqb_neq. intros ->. by nd.
Qed.

(** *** Unlinking and linking at a position *)

Lemma last_app_cons {A} (l1 : list A) x l2 d :
  List.last (l1 ++ x :: l2) d = List.last l2 x.
Proof.
  induction l1 as [|y l1 IH]; simpl app; [apply last_cons|].
  rewrite last_cons. destruct l1; simpl app in *; [apply last_cons|].
  rewrite last_cons in *. done.
Qed.

Lemma hd_app_cons {A} (l1 : list A) x l2 d :
  hd d (l1 ++ x :: l2) = hd x l1.
Proof. by destruct l1. Qed.

Lemma ring_del m h l1 x l2 :
  ring m h (l1 ++ x :: l2) ->
  let a := List.last l1 h in
  let b := hd h l2 in
  list_del x m = Done tt (put_next a b (put_prev b a m)) /\
  ring (put_next a b (put_prev b a m)) h (l1 ++ l2).
Proof.
  intros R a b. pose proof R as R'. apply ring_rot in R'.
  pose proof (ring_nx _ _ _ R') as Hn. rewrite hd_app_cons in Hn.
  pose proof (ring_pv _ _ _ R') as Hp. rewrite last_app_cons in Hp.
  split.
  - apply list_del_run; try done; eapply ring_node; try exact R.
    + subst a. destruct l1 as [|y l1 _] using rev_ind; [by left|].
      rewrite last_snoc. right. rewrite !elem_of_app, list_elem_of_singleton. tauto.
    + subst b. destruct l2; simpl; [by left|].
      right. rewrite elem_of_app, !elem_of_cons. tauto.
  - subst a b. destruct l2 as [|b l2]; simpl in *.
    + apply del_ring in R'. rewrite last_cons in R'. by rewrite app_nil_r.
    + apply del_ring in R'. rewrite last_cons, last_app_cons in R'.
      by apply ring_rot.
Qed.

Lemma ring_add_before m h l1 x l2 y :
  ring m h (l1 ++ x :: l2) -> y ∉ h :: l1 ++ x :: l2 -> is_Some (nx m y) ->
  let a := List.last l1 h in
  let m' := put_prev x y (put_prev y a (put_next y x (put_next a y m))) in
  list_add_tail y x m = Done tt m' /\ ring m' h (l1 ++ y :: x :: l2).
Proof.
  intros R Hy Ny a m'. pose proof R as R'. apply ring_rot in R'.
  pose proof (ring_pv _ _ _ R') as Hp. rewrite last_app_cons in Hp.
  split.
  - apply list_add_tail_run; try done. eapply ring_node; [exact R|].
    subst a. destruct l1 as [|z l1 _] using rev_ind; [by left|].
    rewrite last_snoc. right. rewrite !elem_of_app, list_elem_of_singleton. tauto.
  - apply (add_tail_ring _ _ _ y) in R'; [..|done].
    + rewrite last_app_cons in R'.
      replace (l1 ++ y :: x :: l2) with ((l1 ++ [y]) ++ x :: l2)
        by (by rewrite <- app_assoc).
      apply ring_rot. by rewrite <- app_assoc in R'.
    + revert Hy. rewrite !not_elem_of_cons, !not_elem_of_app, !not_elem_of_cons.
      tauto.
Qed.

Lemma ring_add_tail m h l y :
  ring m h l -> y ∉ h :: l -> is_Some (nx m y) ->
  let a := List.last l h in
  let m' := put_prev h y (put_prev y a (put_next y h (put_next a y m))) in
  list_add_tail y h m = Done tt m' /\ ring m' h (l ++ [y]).
Proof.
  intros R Hy Ny a m'. split; [|by apply add_tail_ring].
  apply list_add_tail_run; try done; [by apply ring_pv|].
  eapply ring_node; [exact R|]. subst a.
  destruct l as [|z l _] using rev_ind; [by left|].
  rewrite last_snoc. right. rewrite elem_of_app, list_elem_of_singleton. tauto.
Qed.

Lemma ring_add_head m h l y :
  ring m h l -> y ∉ h :: l -> is_Some (nx m y) ->
  let b := hd h l in
  let m' := put_next h y (put_prev y h (put_next y b (put_prev b y m))) in
  list_add y h m = Done tt m' /\ ring m' h (y :: l).
Proof.
  intros R Hy Ny b m'. split; [|by apply add_ring].
  apply list_add_run; try done; [by apply ring_nx|].
  eapply ring_node; [exact R|]. subst b.
  destruct l; simpl; [by left|]. right. by left.
Qed.

(** *** q_delete_mid *)

Lemma mid_loop_run m h l fuel :
  ring m h l -> (2 <= length l)%nat ->
  forall k slow fast,
  ((h :: l) ++ (h :: l) ++ [h]) !! S k = Some slow ->
  ((h :: l) ++ (h :: l) ++ [h]) !! (2 * k + 2)%nat = Some fast ->
  (2 * k <= length l)%nat -> (length l / 2 - k < fuel)%nat ->
  exists x, l !! (length l / 2)%nat = Some x /\
            mid_loop fuel h slow fast m = Done x m.
Proof.
  intros R Hn. pose proof R as (ND & _ & _).
  assert (exists l0, l !! 0%nat = Some l0) as [l0 Hl0]
    by (apply lookup_lt_is_Some_2; lia).
  assert (nx m h = Some l0) as Hhn
    by (rewrite (ring_nx _ _ _ R); destruct l; by simplify_eq/=).
  assert (forall j, (j <= (length l))%nat ->
            ((h :: l) ++ (h :: l) ++ [h]) !! j = (h :: l) !! j) as Elt.
  { intros j Hj. apply lookup_app_l. simpl. lia. }
  assert (forall j, ((length l) < j <= 2 * (length l) + 1)%nat ->
            ((h :: l) ++ (h :: l) ++ [h]) !! j =
            (h :: l) !! (j - S (length l))%nat) as Ege.
  { intros j Hj. rewrite lookup_app_r by (simpl; lia).
    rewrite lookup_app_l by (simpl; lia). done. }
  assert (forall j x, (2 <= j <= (length l) + 2)%nat ->
            ((h :: l) ++ (h :: l) ++ [h]) !! j = Some x ->
            (x = h -> j = S (length l)) /\ (x = l0 -> j = S (S (length l))) /\
            (x <> h -> x <> l0 -> j <= (length l))%nat) as Pos.
  { intros j x Hj Hx. destruct (decide (j <= (length l))%nat) as [Hle|Hgt].
    - rewrite Elt in Hx by done. split_and!; [intros ->|intros ->|done].
      + pose proof (NoDup_lookup _ _ 0%nat _ ND Hx eq_refl). lia.
      + pose proof (NoDup_lookup _ _ 1%nat _ ND Hx Hl0). lia.
    - rewrite Ege in Hx by lia. split_and!; [intros ->|intros ->|intros H1 H2].
      + pose proof (NoDup_lookup _ _ 0%nat _ ND Hx eq_refl). lia.
      + pose proof (NoDup_lookup _ _ 1%nat _ ND Hx Hl0). lia.
      + destruct (decide (j = S (length l))) as [->|Hne].
        * replace (S (length l) - S (length l))%nat with 0%nat in Hx by lia. by simplify_eq/=.
        * replace (j - S (length l))%nat with 1%nat in Hx by lia. simpl in Hx. congruence. }
  assert (forall k, ((length l) = 1 + k * 2 \/ (length l) = 0 + k * 2)%nat -> ((length l) / 2)%nat = k) as Half.
  { intros k [->| ->]; rewrite Nat.div_add by lia; done. }
  induction fuel as [|fuel IH]; intros k slow fast Hs Hf Hk Hfuel; [lia|].
  simpl mid_loop.
  destruct (Pos (2 * k + 2)%nat fast ltac:(lia) Hf) as (P1 & P2 & P3).
  destruct (Z.eqb_spec fast h) as [Hfh|Hfh].
  { rewrite Elt in Hs by lia. simpl in Hs.
    exists slow. split; [|done]. rewrite (Half k); [done|lia]. }
  run.
  destruct (Z.eqb_spec fast l0) as [Hfl|Hfl].
  { rewrite Elt in Hs by lia. simpl in Hs.
    exists slow. split; [|done]. rewrite (Half k); [done|lia]. }
  specialize (P3 Hfh Hfl).
  assert (Hlen : length ((h :: l) ++ (h :: l) ++ [h]) = (2 * (length l) + 3)%nat).
  { rewrite !length_app. simpl. lia. }
  destruct (lookup_lt_is_Some_2 ((h :: l) ++ (h :: l) ++ [h]) (S (S k)))
    as [slow' Hs']; [lia|].
  destruct (lookup_lt_is_Some_2 ((h :: l) ++ (h :: l) ++ [h]) (S (2 * k + 2)))
    as [fn Hfn]; [lia|].
  destruct (lookup_lt_is_Some_2 ((h :: l) ++ (h :: l) ++ [h]) (S (S (2 * k + 2))))
    as [fast' Hf']; [lia|].
  pose proof (ring_twice _ _ _ _ _ _ R Hs Hs') as N1.
  pose proof (ring_twice _ _ _ _ _ _ R Hf Hfn) as N2.
  pose proof (ring_twice _ _ _ _ _ _ R Hfn Hf') as N3.
  run. apply (IH (S k)); try done; try lia.
  - by replace (2 * S k + 2)%nat with (S (S (2 * k + 2))) by lia.
  - assert (k + 1 <= (length l) / 2)%nat; [|lia].
    apply Nat.div_le_lower_bound; lia.
Qed.

#[export] Hint Rewrite nx_release pv_release val_release chars_release : mem.

Lemma brk_modify g p m : brk (modify g p m) = brk m.
Proof. unfold modify. by destruct (obj_at m p). Qed.

Lemma faults_modify g p m : faults (modify g p m) = faults m.
Proof. unfold modify. by destruct (obj_at m p). Qed.

Lemma brk_put_next p v m : brk (put_next p v m) = brk m.
Proof. apply brk_modify. Qed.

Lemma brk_put_prev p v m : brk (put_prev p v m) = brk m.
Proof. apply brk_modify. Qed.

Lemma faults_put_next p v m : faults (put_next p v m) = faults m.
Proof. apply faults_modify. Qed.

Lemma faults_put_prev p v m : faults (put_prev p v m) = faults m.
Proof. apply faults_modify. Qed.

Lemma brk_release p m : brk (release p m) = brk m.
Proof. done. Qed.

Lemma faults_release p m : faults (release p m) = faults m.
Proof. done. Qed.

#[export] Hint Rewrite brk_put_next brk_put_prev faults_put_next
  faults_put_prev brk_release faults_release : mem.

Lemma chars_not_node m v b :
  chars m v = Some b -> nx m v = None /\ pv m v = None /\ val m v = None.
Proof. unfold chars, nx, pv, val. by destruct (obj_at m v) as [[]|]. Qed.

Lemma val_node m e v : val m e = Some v -> is_Some (nx m e).
Proof. unfold val, nx. destruct (obj_at m e) as [[]|]; simpl; by eauto. Qed.

Lemma chars_alloc m v b : chars m v = Some b -> is_Some (obj_at m v).
Proof. unfold chars. destruct (obj_at m v); by eauto. Qed.

Lemma nx_alloc m p : is_Some (nx m p) -> is_Some (obj_at m p).
Proof. unfold nx. destruct (obj_at m p); [by eauto|by intros [? ?]]. Qed.

Lemma str_inv m e s :
  str m e = Some s ->
  exists v b, val m e = Some v /\ chars m v = Some b /\ cstr b = Some s.
Proof.
  unfold str. destruct (val m e) as [v|]; [|done].
  destruct (chars m v) as [b|] eqn:Hb; [|done]. intros. by exists v, b.
Qed.

Lemma str_ext m m' e :
  val m' e = val m e ->
  (forall v, val m e = Some v -> chars m' v = chars m v) ->
  str m' e = str m e.
Proof.
  intros Hv Hc. unfold str. rewrite Hv. destruct (val m e) as [v|]; [|done].
  by rewrite Hc.
Qed.

Lemma ring_ext m m' h l :
  ring m h l ->
  (forall q, q ∈ h :: l -> nx m' q = nx m q /\ pv m' q = pv m q) ->
  ring m' h l.
Proof.
  intros (ND & F & B) Hq. split_and!; [done| |].
  - eapply fpath_ext; [|exact F]. intros q ?. by apply Hq.
  - eapply bpath_ext; [|exact B]. intros q Hin. apply Hq.
    revert Hin. rewrite elem_of_app, list_elem_of_singleton, elem_of_cons. tauto.
Qed.

Lemma obj_at_dom m p : is_Some (obj_at m p) -> p ∈ dom (heap m).
Proof.
  unfold obj_at. destruct (p =? NULL); intros [? ?]; [done|].
  by eapply elem_of_dom_2.
Qed.

Lemma dom_put_next p v m : dom (heap (put_next p v m)) = dom (heap m).
Proof. apply dom_modify. Qed.

Lemma dom_put_prev p v m : dom (heap (put_prev p v m)) = dom (heap m).
Proof. apply dom_modify. Qed.

Lemma dom_release p m : dom (heap (release p m)) = dom (heap m) ∖ {[p]}.
Proof. unfold release; simpl. apply dom_delete_L. Qed.

Lemma NoDup_mid {A} (l1 : list A) x l2 :
  NoDup (l1 ++ x :: l2) <-> (x ∉ l1 ++ l2) /\ NoDup (l1 ++ l2).
Proof.
  rewrite <- NoDup_cons. split; apply NoDup_Permutation_proper;
    [|symmetry]; apply Permutation_middle.
Qed.

Lemma q_release_element_run m e v :
  val m e = Some v -> is_Some (chars m v) ->
  q_release_element e m = Done tt (release e (release v m)).
Proof.
  intros Hv [b Hb]. unfold q_release_element. run.
  erewrite (bind_run (free v)) by (apply free_run; by eapply chars_alloc).
  apply free_run. rewrite obj_at_release.
  destruct (chars_not_node _ _ _ Hb) as (_ & _ & Hn).
  rewrite decide_False by congruence.
  apply nx_alloc. by eapply val_node.
Qed.

Lemma q_delete_mid_run fuel m h l :
  queue m h l -> (2 <= length l)%nat -> (length l < fuel)%nat ->
  exists l1 x l2 v m',
    l = l1 ++ x :: l2 /\ length l1 = (length l / 2)%nat /\
    val m x = Some v /\
    q_delete_mid fuel h m = Done true m' /\
    ring m' h (l1 ++ l2) /\
    brk m' = brk m /\ faults m' = faults m /\
    dom (heap m') = dom (heap m) ∖ {[x]} ∖ {[v]} /\
    obj_at m' x = None /\ obj_at m' v = None /\
    (forall q, q <> x -> q <> v ->
       val m' q = val m q /\ chars m' q = chars m q).
Proof.
  intros (R & S & NV) Hn Hfuel.
  pose proof R as (ND & F & _).
  unfold q_delete_mid. rewrite (bind_run _ _ _ _ _ (trivial_queue_run _ _ _ R)).
  destruct l as [|l0 [|l1' l']] eqn:El; [simpl in Hn; lia|simpl in Hn; lia|].
  rewrite <- El in *.
  assert (nx m h = Some l0) as N0 by (rewrite (ring_nx _ _ _ R); by subst l).
  assert (nx m l0 = Some l1') as N1.
  { subst l. simpl in F. destruct F as (_ & ? & _). done. }
  run.
  destruct (mid_loop_run m h l fuel R Hn 0%nat l0 l1') as (x & Hx & Hloop);
    [by subst l|by subst l|lia| |].
  { pose proof (Nat.Div0.div_le_upper_bound (length l) 2 (length l)). lia. }
  rewrite (bind_run _ _ _ _ _ Hloop).
  apply list_elem_of_split_length in Hx as (l1 & l2 & El' & Hlen).
  rewrite El' in R. apply ring_del in R as [Hdel R']. simpl in Hdel, R'.
  rewrite (bind_run _ _ _ _ _ Hdel).
  set (m1 := put_next _ _ _) in *.
  assert (is_Some (str m x)) as [s Hs].
  { rewrite Forall_forall in S. apply S. rewrite El'.
    rewrite elem_of_app, elem_of_cons. tauto. }
  apply str_inv in Hs as (v & b & Hv & Hb & _).
  assert (q_release_element x m1 = Done tt (release x (release v m1))) as Hrel.
  { apply q_release_element_run; subst m1; autorewrite with mem; by eauto. }
  rewrite (bind_run _ _ _ _ _ Hrel).
  destruct (chars_not_node _ _ _ Hb) as (Nv & Pv & Vv).
  assert (x <> v) as Hxv.
  { intros ->. rewrite Vv in Hv. done. }
  exists l1, x, l2, v, (release x (release v m1)).
  split_and!; try done.
  2, 3: by (subst m1; autorewrite with mem).
  - eapply ring_ext; [exact R'|]. intros q Hq.
    assert (q <> x).
    { intros ->. rewrite El' in ND.
      change (NoDup ((h :: l1) ++ x :: l2)) in ND.
      apply NoDup_mid in ND as [ND _]. done. }
    assert (q <> v).
    { intros ->. destruct (ring_node _ _ _ _ R' Hq) as [? E].
      subst m1. autorewrite with mem in E.
      repeat case_decide; subst; rewrite ?Nv in E; done. }
    autorewrite with mem. by rewrite !decide_False by done.
  - rewrite !dom_release. subst m1. rewrite dom_put_next, dom_put_prev.
    set_solver.
  - rewrite obj_at_release. by rewrite decide_True.
  - rewrite !obj_at_release. rewrite decide_False by done. by rewrite decide_True.
  - intros q ? ?. subst m1. autorewrite with mem.
    by rewrite !decide_False by done.
Qed.

(** *** Rewritten links *)

Lemma same_data_refl m : same_data m m.
Proof. by split. Qed.

Lemma same_data_trans m1 m2 m3 :
  same_data m1 m2 -> same_data m2 m3 -> same_data m1 m3.
Proof.
  intros [] []. split; intros; try congruence.
Qed.

Lemma same_data_put_next p v m : same_data m (put_next p v m).
Proof.
  split; intros; autorewrite with mem; try done. apply dom_put_next.
Qed.

Lemma same_data_put_prev p v m : same_data m (put_prev p v m).
Proof.
  split; intros; autorewrite with mem; try done. apply dom_put_prev.
Qed.

Lemma same_data_str m m' e : same_data m m' -> str m' e = str m e.
Proof. intros []. apply str_ext; intros; done. Qed.

Lemma relinked_refl S m : relinked S m m.
Proof. split; [apply same_data_refl|done]. Qed.

Lemma relinked_trans S m1 m2 m3 :
  relinked S m1 m2 -> relinked S m2 m3 -> relinked S m1 m3.
Proof.
  intros [D1 F1] [D2 F2]. split; [by eapply same_data_trans|].
  intros q Hq. destruct (F1 q Hq), (F2 q Hq). split; congruence.
Qed.

Lemma relinked_mono S S' m m' :
  (forall q, q ∈ S -> q ∈ S') -> relinked S m m' -> relinked S' m m'.
Proof. intros HS [D F]. split; [done|]. intros q Hq. apply F. auto. Qed.

Lemma relinked_put_next S p v m : p ∈ S -> relinked S m (put_next p v m).
Proof.
  intros Hp. split; [apply same_data_put_next|]. intros q Hq.
  autorewrite with mem. rewrite decide_False; [done|]. by intros ->.
Qed.

Lemma relinked_put_prev S p v m : p ∈ S -> relinked S m (put_prev p v m).
Proof.
  intros Hp. split; [apply same_data_put_prev|]. intros q Hq.
  autorewrite with mem. rewrite decide_False; [done|]. by intros ->.
Qed.

Lemma last_elem {A} (l : list A) d : List.last l d ∈ d :: l.
Proof.
  destruct l as [|x l _] using rev_ind; [by left|].
  rewrite last_snoc. right. rewrite elem_of_app, list_elem_of_singleton. tauto.
Qed.

Lemma hd_elem {A} (l : list A) d : hd d l ∈ d :: l.
Proof. destruct l; simpl; [by left|]. right. by left. Qed.

Lemma ring_nx_at m h l1 x l2 :
  ring m h (l1 ++ x :: l2) -> nx m x = Some (hd h l2).
Proof.
  intros R%ring_rot. rewrite (ring_nx _ _ _ R). by rewrite hd_app_cons.
Qed.

Lemma ring_pv_at m h l1 x l2 :
  ring m h (l1 ++ x :: l2) -> pv m x = Some (List.last l1 h).
Proof.
  intros R%ring_rot. rewrite (ring_pv _ _ _ R). by rewrite last_app_cons.
Qed.

(** *** q_swap *)

Lemma list_move_tail_run m h l1 x y l2 :
  ring m h (l1 ++ x :: y :: l2) ->
  exists m', list_move_tail y x m = Done tt m' /\
             ring m' h (l1 ++ y :: x :: l2) /\
             relinked (h :: l1 ++ x :: y :: l2) m m'.
Proof.
  intros R. pose proof R as (ND & _ & _).
  assert (is_Some (nx m y)) as [ny Ny].
  { apply (ring_node _ _ _ y R).
    rewrite !elem_of_cons, !elem_of_app, !elem_of_cons. tauto. }
  replace (l1 ++ x :: y :: l2) with ((l1 ++ [x]) ++ y :: l2) in R
    by (by rewrite <- app_assoc).
  apply ring_del in R as [Hdel R]. rewrite last_snoc in Hdel, R.
  rewrite <- app_assoc in R. simpl in R.
  set (m1 := put_next _ _ _) in *.
  assert (y ∉ h :: l1 ++ x :: l2) as Hy.
  { replace (h :: l1 ++ x :: y :: l2) with ((h :: l1 ++ [x]) ++ y :: l2) in ND
      by (simpl; by rewrite <- app_assoc).
    apply NoDup_mid in ND as [ND _]. simpl in ND.
    by rewrite <- app_assoc in ND. }
  destruct (ring_add_before m1 h l1 x l2 y R Hy) as [Hadd R'].
  { subst m1. autorewrite with mem.
    case_decide; subst; rewrite Ny; simpl; eauto. }
  eexists. split_and!; [|exact R'|].
  - unfold list_move_tail. rewrite (bind_run _ _ _ _ _ Hdel). exact Hadd.
  - assert (forall q, q ∈ h :: l1 ++ x :: l2 -> q ∈ h :: l1 ++ x :: y :: l2) as Hsub.
    { intros q. rewrite !elem_of_cons, !elem_of_app, !elem_of_cons. tauto. }
    assert (List.last l1 h ∈ h :: l1 ++ x :: y :: l2) as Ha.
    { pose proof (last_elem l1 h) as H. revert H.
      rewrite !elem_of_cons, !elem_of_app. tauto. }
    assert (hd h l2 ∈ h :: l1 ++ x :: y :: l2) as Hb.
    { pose proof (hd_elem l2 h) as H. revert H.
      rewrite !elem_of_cons, !elem_of_app, !elem_of_cons. tauto. }
    assert (x ∈ h :: l1 ++ x :: y :: l2) as Hx
      by (rewrite !elem_of_cons, !elem_of_app, !elem_of_cons; tauto).
    assert (y ∈ h :: l1 ++ x :: y :: l2) as Hy'
      by (rewrite !elem_of_cons, !elem_of_app, !elem_of_cons; tauto).
    subst m1.
    repeat (eapply relinked_trans;
            [|first [by apply relinked_put_next | by apply relinked_put_prev]]).
    apply relinked_refl.
Qed.

Lemma swap_loop_run h fuel :
  forall rest pre m,
  ring m h (pre ++ rest) -> (length rest < fuel)%nat ->
  exists m', swap_loop fuel h (hd h rest) m = Done tt m' /\
             ring m' h (pre ++ swap_pairs rest) /\
             relinked (h :: pre ++ rest) m m'.
Proof.
  induction fuel as [|fuel IH]; intros rest pre m R Hfuel; [lia|].
  pose proof R as (ND & _ & _).
  simpl swap_loop. destruct rest as [|x [|y r]]; cbn [hd].
  - rewrite Z.eqb_refl. exists m. split_and!; [done|done|apply relinked_refl].
  - destruct (Z.eqb_spec x h) as [->|_]; [by nd|].
    rewrite (bind_run _ _ _ _ _ (get_next_run _ _ _ (ring_nx_at _ _ _ _ _ R))).
    cbn [hd]. rewrite Z.eqb_refl.
    exists m. split_and!; [done|done|apply relinked_refl].
  - destruct (Z.eqb_spec x h) as [->|_].
    { apply NoDup_cons in ND as [ND _]. exfalso. apply ND.
      rewrite elem_of_app, elem_of_cons. tauto. }
    pose proof (ring_nx_at _ _ _ _ _ R) as Nx. cbn [hd] in Nx.
    run. destruct (Z.eqb_spec y h) as [->|_].
    { apply NoDup_cons in ND as [ND _]. exfalso. apply ND.
      rewrite elem_of_app, !elem_of_cons. tauto. }
    run. destruct (list_move_tail_run _ _ _ _ _ _ R) as (m1 & Hmv & R1 & F1).
    rewrite (bind_run _ _ _ _ _ Hmv).
    replace (pre ++ y :: x :: r) with ((pre ++ [y]) ++ x :: r) in R1
      by (by rewrite <- app_assoc).
    rewrite (bind_run _ _ _ _ _ (get_next_run _ _ _ (ring_nx_at _ _ _ _ _ R1))).
    replace ((pre ++ [y]) ++ x :: r) with ((pre ++ [y; x]) ++ r) in R1
      by (by rewrite <- !app_assoc).
    destruct (IH r (pre ++ [y; x]) m1 R1) as (m' & Hrun & R' & F');
      [simpl in Hfuel; lia|].
    exists m'. split_and!; [done| |].
    + simpl. by rewrite <- app_assoc in R'.
    + eapply relinked_trans; [exact F1|].
      eapply relinked_mono; [|exact F']. intros q.
      rewrite !elem_of_cons, !elem_of_app, !elem_of_cons, elem_of_nil. tauto.
Qed.

Lemma swap_pairs_short {A} (l : list A) :
  (length l < 2)%nat -> swap_pairs l = l.
Proof. destruct l as [|a [|b l]]; simpl; [done|done|lia]. Qed.

Lemma q_swap_run fuel m h l :
  ring m h l -> (length l < fuel)%nat ->
  exists m', q_swap fuel h m = Done tt m' /\
             ring m' h (swap_pairs l) /\
             relinked (h :: l) m m' /\
             ((length l < 2)%nat -> m' = m).
Proof.
  intros R Hfuel. unfold q_swap.
  rewrite (bind_run _ _ _ _ _ (trivial_queue_run _ _ _ R)).
  destruct l as [|x [|y l']] eqn:El.
  1, 2: exists m; split_and!; [done|done|apply relinked_refl|done].
  rewrite <- El in *.
  rewrite (bind_run _ _ _ _ _ (get_next_run _ _ _ (ring_nx _ _ _ R))).
  destruct (swap_loop_run h fuel l [] m R Hfuel) as (m' & Hrun & R' & F').
  exists m'. split_and!; [done|done|done|]. subst l. simpl. lia.
Qed.

(** *** q_reverse *)

Lemma same_data_node m m' q :
  same_data m m' -> is_Some (obj_at m' q) <-> is_Some (obj_at m q).
Proof.
  intros [_ _ D _ _]. unfold obj_at. destruct (q =? NULL); [done|].
  rewrite <- !elem_of_dom. by rewrite D.
Qed.

Lemma elem_of_rev {A} (l : list A) x : x ∈ rev l <-> x ∈ l.
Proof. rewrite !list_elem_of_In. symmetry. apply in_rev. Qed.

Lemma NoDup_rev_2 {A} (l : list A) : NoDup l -> NoDup (rev l).
Proof. intros. by apply NoDup_ListNoDup, NoDup_rev, NoDup_ListNoDup. Qed.

Lemma mirrored_ring m m' h l :
  ring m h l -> mirrored (h :: l) m m' -> ring m' h (rev l).
Proof.
  intros (ND & F & B) (_ & Hin & _). split_and!.
  - apply NoDup_cons in ND as [Hh ND]. apply NoDup_cons. split.
    + by rewrite elem_of_rev.
    + by apply NoDup_rev_2.
  - apply bpath_rev in B. eapply fpath_ext; [|exact B].
    intros q Hq. apply Hin. revert Hq. rewrite !elem_of_cons, elem_of_rev.
    tauto.
  - apply fpath_rev in F. eapply bpath_ext; [|exact F].
    intros q Hq. apply Hin. revert Hq.
    rewrite elem_of_app, list_elem_of_singleton, elem_of_cons, elem_of_rev.
    tauto.
Qed.

Lemma cycle_nx_at m h l c1 x c2 :
  ring m h l -> h :: l = c1 ++ x :: c2 -> nx m x = Some (hd h c2).
Proof.
  intros R E. destruct c1 as [|h' l1]; simplify_eq/=.
  - by apply ring_nx.
  - by eapply ring_nx_at.
Qed.

Lemma reverse_loop_run m h l :
  ring m h l ->
  forall fuel c1 node c2 mk,
  h :: l = c1 ++ node :: c2 -> mirrored c1 m mk -> (length c2 < fuel)%nat ->
  exists m', reverse_loop fuel h node mk = Done tt m' /\
             mirrored (h :: l) m m'.
Proof.
  intros R. pose proof R as (ND & _ & _).
  induction fuel as [|fuel IH]; intros c1 node c2 mk E (D & Hin & Hout) Hfuel; [lia|].
  assert (node ∉ c1) as Hnode.
  { rewrite E in ND. by apply NoDup_mid in ND as [[ND _]%not_elem_of_app _]. }
  pose proof (cycle_nx_at _ _ _ _ _ _ R E) as Nn.
  assert (is_Some (pv m node)) as [p Pn].
  { apply node_nx_pv. eauto. }
  destruct (Hout _ Hnode) as [Nk Pk]. rewrite Nn in Nk. rewrite Pn in Pk.
  simpl reverse_loop. run.
  set (m1 := put_prev _ _ _).
  assert (mirrored (c1 ++ [node]) m m1) as M1.
  { subst m1. split_and!.
    - eapply same_data_trans; [exact D|].
      eapply same_data_trans; [apply same_data_put_next|apply same_data_put_prev].
    - intros q [Hq| ->%list_elem_of_singleton]%elem_of_app.
      + autorewrite with mem. rewrite !decide_False by (by intros ->).
        by apply Hin.
      + autorewrite with mem. rewrite !decide_True by done.
        rewrite Nk, Pk; simpl. by rewrite Nn, Pn.
    - intros q [Hq Hq']%not_elem_of_app.
      apply not_elem_of_cons in Hq' as [Hq' _].
      autorewrite with mem. rewrite !decide_False by done. by apply Hout. }
  destruct c2 as [|b c2]; cbn [hd] in *.
  - rewrite Z.eqb_refl. exists m1. split; [done|]. by rewrite E.
  - destruct (Z.eqb_spec b h) as [->|_].
    { exfalso. clear IH M1. destruct c1 as [|h' c1]; simplify_eq/=; nd;
        congruence. }
    apply (IH (c1 ++ [node]) b c2 m1); [|done|simpl in Hfuel; lia].
    by rewrite <- app_assoc.
Qed.

Lemma mirrored_short m h l :
  ring m h l -> (length l < 2)%nat -> mirrored (h :: l) m m.
Proof.
  intros (ND & F & B) Hl. split_and!; [apply same_data_refl| |done].
  destruct l as [|x [|y l]]; simpl in *; [| |lia].
  - intros q ->%list_elem_of_singleton. by rewrite F, B.
  - destruct F as [F1 F2], B as [B1 B2].
    intros q [->|[->|Hq]%elem_of_cons]%elem_of_cons; [| |by nd];
      split; congruence.
Qed.

Lemma q_reverse_run fuel m h l :
  ring m h l -> (length l < fuel)%nat ->
  exists m', q_reverse fuel h m = Done tt m' /\
             mirrored (h :: l) m m' /\
             ((length l < 2)%nat -> m' = m).
Proof.
  intros R Hfuel. unfold q_reverse.
  rewrite (bind_run _ _ _ _ _ (trivial_queue_run _ _ _ R)).
  destruct l as [|x [|y l']] eqn:El.
  1, 2: exists m; split_and!; [done|apply mirrored_short; [done|simpl; lia]|done].
  rewrite <- El in *.
  destruct (reverse_loop_run m h l R fuel [] h l m) as (m' & Hrun & M');
    [done| |done|].
  { split_and!; [apply same_data_refl| |done]. by intros q ?%elem_of_nil. }
  exists m'. split_and!; [done|done|]. subst l. simpl. lia.
Qed.

(** *** Strings *)

Lemma is_nul_true c : is_nul c = true <-> c = x00.
Proof.
  unfold is_nul. split; [apply Byte.byte_dec_bl|apply Byte.byte_dec_lb].
Qed.

Lemma cstr_inv b s :
  cstr b = Some s -> nonul s /\ exists r, b = s ++ x00 :: r.
Proof.
  revert s. induction b as [|c b IH]; intros s; simpl; [done|].
  destruct (is_nul c) eqn:Ec.
  - intros [= <-]. apply is_nul_true in Ec as ->. split; [constructor|by exists b].
  - destruct (cstr b) as [s'|]; [|done]. intros [= <-].
    destruct (IH s' eq_refl) as [Hs [r ->]].
    split; [by constructor|by exists r].
Qed.

Lemma cstr_app s r : nonul s -> cstr (s ++ x00 :: r) = Some s.
Proof.
  induction 1 as [|c s Hc Hs IH]; simpl; [done|]. by rewrite Hc, IH.
Qed.

Lemma strncpy_bytes_app s r n :
  nonul s ->
  strncpy_bytes (s ++ x00 :: r) n =
  Some (take n s ++ replicate (n - length s) x00).
Proof.
  intros Hs. revert n. induction Hs as [|c s Hc Hs IH]; intros [|n]; simpl;
    try done.
  by rewrite Hc, IH.
Qed.

Lemma strcmp_bytes_refl s : strcmp_bytes s s = 0.
Proof. induction s as [|c s IH]; simpl; [done|]. by rewrite Z.eqb_refl. Qed.

(** *** Allocation *)

Lemma malloc_run o m :
  malloc o m = if fails (faults m) then Done NULL (refuse m)
               else Done (brk m) (alloc o m).
Proof.
  unfold malloc, fails, refuse, alloc. by destruct (faults m) as [|[] ?].
Qed.

Lemma obj_at_alloc o m q :
  0 < brk m ->
  obj_at (alloc o m) q = if decide (q = brk m) then Some o else obj_at m q.
Proof.
  intros Hb. unfold obj_at, alloc; simpl. case_decide as E.
  - subst. destruct (Z.eqb_spec (brk m) NULL) as [E|_]; [unfold NULL in E; lia|].
    by rewrite lookup_insert_eq.
  - destruct (q =? NULL); [done|]. by rewrite lookup_insert_ne.
Qed.

Lemma obj_at_fresh m : heap_ok m -> obj_at m (brk m) = None.
Proof.
  intros [_ H]. unfold obj_at. destruct (brk m =? NULL); [done|].
  apply not_elem_of_dom. intros Hin%H. lia.
Qed.

Lemma heap_ok_alloc o m : heap_ok m -> heap_ok (alloc o m).
Proof.
  intros [H0 H]. split; simpl; [lia|]. intros k.
  rewrite dom_insert_L, elem_of_union, elem_of_singleton.
  intros [->|Hk%H]; lia.
Qed.

Lemma heap_ok_same m m' : same_data m m' -> heap_ok m -> heap_ok m'.
Proof. intros [Hb _ Hd _ _] [H0 H]. unfold heap_ok. by rewrite Hb, Hd. Qed.

Lemma obj_at_refuse m q : obj_at (refuse m) q = obj_at m q.
Proof. done. Qed.

Lemma nx_alloc_view o m q :
  0 < brk m ->
  nx (alloc o m) q =
  if decide (q = brk m) then option_map next (links o) else nx m q.
Proof. intros. unfold nx. rewrite obj_at_alloc by done. by case_decide. Qed.

Lemma pv_alloc_view o m q :
  0 < brk m ->
  pv (alloc o m) q =
  if decide (q = brk m) then option_map prev (links o) else pv m q.
Proof. intros. unfold pv. rewrite obj_at_alloc by done. by case_decide. Qed.

Lemma val_alloc_view o m q :
  0 < brk m ->
  val (alloc o m) q =
  if decide (q = brk m) then match o with OElem v _ => Some v | _ => None end
  else val m q.
Proof. intros. unfold val. rewrite obj_at_alloc by done. by case_decide. Qed.

Lemma chars_alloc_view o m q :
  0 < brk m ->
  chars (alloc o m) q =
  if decide (q = brk m) then match o with OChars b => Some b | _ => None end
  else chars m q.
Proof. intros. unfold chars. rewrite obj_at_alloc by done. by case_decide. Qed.

Lemma nx_put_value p v m q : nx (put_value p v m) q = nx m q.
Proof. views. destruct (obj_at m p) as [[]|]; done. Qed.

Lemma pv_put_value p v m q : pv (put_value p v m) q = pv m q.
Proof. views. destruct (obj_at m p) as [[]|]; done. Qed.

Lemma val_put_value p v m q :
  val (put_value p v m) q =
  if decide (q = p) then option_map (fun _ => v) (val m p) else val m q.
Proof. views. destruct (obj_at m p) as [[]|]; done. Qed.

Lemma chars_put_value p v m q : chars (put_value p v m) q = chars m q.
Proof. views. destruct (obj_at m p) as [[]|]; done. Qed.

Lemma nx_put_chars p b m q : nx (put_chars p b m) q = nx m q.
Proof. unfold put_chars. views. destruct (obj_at m p) as [[]|]; done. Qed.

Lemma pv_put_chars p b m q : pv (put_chars p b m) q = pv m q.
Proof. unfold put_chars. views. destruct (obj_at m p) as [[]|]; done. Qed.

Lemma val_put_chars p b m q : val (put_chars p b m) q = val m q.
Proof. unfold put_chars. views. destruct (obj_at m p) as [[]|]; done. Qed.

Lemma chars_put_chars p b m q :
  chars (put_chars p b m) q =
  if decide (q = p) then option_map (fun _ => b) (chars m p) else chars m q.
Proof. unfold put_chars. views. destruct (obj_at m p) as [[]|]; done. Qed.

Lemma brk_put_value p v m : brk (put_value p v m) = brk m.
Proof. apply brk_modify. Qed.

Lemma brk_put_chars p b m : brk (put_chars p b m) = brk m.
Proof. apply brk_modify. Qed.

Lemma faults_put_value p v m : faults (put_value p v m) = faults m.
Proof. apply faults_modify. Qed.

Lemma faults_put_chars p b m : faults (put_chars p b m) = faults m.
Proof. apply faults_modify. Qed.

Lemma dom_put_value p v m : dom (heap (put_value p v m)) = dom (heap m).
Proof. apply dom_modify. Qed.

Lemma dom_put_chars p b m : dom (heap (put_chars p b m)) = dom (heap m).
Proof. apply dom_modify. Qed.

#[export] Hint Rewrite nx_put_value pv_put_value val_put_value chars_put_value
  nx_put_chars pv_put_chars val_put_chars chars_put_chars
  brk_put_value brk_put_chars faults_put_value faults_put_chars
  dom_put_next dom_put_prev dom_put_value dom_put_chars dom_release : mem.

Lemma store_chars_run m p b b' :
  chars m p = Some b -> store p (OChars b') m = Done tt (put_chars p b' m).
Proof.
  unfold chars, store, put_chars, modify, upd.
  destruct (obj_at m p) as [[]|]; by intros [= <-].
Qed.

Lemma strncpy_run m dst src d s n :
  chars m dst = Some d -> chars m src = Some s ->
  0 <= n <= Z.of_nat (length d) ->
  forall bs, strncpy_bytes s (Z.to_nat n) = Some bs ->
  strncpy dst src n m = Done tt (put_chars dst (bs ++ drop (Z.to_nat n) d) m).
Proof.
  intros Hd Hs Hn bs Hbs. unfold strncpy. run.
  destruct (Z.ltb_spec (Z.of_nat (length d)) n); [lia|].
  rewrite Hbs. by eapply store_chars_run.
Qed.

Lemma store_char_run m p d i c :
  chars m p = Some d -> 0 <= i < Z.of_nat (length d) ->
  store_char p i c m = Done tt (put_chars p (<[Z.to_nat i := c]> d) m).
Proof.
  intros Hd Hi. unfold store_char. run.
  destruct (Z.ltb_spec i 0); [lia|].
  destruct (Z.leb_spec (Z.of_nat (length d)) i); [lia|]. simpl.
  by eapply store_chars_run.
Qed.

(** *** Insertion *)

Lemma q_insert_head_eq : q_insert_head = insert_with list_add.
Proof. done. Qed.

Lemma q_insert_tail_eq : q_insert_tail = insert_with list_add_tail.
Proof. done. Qed.

Lemma heap_fresh m : heap_ok m -> heap m !! brk m = None.
Proof. intros [_ H]. apply not_elem_of_dom. intros Hin%H. lia. Qed.

Lemma heap_ok_brk m : heap_ok m -> (brk m =? NULL) = false.
Proof. intros [H _]. apply Z.eqb_neq. unfold NULL. lia. Qed.

(** A refused allocation: the insertion returns false and the heap is as
    it was. *)
Lemma insert_with_false link h s m m' :
  heap_ok m -> insert_with link h s m = Done false m' ->
  heap m' = heap m /\ brk m <= brk m'.
Proof.
  intros Hok. pose proof (obj_at_fresh _ Hok) as Hfresh.
  pose proof Hok as [H0 _]. unfold insert_with.
  destruct (h =? NULL); [intros [= <-]; split; [done|lia]|].
  unfold bind at 1. rewrite malloc_run.
  destruct (fails (faults m)); [intros [= <-]; split; [done|simpl; lia]|].
  rewrite (heap_ok_brk _ Hok). unfold strdup.
  destruct (cstr s) as [c|]; [|done].
  unfold bind at 1. rewrite malloc_run.
  set (m1 := alloc _ m).
  assert (val m1 (brk m) = Some NULL) as Hv.
  { subst m1. rewrite val_alloc_view by done. by rewrite decide_True. }
  destruct (fails (faults m1)).
  - erewrite (bind_run (set_value _ _)) by (apply set_value_run; eauto).
    simpl. erewrite (bind_run (free _)).
    2:{ apply free_run. apply nx_alloc. eapply val_node.
        rewrite val_put_value, decide_True by done.
        change (val (refuse m1) (brk m)) with (val m1 (brk m)). by rewrite Hv. }
    intros [= <-]. split; [|rewrite brk_release, brk_put_value; simpl; lia].
    unfold release, put_value, modify.
    change (obj_at (refuse m1) (brk m)) with (obj_at m1 (brk m)).
    unfold m1 at 1. rewrite obj_at_alloc, decide_True by done. simpl.
    rewrite !delete_insert_eq. apply delete_id. by apply heap_fresh.
  - assert ((brk m1 =? NULL) = false) as ->.
    { apply Z.eqb_neq. subst m1. unfold NULL. simpl. lia. }
    erewrite (bind_run (set_value _ _)).
    2:{ apply set_value_run. rewrite val_alloc_view by (subst m1; simpl; lia).
        rewrite decide_False by (subst m1; simpl; lia). eauto. }
    unfold bind. destruct (link _ _ _); done.
Qed.

Lemma insert_with_linked link h s m c :
  h <> NULL -> heap_ok m -> cstr s = Some c ->
  fails (faults m) = false -> fails (tail (faults m)) = false ->
  insert_with link h s m = (link (brk m) h ;; ret true) (with_element c m).
Proof.
  intros Hh Hok Hc F1 F2. pose proof Hok as [H0 _]. unfold insert_with.
  destruct (Z.eqb_spec h NULL); [done|].
  unfold bind at 1. rewrite malloc_run, F1, (heap_ok_brk _ Hok).
  unfold strdup. rewrite Hc. unfold bind at 1. rewrite malloc_run.
  set (m1 := alloc _ m). change (faults m1) with (tail (faults m)). rewrite F2.
  assert ((brk m1 =? NULL) = false) as ->.
  { apply Z.eqb_neq. subst m1. unfold NULL. simpl. lia. }
  erewrite (bind_run (set_value _ _)); [done|].
  apply set_value_run. rewrite val_alloc_view by (subst m1; simpl; lia).
  rewrite decide_False by (subst m1; simpl; lia).
  subst m1. rewrite val_alloc_view by done. rewrite decide_True by done. eauto.
Qed.

Lemma insert_with_refused link h s m c :
  h <> NULL -> heap_ok m -> cstr s = Some c ->
  fails (faults m) = true \/ fails (tail (faults m)) = true ->
  exists m', insert_with link h s m = Done false m'.
Proof.
  intros Hh Hok Hc HF. pose proof Hok as [H0 _]. unfold insert_with.
  destruct (Z.eqb_spec h NULL); [done|].
  unfold bind at 1. rewrite malloc_run.
  destruct (fails (faults m)) eqn:F1; [by eexists|].
  destruct HF as [|F2]; [done|].
  rewrite (heap_ok_brk _ Hok).
  unfold strdup. rewrite Hc. unfold bind at 1. rewrite malloc_run.
  set (m1 := alloc _ m). change (faults m1) with (tail (faults m)). rewrite F2.
  assert (val m1 (brk m) = Some NULL) as Hv.
  { subst m1. rewrite val_alloc_view by done. by rewrite decide_True. }
  erewrite (bind_run (set_value _ _)) by (apply set_value_run; eauto).
  simpl. erewrite (bind_run (free _)); [by eexists|].
  apply free_run. apply nx_alloc. eapply val_node.
  rewrite val_put_value, decide_True by done.
  change (val (refuse m1) (brk m)) with (val m1 (brk m)). by rewrite Hv.
Qed.

Lemma alloc_old m q : heap_ok m -> is_Some (obj_at m q) -> q < brk m.
Proof. intros [_ H] Hq%obj_at_dom. apply H in Hq. lia. Qed.

Lemma with_element_views m c :
  heap_ok m ->
  let m3 := with_element c m in
  (forall q, q <> brk m -> q <> brk m + 1 ->
     nx m3 q = nx m q /\ pv m3 q = pv m q /\
     val m3 q = val m q /\ chars m3 q = chars m q) /\
  nx m3 (brk m) = Some NULL /\ pv m3 (brk m) = Some NULL /\
  val m3 (brk m) = Some (brk m + 1) /\
  chars m3 (brk m + 1) = Some (c ++ [x00]) /\
  brk m3 = brk m + 2 /\ faults m3 = tail (tail (faults m)) /\
  dom (heap m3) = {[brk m; brk m + 1]} ∪ dom (heap m) /\
  heap_ok m3.
Proof.
  intros Hok m3. pose proof Hok as [H0 _]. subst m3. unfold with_element.
  set (m1 := alloc (OElem _ _) m).
  assert (0 < brk m1) as H1 by (subst m1; simpl; lia).
  assert (brk m1 = brk m + 1) as Hb1 by done.
  assert (0 < brk m + 1) as H1' by lia.
  split_and!.
  1: intros q Hq1 Hq2.
  1-5: autorewrite with mem;
       rewrite ?nx_alloc_view, ?pv_alloc_view, ?val_alloc_view,
         ?chars_alloc_view by done;
       subst m1;
       rewrite ?nx_alloc_view, ?pv_alloc_view, ?val_alloc_view,
         ?chars_alloc_view by done;
       simpl brk; repeat case_decide; try lia; done.
  - autorewrite with mem. simpl. lia.
  - by autorewrite with mem.
  - autorewrite with mem. simpl. rewrite !dom_insert_L. set_solver.
  - destruct (heap_ok_alloc (OChars (c ++ [x00])) m1 (heap_ok_alloc _ m Hok))
      as [A B].
    split; autorewrite with mem; done.
Qed.

Lemma ring_with_element m h l c :
  ring m h l -> heap_ok m ->
  ring (with_element c m) h l /\ (brk m ∉ h :: l) /\
  is_Some (nx (with_element c m) (brk m)).
Proof.
  intros R Hok. destruct (with_element_views m c Hok) as (V & Ne & _).
  assert (forall q, q ∈ h :: l -> q <> brk m /\ q <> brk m + 1) as Hold.
  { intros q Hq. apply (ring_node _ _ _ _ R), nx_alloc in Hq.
    apply (alloc_old _ _ Hok) in Hq. lia. }
  split_and!.
  - eapply ring_ext; [exact R|]. intros q Hq.
    destruct (Hold q Hq). destruct (V q) as (? & ? & _); done.
  - intros Hin. by destruct (Hold _ Hin).
  - rewrite Ne. eauto.
Qed.

Lemma q_insert_head_run m h l s c :
  ring m h l -> heap_ok m -> cstr s = Some c ->
  fails (faults m) = false -> fails (tail (faults m)) = false ->
  exists m', q_insert_head h s m = Done true m' /\
             ring m' h (brk m :: l) /\
             relinked (h :: brk m :: l) (with_element c m) m'.
Proof.
  intros R Hok Hc F1 F2.
  rewrite q_insert_head_eq, (insert_with_linked _ _ _ _ c);
    [|eapply ring_nonnull; [exact R|by left]|done..].
  destruct (ring_with_element _ _ _ c R Hok) as (R3 & He & Ne).
  destruct (ring_add_head _ _ _ _ R3 He Ne) as [Hadd R'].
  rewrite (bind_run _ _ _ _ _ Hadd). eexists. split_and!; [done|exact R'|].
  assert (hd h l ∈ h :: brk m :: l) as Hb.
  { pose proof (hd_elem l h) as H. revert H. rewrite !elem_of_cons. tauto. }
  assert (h ∈ h :: brk m :: l) as Hh by (by left).
  assert (brk m ∈ h :: brk m :: l) as He' by (right; by left).
  repeat (eapply relinked_trans;
          [|first [by apply relinked_put_next | by apply relinked_put_prev]]).
  apply relinked_refl.
Qed.

Lemma q_insert_tail_run m h l s c :
  ring m h l -> heap_ok m -> cstr s = Some c ->
  fails (faults m) = false -> fails (tail (faults m)) = false ->
  exists m', q_insert_tail h s m = Done true m' /\
             ring m' h (l ++ [brk m]) /\
             relinked (h :: brk m :: l) (with_element c m) m'.
Proof.
  intros R Hok Hc F1 F2.
  rewrite q_insert_tail_eq, (insert_with_linked _ _ _ _ c);
    [|eapply ring_nonnull; [exact R|by left]|done..].
  destruct (ring_with_element _ _ _ c R Hok) as (R3 & He & Ne).
  destruct (ring_add_tail _ _ _ _ R3 He Ne) as [Hadd R'].
  rewrite (bind_run _ _ _ _ _ Hadd). eexists. split_and!; [done|exact R'|].
  assert (List.last l h ∈ h :: brk m :: l) as Hb.
  { pose proof (last_elem l h) as H. revert H. rewrite !elem_of_cons. tauto. }
  assert (h ∈ h :: brk m :: l) as Hh by (by left).
  assert (brk m ∈ h :: brk m :: l) as He' by (right; by left).
  repeat (eapply relinked_trans;
          [|first [by apply relinked_put_next | by apply relinked_put_prev]]).
  apply relinked_refl.
Qed.

(** *** Removal *)

Lemma insert_app_drop {A} (bs d : list A) n c :
  length bs = n -> (n < length d)%nat ->
  <[n := c]> (bs ++ drop n d) = bs ++ c :: drop (S n) d.
Proof.
  intros <- Hn. rewrite insert_app_r_alt by done.
  rewrite Nat.sub_diag. f_equal.
  destruct (drop (length bs) d) as [|y r] eqn:E.
  - apply (f_equal length) in E. rewrite length_drop in E. simpl in E. lia.
  - simpl. f_equal.
    replace (S (length bs)) with (length bs + 1)%nat by lia.
    by rewrite <- drop_drop, E.
Qed.

Lemma remove_at_run m h l1 x l2 sp d v bv s bufsize :
  ring m h (l1 ++ x :: l2) ->
  val m x = Some v -> chars m v = Some bv -> cstr bv = Some s ->
  chars m sp = Some d -> sp <> v ->
  1 <= bufsize <= Z.of_nat (length d) -> bufsize < size_max ->
  exists m', remove_at x sp bufsize m = Done x m' /\
             ring m' h (l1 ++ l2) /\
             same_but sp m m' /\
             chars m' sp = Some (copied s d bufsize) /\
             (forall q, q ∉ h :: l1 ++ x :: l2 ->
                nx m' q = nx m q /\ pv m' q = pv m q).
Proof.
  intros R Hv Hbv Hs Hd Hsp Hbuf Hmax.
  destruct (cstr_inv _ _ Hs) as [Hnn [r ->]].
  unfold remove_at. run.
  assert (size_sub bufsize 1 = bufsize - 1) as ->.
  { unfold size_sub. apply Z.mod_small. lia. }
  set (n := Z.to_nat (bufsize - 1)).
  set (bs := take n s ++ replicate (n - length s) x00).
  assert (length bs = n) as Hlen.
  { subst bs. rewrite length_app, length_take, length_replicate. lia. }
  erewrite (bind_run (strncpy _ _ _)).
  2:{ eapply strncpy_run; [done|done|lia|]. by apply strncpy_bytes_app. }
  fold n bs. set (m1 := put_chars sp _ m).
  erewrite (bind_run (store_char _ _ _)).
  2:{ eapply store_char_run.
      - subst m1. rewrite chars_put_chars, decide_True by done.
        by rewrite Hd.
      - rewrite length_app, length_drop, Hlen. lia. }
  fold n. rewrite insert_app_drop by (done || lia).
  set (m2 := put_chars sp _ m1).
  assert (ring m2 h (l1 ++ x :: l2)) as R2.
  { eapply ring_ext; [exact R|]. intros q _. subst m2 m1.
    by autorewrite with mem. }
  apply ring_del in R2 as [Hdel R2]. rewrite (bind_run _ _ _ _ _ Hdel).
  eexists. split_and!; [done|exact R2|..].
  - subst m2 m1. split_and!; intros; autorewrite with mem; try done.
    by rewrite !decide_False by done.
  - subst m2 m1. autorewrite with mem. rewrite !decide_True by done.
    rewrite Hd. simpl. unfold copied. fold n. subst bs.
    by rewrite <- app_assoc.
  - intros q Hq.
    assert (List.last l1 h ∈ h :: l1 ++ x :: l2) as Ha.
    { pose proof (last_elem l1 h) as H. revert H.
      rewrite !elem_of_cons, !elem_of_app. tauto. }
    assert (hd h l2 ∈ h :: l1 ++ x :: l2) as Hb.
    { pose proof (hd_elem l2 h) as H. revert H.
      rewrite !elem_of_cons, !elem_of_app, !elem_of_cons. tauto. }
    subst m2 m1. autorewrite with mem.
    rewrite !decide_False; [done|by intros ->..].
Qed.

Lemma q_remove_head_eq head sp bufsize :
  q_remove_head head sp bufsize =
  if head =? NULL then ret NULL
  else e <- list_empty head ;;
       if e then ret NULL
       else rm <- get_next head ;; remove_at rm sp bufsize.
Proof. done. Qed.

Lemma q_remove_tail_eq head sp bufsize :
  q_remove_tail head sp bufsize =
  if head =? NULL then ret NULL
  else e <- list_empty head ;;
       if e then ret NULL
       else rm <- get_prev head ;; remove_at rm sp bufsize.
Proof. done. Qed.

Lemma q_remove_head_empty m h sp bufsize :
  ring m h [] -> q_remove_head h sp bufsize m = Done NULL m.
Proof.
  intros R. rewrite q_remove_head_eq.
  destruct (Z.eqb_spec h NULL); [done|].
  rewrite (bind_run _ _ _ _ _ (list_empty_run _ _ _ (ring_nx _ _ _ R))).
  simpl. by rewrite Z.eqb_refl.
Qed.

Lemma q_remove_tail_empty m h sp bufsize :
  ring m h [] -> q_remove_tail h sp bufsize m = Done NULL m.
Proof.
  intros R. rewrite q_remove_tail_eq.
  destruct (Z.eqb_spec h NULL); [done|].
  rewrite (bind_run _ _ _ _ _ (list_empty_run _ _ _ (ring_nx _ _ _ R))).
  simpl. by rewrite Z.eqb_refl.
Qed.

Lemma q_remove_head_at m h x l sp bufsize :
  ring m h (x :: l) ->
  q_remove_head h sp bufsize m = remove_at x sp bufsize m.
Proof.
  intros R. pose proof R as (ND & _). rewrite q_remove_head_eq.
  destruct (Z.eqb_spec h NULL) as [->|_].
  { by destruct (ring_nonnull _ _ _ NULL R ltac:(by left)). }
  rewrite (bind_run _ _ _ _ _ (list_empty_run _ _ _ (ring_nx _ _ _ R))).
  cbn [hd]. destruct (Z.eqb_spec x h) as [->|_]; [by nd|].
  by rewrite (bind_run _ _ _ _ _ (get_next_run _ _ _ (ring_nx _ _ _ R))).
Qed.

Lemma q_remove_tail_at m h x l sp bufsize :
  ring m h (l ++ [x]) ->
  q_remove_tail h sp bufsize m = remove_at x sp bufsize m.
Proof.
  intros R. pose proof R as (ND & _). rewrite q_remove_tail_eq.
  destruct (Z.eqb_spec h NULL) as [->|_].
  { by destruct (ring_nonnull _ _ _ NULL R ltac:(by left)). }
  rewrite (bind_run _ _ _ _ _ (list_empty_run _ _ _ (ring_nx _ _ _ R))).
  destruct (Z.eqb_spec (hd h (l ++ [x])) h) as [E|_].
  { exfalso. destruct l; simpl in E; subst; nd; congruence. }
  rewrite (bind_run _ _ _ _ _ (get_prev_run _ _ _ (ring_pv _ _ _ R))).
  by rewrite last_snoc.
Qed.

(** *** The order of strings *)

Lemma uchar_nonneg c : 0 <= uchar c.
Proof. unfold uchar. lia. Qed.

Lemma uchar_pos c : is_nul c = false -> 0 < uchar c.
Proof.
  intros Hc. pose proof (uchar_nonneg c).
  destruct (decide (uchar c = 0)) as [E|]; [|lia]. exfalso.
  unfold uchar in E. assert (Byte.to_N c = 0%N) as E' by lia.
  pose proof (Byte.of_to_N c) as Hof. rewrite E' in Hof.
  assert (c = x00) as -> by (simpl in Hof; congruence). done.
Qed.

Lemma strcmp_bytes_antisym a b : strcmp_bytes b a = - strcmp_bytes a b.
Proof.
  revert b. induction a as [|c a IH]; intros [|d b]; simpl; try lia.
  rewrite (Z.eqb_sym (uchar d)). destruct (uchar c =? uchar d); [apply IH|lia].
Qed.

Lemma str_le_trans a b c :
  nonul a -> nonul b -> str_le a b -> str_le b c -> str_le a c.
Proof.
  unfold str_le. intros Ha. revert b c.
  induction Ha as [|x a Hx Ha IH]; intros b c Hb.
  - destruct c; simpl; intros; [lia|]. pose proof (uchar_nonneg b0). lia.
  - destruct Hb as [|y b Hy Hb]; simpl.
    { pose proof (uchar_pos _ Hx). lia. }
    destruct c as [|z c].
    { pose proof (uchar_pos _ Hy). destruct (uchar x =? uchar y); lia. }
    destruct (Z.eqb_spec (uchar x) (uchar y)) as [E1|E1];
      destruct (Z.eqb_spec (uchar y) (uchar z)) as [E2|E2];
      destruct (Z.eqb_spec (uchar x) (uchar z)) as [E3|E3]; try lia.
    by apply IH.
Qed.

Lemma str_le_refl a : str_le a a.
Proof. unfold str_le. by rewrite strcmp_bytes_refl. Qed.

Lemma str_le_total a b : ~ str_le a b -> str_le b a.
Proof. unfold str_le. rewrite (strcmp_bytes_antisym a b). lia. Qed.

Lemma str_nonul m e s : str m e = Some s -> nonul s.
Proof. intros (v & b & _ & _ & Hc)%str_inv. by apply cstr_inv in Hc as [? _]. Qed.

Lemma key_nonul m e : nonul (key m e).
Proof.
  unfold key. destruct (str m e) eqn:E; simpl; [by eapply str_nonul|constructor].
Qed.

Section Merge.
Variable k : ptr -> list byte.
Hypothesis k_nonul : forall e, nonul (k e).

Lemma merge_list_nil_r a : merge_list k a [] = a.
Proof. by destruct a. Qed.

Lemma merge_list_cons x a y b :
  merge_list k (x :: a) (y :: b) =
  if le k x y then x :: merge_list k a (y :: b)
  else y :: merge_list k (x :: a) b.
Proof. done. Qed.

Lemma merge_list_perm a b : a ++ b ≡ₚ merge_list k a b.
Proof.
  revert b. induction a as [|x a IHa]; intros b; [by destruct b|].
  induction b as [|y b IHb]; [by rewrite app_nil_r|].
  rewrite merge_list_cons. destruct (le k x y).
  - simpl. by rewrite <- IHa.
  - rewrite <- IHb. by rewrite <- Permutation_middle.
Qed.

Lemma merge_list_ascending a b :
  ascending k a -> ascending k b -> ascending k (merge_list k a b).
Proof.
  unfold ascending. intros Ha. revert b.
  induction Ha as [|x a Ha IHa Hx]; intros b Hb; [by destruct b|].
  induction Hb as [|y b Hb IHb Hy]; [by constructor|].
  rewrite merge_list_cons. unfold le.
  destruct (Z.leb_spec (strcmp_bytes (k x) (k y)) 0) as [Hle|Hgt].
  - constructor; [apply IHa; by constructor|].
    rewrite <- merge_list_perm. apply Forall_app. split; [done|].
    constructor; [done|]. eapply Forall_impl; [exact Hy|].
    intros z Hz. by eapply (str_le_trans _ (k y)).
  - assert (str_le (k y) (k x)) as Hyx.
    { apply str_le_total. unfold str_le. lia. }
    constructor; [done|].
    rewrite <- merge_list_perm. apply Forall_app. split; [|done].
    constructor; [done|]. eapply Forall_impl; [exact Hx|].
    intros z Hz. by eapply (str_le_trans _ (k x)).
Qed.

Lemma merge_list_stable a b s :
  ascending k a ->
  filter (fun e => k e = s) (merge_list k a b) =
  filter (fun e => k e = s) a ++ filter (fun e => k e = s) b.
Proof.
  unfold ascending. intros Ha. revert b.
  induction Ha as [|x a Ha IHa Hx]; intros b; [by destruct b|].
  induction b as [|y b IHb]; [by rewrite app_nil_r|].
  rewrite merge_list_cons. unfold le.
  destruct (Z.leb_spec (strcmp_bytes (k x) (k y)) 0) as [Hle|Hgt].
  - rewrite (filter_cons _ x (merge_list _ _ _)), (filter_cons _ x a), IHa.
    by case_decide.
  - rewrite (filter_cons _ y (merge_list _ _ _)), IHb, (filter_cons _ y b).
    case_decide as Hy; [|done].
    assert (filter (fun e => k e = s) (x :: a) = []) as ->; [|done].
    apply elem_of_nil_inv. intros z [Hzs Hz]%list_elem_of_filter.
    assert (str_le (k x) (k z)) as Hxz.
    { apply elem_of_cons in Hz as [->|Hz]; [apply str_le_refl|].
      rewrite Forall_forall in Hx. by apply Hx. }
    rewrite Hzs, <- Hy in Hxz. unfold str_le in Hxz. lia.
Qed.

Lemma merge_list_sorted_of l1 l2 a b :
  sorted_of k l1 a -> sorted_of k l2 b ->
  sorted_of k (l1 ++ l2) (merge_list k a b).
Proof.
  intros (P1 & A1 & S1) (P2 & A2 & S2). split_and!.
  - by rewrite <- merge_list_perm, P1, P2.
  - by apply merge_list_ascending.
  - intros s. rewrite merge_list_stable by done.
    by rewrite filter_app, S1, S2.
Qed.

Lemma sorted_of_single x : sorted_of k [x] [x].
Proof. split_and!; [done|repeat constructor|done]. Qed.

End Merge.

(** *** merge *)

Lemma element_t_cmp_run m a b sa sb :
  str m a = Some sa -> str m b = Some sb ->
  element_t_cmp a b m = Done (strcmp_bytes sa sb) m.
Proof.
  intros (va & ba & Hva & Hba & Hca)%str_inv (vb & bb & Hvb & Hbb & Hcb)%str_inv.
  unfold element_t_cmp, strcmp. run. by rewrite Hca, Hcb.
Qed.

Lemma slot_store_run m tl head v :
  slot_ok m tl [] ->
  slot_store tl head v m = Done (slot_head tl head v) (slot_mem tl v m).
Proof.
  destruct tl as [|t]; simpl; [done|]. intros [Ht _]. by run.
Qed.

Lemma slot_load_run m tl head v :
  slot_ok m tl [] ->
  slot_load tl (slot_head tl head v) (slot_mem tl v m) =
  Done v (slot_mem tl v m).
Proof.
  destruct tl as [|t]; simpl; [done|]. intros [[? Ht] _].
  apply get_next_run. rewrite nx_put_next, decide_True by done. by rewrite Ht.
Qed.

Lemma slot_mem_same m tl v : same_data m (slot_mem tl v m).
Proof. destruct tl; [apply same_data_refl|apply same_data_put_next]. Qed.

Lemma slot_mem_pv m tl v q : pv (slot_mem tl v m) q = pv m q.
Proof. destruct tl; simpl; by autorewrite with mem. Qed.

Lemma slot_mem_nx m tl v q :
  off_slot tl q -> nx (slot_mem tl v m) q = nx m q.
Proof.
  destruct tl; simpl; [done|]. intros. autorewrite with mem.
  by rewrite decide_False.
Qed.

Lemma slot_mem_holds m tl v l :
  slot_ok m tl l -> slot_holds (slot_mem tl v m) tl v.
Proof.
  destruct tl; simpl; [done|]. intros [[? Ht] _].
  rewrite nx_put_next, decide_True by done. by rewrite Ht.
Qed.

Lemma slot_ok_weaken m tl l l' :
  (forall q, q ∈ l' -> q ∈ l) -> slot_ok m tl l -> slot_ok m tl l'.
Proof. destruct tl; simpl; [done|]. intros H [? Hn]. split; [done|]. auto. Qed.

Lemma slot_ok_off m tl l q : slot_ok m tl l -> q ∈ l -> off_slot tl q.
Proof. destruct tl; simpl; [done|]. intros [_ Hn] Hq ->. done. Qed.

Lemma fpath_nonnull m a l b q : fpath (nx m) a l b -> q ∈ a :: l -> q <> NULL.
Proof.
  intros F Hq. destruct (fpath_node _ _ _ _ _ F Hq) as [? E].
  by eapply nx_nonnull.
Qed.

Ltac elems :=
  rewrite ?not_elem_of_cons, ?not_elem_of_app, ?not_elem_of_cons,
    ?elem_of_cons, ?elem_of_app, ?elem_of_cons, ?elem_of_nil in *;
  tauto.

(** One round of the loop of [merge], taking the first node [x] of one
    chain: [x] is stored through [tail], [tail] moves to [x]'s [next]
    member, and the loop goes on with the rest [k] unless the chain
    ends, in which case the other chain [y] is attached. *)
Lemma merge_take m tl head x lx y (K : ptr -> ptr -> ptr -> M ptr) :
  slot_ok m tl [x] -> fpath (nx m) x lx NULL ->
  (head1 <- slot_store tl head x ;;
   t <- slot_load tl head1 ;;
   x' <- get_next x ;;
   if x' =? NULL then (set_next t y ;; ret head1) else K head1 t x') m =
  match lx with
  | [] => Done (slot_head tl head x) (put_next x y (slot_mem tl x m))
  | x' :: _ => K (slot_head tl head x) x x' (slot_mem tl x m)
  end.
Proof.
  intros Hs F.
  assert (slot_ok m tl []) as Hs0 by (eapply slot_ok_weaken; [|exact Hs]; by intros ? ?%elem_of_nil).
  rewrite (bind_run _ _ _ _ _ (slot_store_run _ _ head x Hs0)).
  rewrite (bind_run _ _ _ _ _ (slot_load_run _ _ head x Hs0)).
  assert (nx (slot_mem tl x m) x = Some (hd NULL lx)) as Nx.
  { rewrite slot_mem_nx; [by apply fpath_first in F|].
    eapply slot_ok_off; [exact Hs|by left]. }
  rewrite (bind_run _ _ _ _ _ (get_next_run _ _ _ Nx)).
  destruct lx as [|x' lx]; cbn [hd].
  - rewrite Z.eqb_refl. simpl. by run.
  - destruct (Z.eqb_spec x' NULL) as [E|_]; [|done].
    destruct F as [_ F]. by destruct (fpath_nonnull _ _ _ _ x' F ltac:(by left)).
Qed.

Lemma merge_loop_run k fuel :
  forall la lb a b m head tl,
  fpath (nx m) a la NULL -> fpath (nx m) b lb NULL ->
  NoDup ((a :: la) ++ b :: lb) ->
  (forall e, e ∈ (a :: la) ++ b :: lb -> str m e = Some (k e)) ->
  slot_ok m tl ((a :: la) ++ b :: lb) ->
  (length la + length lb < fuel)%nat ->
  exists o out m',
    merge_list k (a :: la) (b :: lb) = o :: out /\
    merge_loop fuel element_t_cmp head tl a b m =
      Done (slot_head tl head o) m' /\
    fpath (nx m') o out NULL /\
    slot_holds m' tl o /\
    same_data m m' /\
    (forall q, pv m' q = pv m q) /\
    (forall q, q ∉ (a :: la) ++ b :: lb -> off_slot tl q ->
       nx m' q = nx m q).
Proof.
  induction fuel as [|fuel IH]; intros la lb a b m head tl Fa Fb ND Hk Hs Hfuel;
    [lia|].
  simpl merge_loop.
  rewrite (bind_run _ _ _ _ _
    (element_t_cmp_run m a b _ _ (Hk a ltac:(elems)) (Hk b ltac:(elems)))).
  rewrite merge_list_cons. unfold le.
  set (m1x := fun x => slot_mem tl x m).
  assert (forall x q, off_slot tl q -> nx (m1x x) q = nx m q) as N1
    by (intros; by apply slot_mem_nx).
  assert (forall x q, q ∈ (a :: la) ++ b :: lb -> nx (m1x x) q = nx m q) as N1'.
  { intros x q Hq. apply N1. by eapply slot_ok_off. }
  assert (forall x, same_data m (m1x x)) as D1 by (intros; apply slot_mem_same).
  destruct (strcmp_bytes (k a) (k b) <=? 0).
  - (* the node of [a] goes first *)
    rewrite (merge_take m tl head a la b
               (fun head1 t a' => merge_loop fuel element_t_cmp head1 (NextOf t) a' b));
      [|eapply slot_ok_weaken; [|exact Hs]; intros q; elems|done].
    destruct la as [|a' la].
    + exists a, (b :: lb), (put_next a b (m1x a)). split_and!.
      * by destruct lb.
      * done.
      * split.
        -- rewrite nx_put_next, decide_True by done.
           rewrite N1' by elems. simpl in Fa. by rewrite Fa.
        -- eapply fpath_ext; [|exact Fb]. intros q Hq.
           rewrite nx_put_next, decide_False; [apply N1'; elems|].
           intros ->. apply NoDup_cons in ND as [ND _]. apply ND. elems.
      * destruct tl as [|t]; simpl; [done|]. destruct Hs as [[? Ht] Hn].
        subst m1x. simpl. autorewrite with mem. rewrite decide_False by (intros ->; apply Hn; elems).
        rewrite decide_True by done. by rewrite Ht.
      * eapply same_data_trans; [apply D1|apply same_data_put_next].
      * intros q. subst m1x. simpl. autorewrite with mem. apply slot_mem_pv.
      * intros q Hq Ho. rewrite nx_put_next, decide_False by (intros ->; apply Hq; elems).
        by apply N1.
    + destruct Fa as [Na Fa].
      destruct (IH la lb a' b (m1x a) (slot_head tl head a) (NextOf a))
        as (o & out & m' & Eo & Hrun & Fo & Ho & D' & P' & N').
      * eapply fpath_ext; [|exact Fa]. intros q Hq. apply N1'. elems.
      * eapply fpath_ext; [|exact Fb]. intros q Hq. apply N1'. elems.
      * by apply NoDup_cons in ND as [_ ND].
      * intros e He. rewrite (same_data_str _ _ _ (D1 a)). apply Hk. elems.
      * split; [rewrite N1' by elems; rewrite Na; eauto|].
        by apply NoDup_cons in ND as [ND _].
      * simpl in Hfuel. lia.
      * exists a, (o :: out), m'. simpl in Ho. split_and!.
        -- by rewrite Eo.
        -- done.
        -- done.
        -- destruct tl as [|t]; simpl; [done|]. destruct Hs as [[? Ht] Hn].
           rewrite N'; [|intros ?; apply Hn; elems|simpl; intros ->; apply Hn; elems].
           subst m1x. simpl. rewrite nx_put_next, decide_True by done. by rewrite Ht.
        -- eapply same_data_trans; [apply D1|exact D'].
        -- intros q. rewrite P'. apply slot_mem_pv.
        -- intros q Hq Hoff. rewrite N'; [by apply N1|elems|simpl; intros ->; elems].
  - (* the node of [b] goes first *)
    rewrite (merge_take m tl head b lb a
               (fun head1 t b' => merge_loop fuel element_t_cmp head1 (NextOf t) a b'));
      [|eapply slot_ok_weaken; [|exact Hs]; intros q; elems|done].
    pose proof ND as [Hb ND']%NoDup_mid.
    destruct lb as [|b' lb].
    + exists b, (a :: la), (put_next b a (m1x b)). split_and!.
      * done.
      * done.
      * split.
        -- rewrite nx_put_next, decide_True by done.
           rewrite N1' by elems. simpl in Fb. by rewrite Fb.
        -- eapply fpath_ext; [|exact Fa]. intros q Hq.
           rewrite nx_put_next, decide_False; [apply N1'; elems|].
           intros ->. apply Hb. elems.
      * destruct tl as [|t]; simpl; [done|]. destruct Hs as [[? Ht] Hn].
        subst m1x. simpl. autorewrite with mem. rewrite decide_False by (intros ->; apply Hn; elems).
        rewrite decide_True by done. by rewrite Ht.
      * eapply same_data_trans; [apply D1|apply same_data_put_next].
      * intros q. subst m1x. simpl. autorewrite with mem. apply slot_mem_pv.
      * intros q Hq Ho. rewrite nx_put_next, decide_False by (intros ->; apply Hq; elems).
        by apply N1.
    + destruct Fb as [Nb Fb].
      destruct (IH la lb a b' (m1x b) (slot_head tl head b) (NextOf b))
        as (o & out & m' & Eo & Hrun & Fo & Ho & D' & P' & N').
      * eapply fpath_ext; [|exact Fa]. intros q Hq. apply N1'. elems.
      * eapply fpath_ext; [|exact Fb]. intros q Hq. apply N1'. elems.
      * done.
      * intros e He. rewrite (same_data_str _ _ _ (D1 b)). apply Hk. elems.
      * split; [rewrite N1' by elems; rewrite Nb; eauto|done].
      * simpl in Hfuel. lia.
      * exists b, (o :: out), m'. simpl in Ho. split_and!.
        -- by rewrite Eo.
        -- done.
        -- done.
        -- destruct tl as [|t]; simpl; [done|]. destruct Hs as [[? Ht] Hn].
           rewrite N'; [|intros ?; apply Hn; elems|simpl; intros ->; apply Hn; elems].
           subst m1x. simpl. rewrite nx_put_next, decide_True by done. by rewrite Ht.
        -- eapply same_data_trans; [apply D1|exact D'].
        -- intros q. rewrite P'. apply slot_mem_pv.
        -- intros q Hq Hoff. rewrite N'; [by apply N1|elems|simpl; intros ->; elems].
Qed.

(** *** merge_sort *)

Lemma bseg_app f a l1 x l2 :
  bseg f a (l1 ++ x :: l2) <->
  bseg f a l1 /\ f x = Some (List.last l1 a) /\ bseg f x l2.
Proof.
  revert a. induction l1 as [|y l1 IH]; intros a; [simpl; tauto|].
  rewrite last_cons. simpl. rewrite IH. tauto.
Qed.

Lemma bpath_bseg f a l b :
  bpath f a l b <-> bseg f a l /\ f b = Some (List.last l a).
Proof.
  revert a. induction l as [|y l IH]; intros a; [simpl; tauto|].
  rewrite last_cons. simpl. rewrite IH. tauto.
Qed.

Lemma bseg_ext f g a l :
  (forall q, q ∈ l -> g q = f q) -> bseg f a l -> bseg g a l.
Proof.
  revert a. induction l as [|x l IH]; intros a Hq; simpl; [done|].
  intros [H1 H2]. split.
  - rewrite <- H1. apply Hq. by left.
  - apply IH; [|done]. intros q Hin. apply Hq. by right.
Qed.

(** The last link of a path, directed elsewhere *)
Lemma fpath_retarget f g a l b b' :
  fpath f a l b -> NoDup (a :: l) ->
  (forall q, q ∈ a :: l -> q <> List.last l a -> g q = f q) ->
  g (List.last l a) = Some b' ->
  fpath g a l b'.
Proof.
  revert a. induction l as [|x l IH]; intros a F ND Hq Hl; [done|].
  rewrite last_cons in *. destruct F as [F1 F2]. split.
  - rewrite <- F1. apply Hq; [by left|]. intros ->.
    apply NoDup_cons in ND as [ND _]. apply ND. apply last_elem.
  - apply IH; [done|by apply NoDup_cons in ND as [_ ?]| |done].
    intros q Hin Hne. apply Hq; [by right|done].
Qed.

Lemma split_loop_run m x l fuel :
  fpath (nx m) x l NULL ->
  forall k slow fast,
  (x :: l) !! S k = Some slow ->
  ((x :: l) ++ [NULL]) !! (2 * k + 2)%nat = Some fast ->
  (S (length l) / 2 - k <= fuel)%nat ->
  exists s, (x :: l) !! (S (length l) / 2)%nat = Some s /\
            split_loop fuel slow fast m = Done s m.
Proof.
  intros F.
  assert (forall j q, ((x :: l) ++ [NULL]) !! j = Some q ->
            (q = NULL <-> j = S (length l))) as Pos.
  { intros j q Hj. destruct (decide (j < S (length l))%nat) as [Hlt|Hge].
    - rewrite lookup_app_l in Hj by (simpl; lia).
      apply list_elem_of_lookup_2 in Hj.
      pose proof (fpath_nonnull _ _ _ _ _ F Hj). split; [done|lia].
    - rewrite lookup_app_r in Hj by (simpl; lia). simpl length in Hj.
      destruct (j - S (length l))%nat as [|j'] eqn:E; simpl in Hj; [|done].
      simplify_eq. split; [lia|done]. }
  assert (forall j p q, ((x :: l) ++ [NULL]) !! j = Some p ->
            ((x :: l) ++ [NULL]) !! S j = Some q -> nx m p = Some q) as Nx.
  { intros j p q. by apply fpath_lookup. }
  assert (forall j, (S (length l) = 2 * j + 2 \/ S (length l) = 2 * j + 3)%nat ->
            (S (length l) / 2)%nat = S j) as Half.
  { intros j [E|E]; rewrite E.
    - replace (2 * j + 2)%nat with (0 + (S j) * 2)%nat by lia.
      by rewrite Nat.div_add by lia.
    - replace (2 * j + 3)%nat with (1 + (S j) * 2)%nat by lia.
      by rewrite Nat.div_add by lia. }
  assert (length ((x :: l) ++ [NULL]) = S (S (length l))) as Hlen.
  { rewrite length_app. simpl. lia. }
  induction fuel as [|fuel IH]; intros k slow fast Hs Hf Hfuel.
  { exfalso. pose proof (lookup_lt_Some _ _ _ Hf) as Hlt. rewrite Hlen in Hlt.
    assert (k + 1 <= S (length l) / 2)%nat; [|lia].
    apply Nat.div_le_lower_bound; lia. }
  simpl split_loop.
  pose proof (lookup_lt_Some _ _ _ Hf) as Hlt. rewrite Hlen in Hlt.
  destruct (Z.eqb_spec fast NULL) as [E|E].
  { apply (Pos _ _ Hf) in E. exists slow. split; [|done].
    rewrite (Half k); [done|lia]. }
  assert (2 * k + 2 <> S (length l))%nat as Hne.
  { intros Hj. apply E. by apply (Pos _ _ Hf). }
  destruct (lookup_lt_is_Some_2 ((x :: l) ++ [NULL]) (S (2 * k + 2)))
    as [fn Hfn]; [lia|].
  rewrite (bind_run _ _ _ _ _ (get_next_run _ _ _ (Nx _ _ _ Hf Hfn))).
  destruct (Z.eqb_spec fn NULL) as [E'|E'].
  { apply (Pos _ _ Hfn) in E'. exists slow. split; [|done].
    rewrite (Half k); [done|lia]. }
  assert (S (2 * k + 2) <> S (length l))%nat as Hne'.
  { intros Hj. apply E'. by apply (Pos _ _ Hfn). }
  destruct (lookup_lt_is_Some_2 ((x :: l) ++ [NULL]) (S (S (2 * k + 2))))
    as [fast' Hf']; [lia|].
  destruct (lookup_lt_is_Some_2 (x :: l) (S (S k)))
    as [slow' Hs']; [simpl; lia|].
  assert (nx m slow = Some slow') as Ns.
  { apply (Nx (S k)); by rewrite lookup_app_l by (simpl; lia). }
  rewrite (bind_run _ _ _ _ _ (get_next_run _ _ _ Ns)).
  rewrite (bind_run _ _ _ _ _ (get_next_run _ _ _ (Nx _ _ _ Hf Hfn))).
  rewrite (bind_run _ _ _ _ _ (get_next_run _ _ _ (Nx _ _ _ Hfn Hf'))).
  apply (IH (S k)); [done| |].
  - by replace (2 * S k + 2)%nat with (S (S (2 * k + 2))) by lia.
  - lia.
Qed.

Lemma merge_sort_run k :
  (forall e, nonul (k e)) ->
  forall fuel x l m,
  fpath (nx m) x l NULL -> bseg (pv m) x l -> NoDup (x :: l) ->
  (forall e, e ∈ x :: l -> str m e = Some (k e)) ->
  (length l < fuel)%nat ->
  exists r out m',
    merge_sort fuel x element_t_cmp m = Done r m' /\
    sorted_of k (x :: l) (r :: out) /\
    fpath (nx m') r out NULL /\
    same_data m m' /\
    (forall q, pv m' q = pv m q) /\
    (forall q, q ∉ x :: l -> nx m' q = nx m q).
Proof.
  intros Hnn. induction fuel as [|fuel IH]; intros x l m F B ND Hk Hfuel; [lia|].
  cbn [merge_sort].
  rewrite (bind_run _ _ _ _ _ (get_next_run _ _ _ (fpath_first _ _ _ _ F))).
  destruct l as [|y l']; cbn [hd].
  { rewrite Z.eqb_refl. exists x, [], m.
    split_and!; try done; first [apply sorted_of_single|apply same_data_refl]. }
  set (l := y :: l') in *.
  destruct (Z.eqb_spec y NULL) as [E|_].
  { by destruct (fpath_nonnull _ _ _ _ y F ltac:(subst l; elems)). }
  pose proof F as [Nx Fy]. pose proof (fpath_first _ _ _ _ Fy) as Ny.
  run.
  destruct (split_loop_run m x l (S fuel) F 0%nat y (hd NULL l'))
    as (s & Hs & Hsplit).
  { done. }
  { subst l. simpl. by destruct l'. }
  { pose proof (Nat.Div0.div_le_upper_bound (S (length l)) 2 (S (length l))).
    lia. }
  rewrite (bind_run _ _ _ _ _ Hsplit).
  apply list_elem_of_split_length in Hs as (c1 & c2 & Ec & Hc1).
  assert (1 <= S (length l) / 2)%nat as Hhalf
    by (apply Nat.div_le_lower_bound; [done|subst l; simpl; lia]).
  destruct c1 as [|x' l1]; [cbn [length] in Hc1; lia|].
  injection Ec as <- El. clear Nx Fy Ny. clearbody l. subst l.
  apply fpath_app in F as [F1 F2]. apply bseg_app in B as (B1 & Ps & B2).
  assert (length (l1 ++ s :: c2) = (length l1 + S (length c2))%nat) as Hlen
    by (rewrite length_app; simpl; lia).
  rewrite Hlen in *. cbn [length] in Hc1.
  assert (length l1 <= length c2)%nat as Hle.
  { assert (2 * (S (length l1 + S (length c2)) / 2) <= S (length l1 + S (length c2)))%nat
      by (apply Nat.Div0.mul_div_le). lia. }
  pose proof (fpath_last _ _ _ _ F1) as Nsp.
  run. set (sp := List.last l1 x) in *. set (m1 := put_next sp NULL m).
  assert (sp ∈ x :: l1) as Hsp by apply last_elem.
  pose proof ND as ND0.
  change (NoDup ((x :: l1) ++ s :: c2)) in ND.
  apply NoDup_app in ND as (ND1 & Hdisj & ND2).
  assert (fpath (nx m1) x l1 NULL) as F1'.
  { eapply fpath_retarget; [exact F1|done| |].
    - intros q Hq Hne. subst m1. rewrite nx_put_next. by rewrite decide_False.
    - subst m1 sp. rewrite nx_put_next, decide_True by done.
      by rewrite (fpath_last _ _ _ _ F1). }
  assert (fpath (nx m1) s c2 NULL) as F2'.
  { eapply fpath_ext; [|exact F2]. intros q Hq. subst m1.
    rewrite nx_put_next, decide_False; [done|]. intros ->.
    by apply (Hdisj sp). }
  assert (same_data m m1) as D1 by apply same_data_put_next.
  destruct (IH x l1 m1) as (r1 & o1 & m2 & Hrun1 & S1 & Fo1 & D2 & P2 & N2);
    [done| |done| |lia|].
  { eapply bseg_ext; [|exact B1]. intros. subst m1. by autorewrite with mem. }
  { intros e He. rewrite (same_data_str _ _ _ D1). apply Hk. elems. }
  rewrite (bind_run _ _ _ _ _ Hrun1).
  destruct (IH s c2 m2) as (r2 & o2 & m3 & Hrun2 & S2 & Fo2 & D3 & P3 & N3);
    [| |done| |lia|].
  { eapply fpath_ext; [|exact F2']. intros q Hq. apply N2.
    intros Hq'. by apply (Hdisj q). }
  { eapply bseg_ext; [|exact B2]. intros. rewrite P2. subst m1.
    by autorewrite with mem. }
  { intros e He. rewrite (same_data_str _ _ _ D2), (same_data_str _ _ _ D1).
    apply Hk. elems. }
  rewrite (bind_run _ _ _ _ _ Hrun2).
  pose proof S1 as (Pm1 & _). pose proof S2 as (Pm2 & _).
  assert (forall q, q ∈ r1 :: o1 <-> q ∈ x :: l1) as M1
    by (intros q; by rewrite Pm1).
  assert (forall q, q ∈ r2 :: o2 <-> q ∈ s :: c2) as M2
    by (intros q; by rewrite Pm2).
  destruct (merge_loop_run k (S fuel) o1 o2 r1 r2 m3 NULL LocalHead)
    as (o & out & m4 & Eo & Hrun & Fo & _ & D4 & P4 & N4).
  { eapply fpath_ext; [|exact Fo1]. intros q Hq. apply N3.
    intros Hq'. apply (Hdisj q); [by apply M1|done]. }
  { done. }
  { rewrite <- Pm1, <- Pm2. done. }
  { intros e He.
    rewrite (same_data_str _ _ _ D3), (same_data_str _ _ _ D2),
      (same_data_str _ _ _ D1).
    apply Hk. apply elem_of_app in He as [He|He].
    - apply M1 in He. elems.
    - apply M2 in He. elems. }
  { done. }
  { apply Permutation_length in Pm1, Pm2. simpl in *. lia. }
  exists o, out, m4. split_and!.
  - exact Hrun.
  - rewrite <- Eo. by apply (merge_list_sorted_of k Hnn (x :: l1) (s :: c2)).
  - done.
  - eauto using same_data_trans.
  - intros q. rewrite P4, P3, P2. subst m1. by autorewrite with mem.
  - intros q Hq. rewrite N4, N3, N2.
    + subst m1. rewrite nx_put_next, decide_False; [done|].
      intros ->. apply Hq. elems.
    + elems.
    + elems.
    + rewrite elem_of_app, M1, M2. elems.
    + done.
Qed.

(** *** reconnect and q_sort *)

Lemma reconnect_loop_run fuel :
  forall node rest m,
  fpath (nx m) node rest NULL -> rest <> [] -> NoDup (node :: rest) ->
  (length rest <= fuel)%nat ->
  exists m', reconnect_loop fuel node m = Done (List.last rest node) m' /\
             bseg (pv m') node rest /\
             same_data m m' /\
             (forall q, nx m' q = nx m q) /\
             (forall q, q ∉ rest -> pv m' q = pv m q).
Proof.
  induction fuel as [|fuel IH]; intros node rest m F Hne ND Hfuel.
  { destruct rest; [done|simpl in Hfuel; lia]. }
  destruct rest as [|n rest]; [done|]. destruct F as [Nn F].
  pose proof (fpath_first _ _ _ _ F) as Nn'.
  cbn [reconnect_loop]. run. set (m1 := put_prev n node m).
  destruct rest as [|n2 rest]; cbn [hd].
  - rewrite Z.eqb_refl. exists m1. subst m1. split_and!.
    + done.
    + simpl. split; [|done]. rewrite pv_put_prev, decide_True by done.
      destruct (proj1 (node_nx_pv m n) ltac:(eauto)) as [? ->]. done.
    + apply same_data_put_prev.
    + intros. by autorewrite with mem.
    + intros q Hq. rewrite pv_put_prev, decide_False; [done|]. intros ->.
      apply Hq. by left.
  - destruct (Z.eqb_spec n2 NULL) as [E|_].
    { by destruct (fpath_nonnull _ _ _ _ n2 F ltac:(elems)). }
    destruct (IH n (n2 :: rest) m1) as (m' & Hrun & B' & D' & N' & P').
    + eapply fpath_ext; [|exact F]. intros. subst m1. by autorewrite with mem.
    + done.
    + by apply NoDup_cons in ND as [_ ?].
    + simpl in *. lia.
    + exists m'. split_and!.
      * by rewrite last_cons.
      * split; [|done]. rewrite P' by (apply NoDup_cons in ND as [_ ND]; by apply NoDup_cons in ND as [? _]).
        subst m1. rewrite pv_put_prev, decide_True by done.
        destruct (proj1 (node_nx_pv m n) ltac:(eauto)) as [? ->]. done.
      * eapply same_data_trans; [apply same_data_put_prev|exact D'].
      * intros q. rewrite N'. subst m1. by autorewrite with mem.
      * intros q Hq. rewrite P' by elems. subst m1.
        rewrite pv_put_prev, decide_False; [done|]. intros ->. elems.
Qed.

Lemma reconnect_run fuel m h l :
  fpath (nx m) h l NULL -> l <> [] -> NoDup (h :: l) ->
  (length l <= fuel)%nat ->
  exists m', reconnect fuel h m = Done tt m' /\
             ring m' h l /\
             relinked (h :: l) m m'.
Proof.
  intros F Hne ND Hfuel.
  destruct (reconnect_loop_run fuel h l m F Hne ND Hfuel)
    as (m1 & Hrun & B1 & D1 & N1 & P1).
  unfold reconnect. rewrite (bind_run _ _ _ _ _ Hrun).
  set (z := List.last l h) in *.
  assert (z ∈ l) as Hz.
  { subst z. destruct l as [|y l _] using rev_ind; [done|].
    rewrite last_snoc. elems. }
  assert (z <> h) as Hzh.
  { intros E. apply NoDup_cons in ND as [ND _]. apply ND. by rewrite <- E. }
  assert (nx m1 z = Some NULL) as Nz
    by (rewrite N1; by apply fpath_last in F).
  assert (is_Some (pv m1 h)) as [ph Ph].
  { apply node_nx_pv. rewrite N1. apply fpath_first in F. eauto. }
  run. eexists. split_and!; [done| |].
  - split_and!; [done| |].
    + eapply fpath_retarget; [exact F|done| |].
      * intros q Hq Hqz. autorewrite with mem. rewrite decide_False by done.
        apply N1.
      * autorewrite with mem. rewrite decide_True by done. by rewrite Nz.
    + apply bpath_bseg. split.
      * eapply bseg_ext; [|exact B1]. intros q Hq. autorewrite with mem.
        rewrite decide_False; [done|]. intros ->.
        apply NoDup_cons in ND as [ND _]. done.
      * autorewrite with mem. rewrite decide_True by done. by rewrite Ph.
  - split.
    + eapply same_data_trans; [exact D1|].
      eapply same_data_trans; [apply same_data_put_next|apply same_data_put_prev].
    + intros q Hq. autorewrite with mem.
      rewrite !decide_False by (intros ->; elems).
      split; [apply N1|apply P1; elems].
Qed.

Lemma sorted_of_short k (l : list ptr) :
  (length l < 2)%nat -> sorted_of k l l.
Proof.
  intros Hl. split_and!; [done| |done].
  destruct l as [|x [|y l]]; [constructor|repeat constructor|simpl in Hl; lia].
Qed.

Lemma q_sort_run fuel m h l :
  ring m h l -> Forall (fun e => is_Some (str m e)) l ->
  (length l < fuel)%nat ->
  exists l' m', q_sort fuel h m = Done tt m' /\
                ring m' h l' /\
                sorted_of (key m) l l' /\
                relinked (h :: l) m m' /\
                ((length l < 2)%nat -> m' = m).
Proof.
  intros R HS Hfuel. unfold q_sort.
  rewrite (bind_run _ _ _ _ _ (trivial_queue_run _ _ _ R)).
  destruct l as [|l0 [|l1 l2]] eqn:El.
  1, 2: exists l, m; subst l; split_and!;
        [done|done|apply sorted_of_short; simpl; lia|apply relinked_refl|done].
  rewrite <- El in *. remember (l1 :: l2) as l' eqn:El'.
  pose proof R as (ND & F & B).
  pose proof (ring_pv _ _ _ R) as Ph.
  remember (List.last l h) as hp eqn:Elast.
  assert (hp ∈ l) as Hhp.
  { rewrite Elast, El. clear. destruct l' as [|? ? _] using rev_ind; [elems|].
    rewrite app_comm_cons, last_snoc. elems. }
  assert (h ∉ l) as Hh by (by apply NoDup_cons in ND as [? _]).
  assert (hp <> h) as Hne by (by intros E; rewrite E in Hhp).
  pose proof (fpath_last _ _ _ _ F) as Nhp. rewrite <- Elast in Nhp.
  pose proof (fpath_first _ _ _ _ F) as Nh. rewrite El in Nh. cbn [hd] in Nh.
  run. set (m1 := put_next hp NULL m).
  assert (same_data m m1) as D1 by apply same_data_put_next.
  assert (fpath (nx m1) h l NULL) as F1.
  { eapply fpath_retarget; [exact F|done| |].
    - intros q Hq Hqz. rewrite <- Elast in Hqz. subst m1. rewrite nx_put_next.
      by rewrite decide_False.
    - rewrite <- Elast. subst m1. rewrite nx_put_next, decide_True by done.
      by rewrite Nhp. }
  rewrite El in F1. destruct F1 as [_ F1].
  apply bpath_bseg in B as [B _]. rewrite El in B. destruct B as [_ B].
  destruct (merge_sort_run (key m) (key_nonul m) fuel l0 l' m1)
    as (r & out & m2 & Hrun & Hsort & Fo & D2 & P2 & N2).
  { done. }
  { eapply bseg_ext; [|exact B]. intros. subst m1. by autorewrite with mem. }
  { rewrite El in ND. by apply NoDup_cons in ND as [_ ?]. }
  { intros e He. rewrite (same_data_str _ _ _ D1). rewrite Forall_forall in HS.
    rewrite <- El in He. destruct (HS e He) as [s Hs]. unfold key. by rewrite Hs. }
  { rewrite El in Hfuel. subst l'. simpl in *. lia. }
  rewrite (bind_run _ _ _ _ _ Hrun). rewrite <- El in Hsort.
  pose proof Hsort as (Perm & _).
  assert (forall q, q ∈ r :: out <-> q ∈ l) as Mem by (intros q; by rewrite Perm).
  assert (nx m2 h = Some l0) as Nh2.
  { rewrite N2 by (by rewrite <- El). subst m1.
    rewrite nx_put_next, decide_False by done. done. }
  run. set (m3 := put_next h r m2).
  destruct (reconnect_run fuel m3 h (r :: out)) as (m4 & Hrec & R4 & [D4 N4]).
  { split.
    - subst m3. rewrite nx_put_next, decide_True by done. by rewrite Nh2.
    - eapply fpath_ext; [|exact Fo]. intros q Hq. subst m3.
      rewrite nx_put_next, decide_False; [done|]. intros ->. by apply Hh, Mem. }
  { done. }
  { apply NoDup_cons. split; [by rewrite Mem|].
    rewrite <- Perm. by apply NoDup_cons in ND as [_ ?]. }
  { apply Permutation_length in Perm. rewrite <- Perm. lia. }
  exists (r :: out), m4. split_and!; [done|done|done| |].
  - split.
    + eapply same_data_trans; [exact D1|].
      eapply same_data_trans; [exact D2|].
      eapply same_data_trans; [apply same_data_put_next|exact D4].
    + intros q Hq. destruct (N4 q) as [-> ->].
      { intros [->|Hq']%elem_of_cons; apply Hq; [by left|right; by apply Mem]. }
      subst m3 m1. autorewrite with mem.
      rewrite decide_False by (intros ->; elems).
      rewrite P2, (N2 q) by (rewrite <- El; elems).
      autorewrite with mem. rewrite decide_False by (intros ->; elems). done.
  - rewrite El. subst l'. simpl. lia.
Qed.

(** *** The invariant of sequences of operations *)

Lemma obj_at_same_heap m m' q : heap m' = heap m -> obj_at m' q = obj_at m q.
Proof. unfold obj_at. by intros ->. Qed.

Lemma same_heap_data m m' :
  heap m' = heap m ->
  (forall q, nx m' q = nx m q) /\ (forall q, pv m' q = pv m q) /\
  (forall q, val m' q = val m q) /\ (forall q, chars m' q = chars m q).
Proof.
  intros H. unfold nx, pv, val, chars.
  split_and!; intros q; by rewrite (obj_at_same_heap _ _ _ H).
Qed.

Lemma chars_old m0 v : heap_ok m0 -> brk m0 <= v -> chars m0 v = None.
Proof.
  intros Hok Hv. destruct (chars m0 v) eqn:E; [|done].
  apply chars_alloc, (alloc_old _ _ Hok) in E. lia.
Qed.

Lemma queue_str m h l e :
  queue m h l -> e ∈ l ->
  exists v b s, val m e = Some v /\ chars m v = Some b /\ cstr b = Some s.
Proof.
  intros (_ & HS & _) He. rewrite Forall_forall in HS.
  destruct (HS e He) as [s Hs]. apply str_inv in Hs as (v & b & ?).
  by exists v, b, s.
Qed.

(** The invariant goes over to a state with the same data and a ring of
    the same elements. *)
Lemma inv_relinked m0 m m' h l l' :
  inv m0 m h l -> same_data m m' -> ring m' h l' -> l ≡ₚ l' ->
  inv m0 m' h l'.
Proof.
  intros ((R & HS & NV) & Hok & Hok0 & Hb & Hbuf & Hstr) D R' P.
  pose proof D as [Db _ _ Dv Dc].
  split_and!; [split_and!|..]; try done.
  - rewrite <- P. eapply Forall_impl; [exact HS|]. intros e.
    by rewrite (same_data_str _ _ _ D).
  - rewrite <- P. erewrite map_ext; [exact NV|]. intros; apply Dv.
  - by eapply heap_ok_same.
  - by rewrite Db.
  - intros sp d Hd. rewrite Dc. by apply Hbuf.
  - intros e v He. rewrite Dv. apply Hstr. by rewrite P.
Qed.

Lemma inv_same_heap m0 m m' h l :
  inv m0 m h l -> heap m' = heap m -> brk m <= brk m' -> inv m0 m' h l.
Proof.
  intros ((R & HS & NV) & Hok & Hok0 & Hb & Hbuf & Hstr) H Hbrk.
  destruct (same_heap_data _ _ H) as (N & P & V & C).
  split_and!; [split_and!|..]; try done.
  - eapply ring_ext; [exact R|]. intros; by rewrite N, P.
  - eapply Forall_impl; [exact HS|]. intros e Hs.
    rewrite (str_ext m m'); [done|apply V|intros; apply C].
  - erewrite map_ext; [exact NV|]. intros; apply V.
  - destruct Hok as [H0 Hd]. split; [lia|]. rewrite H. intros k Hk.
    apply Hd in Hk. lia.
  - lia.
  - intros sp d Hd. rewrite C. by apply Hbuf.
  - intros e v He. rewrite V. by apply Hstr.
Qed.

Lemma swap_pairs_perm {A} (l : list A) : l ≡ₚ swap_pairs l.
Proof.
  assert (forall n (l : list A), (length l <= n)%nat -> l ≡ₚ swap_pairs l) as H.
  { induction n as [|n IH]; intros [|a [|b l']] Hl; simpl in *;
      try done; try lia.
    rewrite perm_swap. do 2 f_equiv. apply IH. lia. }
  by apply (H (length l)).
Qed.

Lemma inv_insert m0 m h l c S m' l' :
  inv m0 m h l -> nonul c ->
  ring m' h l' -> l' ≡ₚ brk m :: l -> relinked S (with_element c m) m' ->
  inv m0 m' h l'.
Proof.
  intros (Q & Hok & Hok0 & Hb & Hbuf & Hstr) Hc R' P [D _].
  pose proof Q as (R & HS & NV).
  destruct (with_element_views m c Hok)
    as (V & _ & _ & Ve & Cv & Hbrk & _ & _ & Hok3).
  pose proof D as [Db _ _ Dv Dc].
  assert (forall q, is_Some (obj_at m q) -> q <> brk m /\ q <> brk m + 1) as Hold.
  { intros q Hq%(alloc_old _ _ Hok). lia. }
  assert (forall e, e ∈ l ->
            exists v, val m e = Some v /\ val m' e = Some v /\
                      chars m' v = chars m v /\ is_Some (chars m v)) as Helem.
  { intros e He. destruct (queue_str _ _ _ _ Q He) as (v & b & s & Hv & Hcv & _).
    exists v. destruct (Hold e) as [? ?]; [by eapply nx_alloc, val_node|].
    destruct (Hold v) as [? ?]; [by eapply chars_alloc|].
    destruct (V e) as (_ & _ & Ev & _); [done..|].
    destruct (V v) as (_ & _ & _ & Ec); [done..|].
    rewrite Dv, Dc, Ev, Ec. eauto. }
  assert (str m' (brk m) = Some c) as Hnew.
  { unfold str. rewrite Dv, Ve. simpl. rewrite Dc, Cv. by apply cstr_app. }
  split_and!; [split_and!|..]; try done.
  - rewrite P. constructor; [eauto|].
    rewrite Forall_forall in HS |- *. intros e He.
    destruct (Helem e He) as (v & Hv & Hv' & Hcv & _).
    rewrite (str_ext m m'); [by apply HS|congruence|].
    intros v0 Hv0. congruence.
  - rewrite P. simpl. rewrite Dv, Ve. apply NoDup_cons. split.
    + intros (e & Heq & He)%list_elem_of_fmap.
      destruct (Helem e He) as (v & Hv & Hv' & _ & Hcv).
      rewrite Hv' in Heq. injection Heq as <-. destruct Hcv as [b Hcv].
      destruct (Hold (brk m + 1)) as [_ ?]; [by eapply chars_alloc|done].
    + erewrite map_ext_in; [exact NV|]. intros e He%list_elem_of_In.
      destruct (Helem e He) as (v & Hv & Hv' & _). congruence.
  - by eapply heap_ok_same.
  - rewrite Db. lia.
  - intros sp d Hd. destruct (Hbuf sp d Hd) as (d' & Hd' & Hlen).
    exists d'. split; [|done]. rewrite Dc.
    destruct (Hold sp) as [? ?]; [by eapply chars_alloc|].
    destruct (V sp) as (_ & _ & _ & ->); done.
  - intros e v He. rewrite P in He. apply elem_of_cons in He as [->|He].
    + rewrite Dv, Ve. intros [= <-]. apply chars_old; [done|lia].
    + destruct (Helem e He) as (v' & Hv & Hv' & _). rewrite Hv'.
      intros [= <-]. by eapply Hstr.
Qed.

Lemma length_copied s d bufsize :
  1 <= bufsize <= Z.of_nat (length d) ->
  length (copied s d bufsize) = length d.
Proof.
  intros H. unfold copied.
  rewrite !length_app, length_take, length_replicate. simpl.
  rewrite length_drop. lia.
Qed.

Lemma inv_remove m0 m m' h l1 x l2 sp d :
  inv m0 m h (l1 ++ x :: l2) ->
  chars m0 sp = Some d ->
  ring m' h (l1 ++ l2) -> same_but sp m m' ->
  (exists d', chars m' sp = Some d' /\ length d' = length d) ->
  inv m0 m' h (l1 ++ l2).
Proof.
  intros (Q & Hok & Hok0 & Hb & Hbuf & Hstr) Hsp R' (Sb & _ & Sd & Sv & Sc) Hout.
  pose proof Q as (R & HS & NV).
  assert (forall e, e ∈ l1 ++ l2 -> e ∈ l1 ++ x :: l2) as Hsub by (intros e; elems).
  split_and!; [split_and!|..]; try done.
  - rewrite Forall_forall in HS |- *. intros e He.
    rewrite (str_ext m m'); [by apply HS, Hsub|apply Sv|].
    intros v Hv. apply Sc. intros ->.
    rewrite (Hstr e sp (Hsub e He) Hv) in Hsp. done.
  - erewrite map_ext; [|intros; apply Sv].
    rewrite map_app in NV |- *. simpl in NV.
    by apply NoDup_mid in NV as [_ ?].
  - destruct Hok as [H0 Hd]. split; rewrite ?Sb, ?Sd; done.
  - by rewrite Sb.
  - intros q dq Hq. destruct (decide (q = sp)) as [->|Hne].
    + rewrite Hsp in Hq. injection Hq as <-. done.
    + rewrite Sc by done. by apply Hbuf.
  - intros e v He. rewrite Sv. apply Hstr. by apply Hsub.
Qed.

Lemma inv_delete m0 m m' h l1 x l2 v :
  inv m0 m h (l1 ++ x :: l2) -> val m x = Some v ->
  ring m' h (l1 ++ l2) ->
  brk m' = brk m -> dom (heap m') = dom (heap m) ∖ {[x]} ∖ {[v]} ->
  (forall q, q <> x -> q <> v -> val m' q = val m q /\ chars m' q = chars m q) ->
  inv m0 m' h (l1 ++ l2).
Proof.
  intros (Q & Hok & Hok0 & Hb & Hbuf & Hstr) Hv R' Eb Ed Hfr.
  pose proof Q as (R & HS & NV). pose proof R as (ND & _).
  assert (forall e, e ∈ l1 ++ l2 -> e ∈ l1 ++ x :: l2) as Hsub by (intros e; elems).
  assert (x ∉ l1 ++ l2) as Hx.
  { apply NoDup_cons in ND as [_ ND]. by apply NoDup_mid in ND as [? _]. }
  assert (Some v ∉ map (val m) (l1 ++ l2)) as Hvv.
  { rewrite map_app in NV |- *. simpl in NV. rewrite Hv in NV.
    by apply NoDup_mid in NV as [? _]. }
  assert (forall e, e ∈ l1 ++ l2 ->
            exists w, val m e = Some w /\ is_Some (chars m w) /\
                      e <> x /\ e <> v /\ w <> x /\ w <> v) as Helem.
  { intros e He.
    destruct (queue_str _ _ _ _ Q (Hsub e He)) as (w & b & s & Hw & Hcw & _).
    destruct (queue_str _ _ _ x Q ltac:(elems)) as (v' & bv & _ & Hv' & Hcv & _).
    assert (v' = v) as -> by congruence.
    destruct (chars_not_node _ _ _ Hcv) as (_ & _ & Vv).
    destruct (chars_not_node _ _ _ Hcw) as (_ & _ & Vw).
    exists w. split_and!; [done|eauto|..].
    - by intros ->.
    - intros ->. congruence.
    - intros ->. congruence.
    - intros ->. apply Hvv. apply list_elem_of_fmap. by exists e. }
  split_and!; [split_and!|..]; try done.
  - rewrite Forall_forall in HS |- *. intros e He.
    destruct (Helem e He) as (w & Hw & _ & ? & ? & ? & ?).
    rewrite (str_ext m m'); [by apply HS, Hsub|by apply Hfr|].
    intros w' Hw'. assert (w' = w) as -> by congruence. by apply Hfr.
  - erewrite map_ext_in.
    + rewrite map_app in NV |- *. simpl in NV. by apply NoDup_mid in NV as [_ ?].
    + intros e He%list_elem_of_In.
      destruct (Helem e He) as (w & Hw & _ & ? & ? & _). by apply Hfr.
  - destruct Hok as [H0 Hd]. split; rewrite ?Eb, ?Ed; [done|].
    intros k Hk. apply Hd. set_solver.
  - by rewrite Eb.
  - intros sp d Hd. destruct (Hbuf sp d Hd) as (d' & Hd' & Hlen).
    exists d'. split; [|done].
    destruct (chars_not_node _ _ _ Hd') as (_ & _ & Vsp).
    destruct (Hfr sp) as [_ ->]; [congruence| |done].
    intros ->. rewrite (Hstr x v) in Hd; [done|elems|done].
  - intros e w He Hw. destruct (Helem e He) as (w' & Hw' & _ & ? & ? & _).
    destruct (Hfr e) as [Ev _]; [done..|]. rewrite Ev in Hw.
    by eapply Hstr; [apply Hsub|].
Qed.

Lemma bind_assoc {A B C} (c : M A) (k1 : A -> M B) (k2 : B -> M C) m :
  bind (bind c k1) k2 m = bind c (fun x => bind (k1 x) k2) m.
Proof. unfold bind. by destruct (c m). Qed.

Lemma q_new_run m0 :
  heap_ok m0 ->
  q_new m0 =
  if fails (faults m0) then Done NULL (refuse m0)
  else Done (brk m0)
         (put_prev (brk m0) (brk m0)
            (put_next (brk m0) (brk m0)
               (alloc (OHead (ListHead NULL NULL)) m0))).
Proof.
  intros Hok. pose proof Hok as [H0 _]. unfold q_new, INIT_LIST_HEAD.
  unfold bind at 1. rewrite malloc_run. destruct (fails (faults m0)); [done|].
  rewrite (heap_ok_brk _ Hok).
  assert (nx (alloc (OHead (ListHead NULL NULL)) m0) (brk m0) = Some NULL) as N.
  { rewrite nx_alloc_view by done. by rewrite decide_True. }
  rewrite bind_assoc. by run.
Qed.

Lemma q_new_inv m0 h m1 :
  heap_ok m0 -> q_new m0 = Done h m1 -> h <> NULL -> inv m0 m1 h [].
Proof.
  intros Hok. pose proof Hok as [H0 _]. rewrite (q_new_run _ Hok).
  destruct (fails (faults m0)); intros [= <- <-] Hh; [done|].
  set (ma := alloc _ m0).
  assert (nx ma (brk m0) = Some NULL) as N.
  { subst ma. rewrite nx_alloc_view by done. by rewrite decide_True. }
  assert (pv ma (brk m0) = Some NULL) as P.
  { subst ma. rewrite pv_alloc_view by done. by rewrite decide_True. }
  assert (heap_ok ma) as Hoka by (by apply heap_ok_alloc).
  split_and!; [split_and!; [split_and!|..]|..].
  - apply NoDup_singleton.
  - simpl. autorewrite with mem. rewrite decide_True by done. by rewrite N.
  - simpl. autorewrite with mem. rewrite decide_True by done. by rewrite P.
  - constructor.
  - constructor.
  - destruct Hoka. split; autorewrite with mem; done.
  - done.
  - autorewrite with mem. simpl. lia.
  - intros sp d Hd. exists d. split; [|done]. autorewrite with mem.
    subst ma. rewrite chars_alloc_view by done. rewrite decide_False; [done|].
    intros ->. apply chars_alloc, (alloc_old _ _ Hok) in Hd. lia.
  - by intros e v ?%elem_of_nil.
Qed.

Lemma q_delete_mid_short fuel m h l :
  ring m h l -> (length l < 2)%nat -> q_delete_mid fuel h m = Done false m.
Proof.
  intros R Hl. unfold q_delete_mid.
  rewrite (bind_run _ _ _ _ _ (trivial_queue_run _ _ _ R)).
  destruct l as [|? [|? ?]]; [done|done|simpl in Hl; lia].
Qed.

Lemma run_op_inv m0 m h l fuel o :
  inv m0 m h l -> valid_op m0 o -> (length l < fuel)%nat ->
  exists m' l', run_op fuel h o m = Done tt m' /\ inv m0 m' h l' /\
                (length l' <= S (length l))%nat.
Proof.
  intros I Hv Hfuel. pose proof I as (Q & Hok & Hok0 & Hb & Hbuf & Hstr).
  pose proof Q as (R & HS & NV).
  assert (h <> NULL) as Hh by (eapply ring_nonnull; [exact R|by left]).
  destruct o as [s|s|sp n|sp n| | | |]; simpl in Hv |- *.
  - (* q_insert_head *)
    destruct Hv as [c Hc]. pose proof (cstr_inv _ _ Hc) as [Hnn _].
    destruct (fails (faults m)) eqn:F1;
      [|destruct (fails (tail (faults m))) eqn:F2].
    1, 2: destruct (insert_with_refused list_add h s m c) as (m' & Hrun);
          [done|done|done|by auto|];
          rewrite q_insert_head_eq, (bind_run _ _ _ _ _ Hrun);
          destruct (insert_with_false _ _ _ _ _ Hok Hrun) as [Hheap Hbrk];
          exists m', l; split_and!; [done|by eapply inv_same_heap|lia].
    destruct (q_insert_head_run m h l s c R Hok Hc F1 F2) as (m' & Hrun & R' & Hrel).
    rewrite (bind_run _ _ _ _ _ Hrun). exists m', (brk m :: l).
    split_and!; [done|by eapply inv_insert|simpl; lia].
  - (* q_insert_tail *)
    destruct Hv as [c Hc]. pose proof (cstr_inv _ _ Hc) as [Hnn _].
    destruct (fails (faults m)) eqn:F1;
      [|destruct (fails (tail (faults m))) eqn:F2].
    1, 2: destruct (insert_with_refused list_add_tail h s m c) as (m' & Hrun);
          [done|done|done|by auto|];
          rewrite q_insert_tail_eq, (bind_run _ _ _ _ _ Hrun);
          destruct (insert_with_false _ _ _ _ _ Hok Hrun) as [Hheap Hbrk];
          exists m', l; split_and!; [done|by eapply inv_same_heap|lia].
    destruct (q_insert_tail_run m h l s c R Hok Hc F1 F2) as (m' & Hrun & R' & Hrel).
    rewrite (bind_run _ _ _ _ _ Hrun). exists m', (l ++ [brk m]).
    split_and!; [done| |rewrite length_app; simpl; lia].
    eapply inv_insert; [done..| |done].
    by rewrite <- Permutation_cons_append.
  - (* q_remove_head *)
    destruct Hv as (d & Hd & Hn & Hmax).
    destruct l as [|x l].
    { rewrite (bind_run _ _ _ _ _ (q_remove_head_empty _ _ sp n R)).
      exists m, []. split_and!; [done|done|simpl; lia]. }
    destruct (queue_str _ _ _ x Q ltac:(by left)) as (v & bv & sv & Hxv & Hcv & Hsv).
    destruct (Hbuf sp d Hd) as (d' & Hd' & Hlen).
    destruct (remove_at_run m h [] x l sp d' v bv sv n R Hxv Hcv Hsv Hd')
      as (m' & Hrun & R' & Hsb & Hout & _); [|lia|done|].
    { intros ->. rewrite (Hstr x v) in Hd; [done|by left|done]. }
    rewrite <- (q_remove_head_at _ _ _ _ _ _ R) in Hrun.
    rewrite (bind_run _ _ _ _ _ Hrun).
    exists m', l. split_and!; [done| |simpl; lia].
    apply (inv_remove m0 m m' h [] x l sp d); try done.
    eexists. split; [exact Hout|]. rewrite length_copied by lia. done.
  - (* q_remove_tail *)
    destruct Hv as (d & Hd & Hn & Hmax).
    destruct l as [|x l _] using rev_ind.
    { rewrite (bind_run _ _ _ _ _ (q_remove_tail_empty _ _ sp n R)).
      exists m, []. split_and!; [done|done|simpl; lia]. }
    destruct (queue_str _ _ _ x Q ltac:(elems)) as (v & bv & sv & Hxv & Hcv & Hsv).
    destruct (Hbuf sp d Hd) as (d' & Hd' & Hlen).
    destruct (remove_at_run m h l x [] sp d' v bv sv n R Hxv Hcv Hsv Hd')
      as (m' & Hrun & R' & Hsb & Hout & _); [|lia|done|].
    { intros ->. rewrite (Hstr x v) in Hd; [done|elems|done]. }
    rewrite <- (q_remove_tail_at _ _ _ _ _ _ R) in Hrun.
    rewrite (bind_run _ _ _ _ _ Hrun).
    exists m', l. split_and!; [done| |rewrite length_app; simpl; lia].
    rewrite <- (app_nil_r l).
    apply (inv_remove m0 m m' h l x [] sp d); try done.
    eexists. split; [exact Hout|]. rewrite length_copied by lia. done.
  - (* q_delete_mid *)
    destruct (decide (length l < 2)%nat) as [Hs|Hs].
    { rewrite (bind_run _ _ _ _ _ (q_delete_mid_short fuel _ _ _ R Hs)).
      exists m, l. split_and!; [done|done|lia]. }
    destruct (q_delete_mid_run fuel m h l Q) as
      (l1 & x & l2 & v & m' & El & _ & Hxv & Hrun & R' & Eb & _ & Ed & _ & _ & Hfr);
      [lia|done|].
    rewrite (bind_run _ _ _ _ _ Hrun). exists m', (l1 ++ l2).
    split_and!; [done| |subst l; rewrite !length_app; simpl; lia].
    subst l. by eapply inv_delete.
  - (* q_swap *)
    destruct (q_swap_run fuel m h l R Hfuel) as (m' & Hrun & R' & [D _] & _).
    exists m', (swap_pairs l). split_and!; [done| |].
    + eapply inv_relinked; [done..|apply swap_pairs_perm].
    + rewrite <- (Permutation_length (swap_pairs_perm l)). lia.
  - (* q_reverse *)
    destruct (q_reverse_run fuel m h l R Hfuel) as (m' & Hrun & Mi & _).
    exists m', (rev l). split_and!; [done| |rewrite length_rev; lia].
    eapply inv_relinked; [done|by destruct Mi|by eapply mirrored_ring|].
    apply Permutation_rev.
  - (* q_sort *)
    destruct (q_sort_run fuel m h l R HS Hfuel)
      as (l' & m' & Hrun & R' & (P & _) & [D _] & _).
    exists m', l'. split_and!; [done| |].
    + by eapply inv_relinked.
    + rewrite <- (Permutation_length P). lia.
Qed.

Lemma run_ops_inv m0 h fuel os :
  Forall (valid_op m0) os ->
  forall m l, inv m0 m h l -> (length l + length os < fuel)%nat ->
  exists m' l', run_ops fuel h os m = Done tt m' /\ inv m0 m' h l'.
Proof.
  induction 1 as [|o os Hv _ IH]; intros m l I Hfuel.
  - by exists m, l.
  - simpl in Hfuel.
    destruct (run_op_inv m0 m h l fuel o I Hv) as (m1 & l1 & Hrun & I1 & Hlen);
      [lia|].
    destruct (IH m1 l1 I1) as (m' & l' & Hrun' & I'); [lia|].
    exists m', l'. split; [|done]. simpl.
    by rewrite (bind_run _ _ _ _ _ Hrun).
Qed.

Lemma ring_consistent m h l n : ring m h l -> n ∈ h :: l -> consistent m n.
Proof.
  intros R Hn. assert (exists l1 l2, h :: l = l1 ++ n :: l2) as (l1 & l2 & E)
    by (by apply list_elem_of_split).
  assert (exists c, ring m n c) as [c Rn].
  { destruct l1 as [|h' l1]; simplify_eq/=; [by eexists|].
    apply ring_rot in R. by eexists. }
  destruct Rn as (_ & F & B). split.
  - exists (hd n c). split; [by apply fpath_first in F|by apply bpath_first in B].
  - exists (List.last c n). split; [by apply bpath_last in B|by apply fpath_last in F].
Qed.

(** *** The example memories *)

Lemma heap_ok_check m :
  0 < brk m -> map_Forall (fun k _ => 0 < k < brk m) (heap m) -> heap_ok m.
Proof.
  intros H0 H. split; [done|]. intros k [o Hk]%elem_of_dom. by apply (H k o).
Qed.

Ltac check_nodup := apply (bool_decide_unpack _); by vm_compute.
Ltac check_path := repeat split; vm_compute; reflexivity.
Ltac check_heap_ok :=
  apply heap_ok_check; [done|apply (bool_decide_unpack _); by vm_compute].

Lemma ex5_ring : ring ex5 1 [2; 4; 6; 8; 10].
Proof. split_and!; [check_nodup|check_path|check_path]. Defined.

Lemma ex5_queue : queue ex5 1 [2; 4; 6; 8; 10].
Proof.
  split_and!; [exact ex5_ring| |check_nodup].
  repeat constructor; vm_compute; eauto.
Defined.

Lemma ex5_buf_queue : queue ex5_buf 1 [2; 4; 6; 8; 10].
Proof.
  split_and!; [split_and!; [check_nodup|check_path|check_path]| |check_nodup].
  repeat constructor; vm_compute; eauto.
Defined.

Lemma ex5_refusing_queue : queue ex5_refusing 1 [2; 4; 6; 8; 10].
Proof.
  split_and!; [split_and!; [check_nodup|check_path|check_path]| |check_nodup].
  repeat constructor; vm_compute; eauto.
Defined.

Lemma ex6_queue : queue ex6 1 [2; 4; 6; 8; 10; 12].
Proof.
  split_and!; [split_and!; [check_nodup|check_path|check_path]| |check_nodup].
  repeat constructor; vm_compute; eauto.
Defined.

Lemma ex5_ok : heap_ok ex5.
Proof. check_heap_ok. Defined.

Lemma ex5_buf_ok : heap_ok ex5_buf.
Proof. check_heap_ok. Defined.

Lemma ex5_refusing_ok : heap_ok ex5_refusing.
Proof. check_heap_ok. Defined.

Lemma ex_caller_ok : heap_ok ex_caller.
Proof. check_heap_ok. Defined.

Lemma ex_ops_valid : Forall (valid_op ex_caller) ex_ops.
Proof.
  unfold ex_ops. repeat apply Forall_cons_2; try apply Forall_nil; simpl;
    try done; try (vm_compute; eauto; fail).
  all: exists (replicate 8 x01); split_and!; [vm_compute; reflexivity|..];
       vm_compute; congruence.
Defined.

(** *** Queues under the operations *)

Lemma queue_relinked m m' h l l' :
  queue m h l -> same_data m m' -> ring m' h l' -> l ≡ₚ l' -> queue m' h l'.
Proof.
  intros (R & HS & NV) D R' P. pose proof D as [_ _ _ Dv _].
  split_and!; [done| |].
  - rewrite <- P. eapply Forall_impl; [exact HS|]. intros e.
    by rewrite (same_data_str _ _ _ D).
  - rewrite <- P. erewrite map_ext; [exact NV|]. intros; apply Dv.
Qed.

Lemma queue_same_heap m m' h l :
  queue m h l -> heap m' = heap m -> queue m' h l.
Proof.
  intros (R & HS & NV) H.
  destruct (same_heap_data _ _ H) as (N & P & V & C).
  split_and!.
  - eapply ring_ext; [exact R|]. intros; by rewrite N, P.
  - eapply Forall_impl; [exact HS|]. intros e Hs.
    rewrite (str_ext m m'); [done|apply V|intros; apply C].
  - erewrite map_ext; [exact NV|]. intros; apply V.
Qed.

Lemma queue_delete m m' h l1 x l2 v :
  queue m h (l1 ++ x :: l2) -> val m x = Some v ->
  ring m' h (l1 ++ l2) ->
  (forall q, q <> x -> q <> v -> val m' q = val m q /\ chars m' q = chars m q) ->
  queue m' h (l1 ++ l2) /\
  forall e, e ∈ l1 ++ l2 -> str m' e = str m e.
Proof.
  intros Q Hv R' Hfr.
  pose proof Q as (R & HS & NV). pose proof R as (ND & _).
  assert (forall e, e ∈ l1 ++ l2 -> e ∈ l1 ++ x :: l2) as Hsub by (intros e; elems).
  assert (Some v ∉ map (val m) (l1 ++ l2)) as Hvv.
  { rewrite map_app in NV |- *. simpl in NV. rewrite Hv in NV.
    by apply NoDup_mid in NV as [? _]. }
  assert (x ∉ l1 ++ l2) as Hx.
  { apply NoDup_cons in ND as [_ ND]. by apply NoDup_mid in ND as [? _]. }
  assert (forall e, e ∈ l1 ++ l2 ->
            exists w, val m e = Some w /\
                      e <> x /\ e <> v /\ w <> x /\ w <> v) as Helem.
  { intros e He.
    destruct (queue_str _ _ _ _ Q (Hsub e He)) as (w & b & s & Hw & Hcw & _).
    destruct (queue_str _ _ _ x Q ltac:(elems)) as (v' & bv & _ & Hv' & Hcv & _).
    assert (v' = v) as -> by congruence.
    destruct (chars_not_node _ _ _ Hcv) as (_ & _ & Vv).
    destruct (chars_not_node _ _ _ Hcw) as (_ & _ & Vw).
    exists w. split_and!; [done|..].
    - by intros ->.
    - intros ->. congruence.
    - intros ->. congruence.
    - intros ->. apply Hvv. apply list_elem_of_fmap. by exists e. }
  assert (forall e, e ∈ l1 ++ l2 -> str m' e = str m e) as Hstr.
  { intros e He. destruct (Helem e He) as (w & Hw & ? & ? & ? & ?).
    apply str_ext; [by apply Hfr|].
    intros w' Hw'. assert (w' = w) as -> by congruence. by apply Hfr. }
  split; [|done]. split_and!; [done| |].
  - rewrite Forall_forall in HS |- *. intros e He.
    rewrite Hstr by done. by apply HS, Hsub.
  - erewrite map_ext_in.
    + rewrite map_app in NV |- *. simpl in NV. by apply NoDup_mid in NV as [_ ?].
    + intros e He%list_elem_of_In.
      destruct (Helem e He) as (w & Hw & ? & ? & _). by apply Hfr.
Qed.

Lemma swap_pairs_length {A} (l : list A) : length (swap_pairs l) = length l.
Proof. symmetry. apply Permutation_length, swap_pairs_perm. Qed.

Lemma swap_pairs_lookup {A} (l : list A) i :
  (2 * i + 1 < length l)%nat ->
  swap_pairs l !! (2 * i)%nat = l !! (2 * i + 1)%nat /\
  swap_pairs l !! (2 * i + 1)%nat = l !! (2 * i)%nat.
Proof.
  revert l. induction i as [|i IH]; intros [|a [|b l]] Hl; simpl in Hl;
    try lia; [done|].
  replace (2 * S i)%nat with (S (S (2 * i))) by lia.
  replace (S (S (2 * i)) + 1)%nat with (S (S (2 * i + 1))) by lia.
  simpl. apply IH. lia.
Qed.

Lemma swap_pairs_odd {A} (l : list A) j :
  length l = (2 * j + 1)%nat ->
  swap_pairs l !! (2 * j)%nat = l !! (2 * j)%nat.
Proof.
  revert l. induction j as [|j IH]; intros [|a [|b l]] Hl; simpl in Hl;
    try lia; try done.
  replace (2 * S j)%nat with (S (S (2 * j))) by lia.
  simpl. apply IH. lia.
Qed.

Lemma replicate_cons_app {A} (x : A) n t :
  replicate n x ++ x :: t = x :: replicate n x ++ t.
Proof. induction n as [|n IH]; simpl; [done|]. by rewrite IH. Qed.

(** A removal with a null buffer faults at the copy, whatever the
    sizes. *)
Lemma remove_at_null_faults m x v bufsize :
  val m x = Some v -> remove_at x NULL bufsize m = Fault.
Proof. intros Hv. unfold remove_at. by run. Qed.

(** *** q_free and the removals with a null buffer *)

Lemma node_no_chars m p : is_Some (nx m p) -> chars m p = None.
Proof. unfold nx, chars. destruct (obj_at m p) as [[]|]; by intros [? ?]. Qed.

Lemma q_free_loop_run h fuel :
  forall rest m,
  ring m h rest -> (length rest < fuel)%nat ->
  exists m', q_free_loop fuel h (hd h rest) (hd h (tail rest)) m = Done tt m' /\
             ring m' h [] /\
             (forall q, chars m' q = chars m q) /\
             dom (heap m') = dom (heap m) ∖ list_to_set rest.
Proof.
  induction fuel as [|fuel IH]; intros rest m R Hfuel; [lia|].
  pose proof R as (ND & _). cbn [q_free_loop].
  destruct rest as [|x r]; cbn [hd tail].
  { rewrite Z.eqb_refl. exists m. split_and!; [done|done|done|set_solver]. }
  destruct (Z.eqb_spec x h) as [->|_]; [by nd|].
  assert (is_Some (nx m x)) as Nx by (eapply ring_node; [exact R|elems]).
  destruct (ring_del m h [] x r R) as [Hdel R1]. cbn [List.last app] in Hdel, R1.
  rewrite (bind_run _ _ _ _ _ Hdel). set (m1 := put_next _ _ _) in *.
  erewrite (bind_run (free x)).
  2:{ apply free_run, nx_alloc. subst m1. destruct Nx as [? Nx].
      autorewrite with mem. case_decide; subst; rewrite Nx; simpl; eauto. }
  set (m2 := release x m1).
  assert (ring m2 h r) as R2.
  { eapply ring_ext; [exact R1|]. intros q Hq. subst m2.
    autorewrite with mem. rewrite !decide_False; [done|intros ->; by nd..]. }
  assert (nx m2 (hd h r) = Some (hd h (tail r))) as Ns.
  { destruct r as [|y r']; cbn [hd tail]; [by apply ring_nx in R2|].
    by apply (ring_nx_at m2 h [] y r'). }
  rewrite (bind_run _ _ _ _ _ (get_next_run _ _ _ Ns)).
  destruct (IH r m2 R2) as (m' & Hrun & R' & Hc & Hd); [simpl in Hfuel; lia|].
  exists m'. split_and!; [done|done| |].
  - intros q. rewrite Hc. subst m2 m1. autorewrite with mem.
    case_decide; [|done]. subst. symmetry. by apply node_no_chars.
  - rewrite Hd. subst m2 m1. autorewrite with mem. set_solver.
Qed.

(** [q_free] frees the sentinel and the elements and nothing else: every
    array of bytes, the strings of the elements too, is as it was. *)
Lemma q_free_run fuel m h l :
  ring m h l -> (length l < fuel)%nat ->
  exists m', q_free fuel h m = Done tt m' /\
             (forall q, chars m' q = chars m q) /\
             dom (heap m') = dom (heap m) ∖ list_to_set (h :: l).
Proof.
  intros R Hfuel. unfold q_free, list_first_entry.
  rewrite (bind_run _ _ _ _ _ (get_next_run _ _ _ (ring_nx _ _ _ R))).
  assert (nx m (hd h l) = Some (hd h (tail l))) as Ns.
  { destruct l as [|y r']; cbn [hd tail]; [by apply ring_nx in R|].
    by apply (ring_nx_at m h [] y r'). }
  rewrite (bind_run _ _ _ _ _ (get_next_run _ _ _ Ns)).
  destruct (q_free_loop_run h fuel l m R Hfuel) as (m' & Hrun & R' & Hc & Hd).
  rewrite (bind_run _ _ _ _ _ Hrun).
  assert (is_Some (nx m' h)) as Nh by (eapply ring_node; [exact R'|by left]).
  rewrite (free_run _ _ (nx_alloc _ _ Nh)).
  eexists. split_and!; [done| |].
  - intros q. rewrite chars_release, Hc. case_decide; [|done]. subst.
    by rewrite <- Hc, node_no_chars.
  - rewrite dom_release, Hd. set_solver.
Qed.

Lemma q_remove_head_null_faults m h x l v bufsize :
  ring m h (x :: l) -> val m x = Some v ->
  q_remove_head h NULL bufsize m = Fault.
Proof.
  intros R Hv. rewrite (q_remove_head_at _ _ _ _ _ _ R).
  by eapply remove_at_null_faults.
Qed.

Lemma q_remove_tail_null_faults m h x l v bufsize :
  ring m h (l ++ [x]) -> val m x = Some v ->
  q_remove_tail h NULL bufsize m = Fault.
Proof.
  intros R Hv. rewrite (q_remove_tail_at _ _ _ _ _ _ R).
  by eapply remove_at_null_faults.
Qed.

(** ** The claims *)

(** C1.  Every sequence of valid operations (insert at head or tail,
    remove at head or tail, delete the middle, swap, reverse, sort) on a
    freshly created queue runs to its end, with enough fuel for the
    loops, and leaves a ring: [next] leads from the sentinel through the
    elements back to the sentinel, [prev] the other way, and every node
    [n] of it, the sentinel too, has [n.next.prev == n] and
    [n.prev.next == n]. *)
Theorem ops_keep_ring (m0 : mem) (os : list op) (fuel : nat) :
  heap_ok m0 -> fails (faults m0) = false ->
  Forall (valid_op m0) os -> (length os < fuel)%nat ->
  exists h m1 m l,
    q_new m0 = Done h m1 /\ h <> NULL /\
    run_ops fuel h os m1 = Done tt m /\
    ring m h l /\
    forall n, n ∈ h :: l -> consistent m n.
Proof.
  intros Hok F Hv Hfuel. pose proof (q_new_run _ Hok) as Hnew.
  rewrite F in Hnew.
  assert (brk m0 <> NULL) as Hh by (destruct Hok; unfold NULL; lia).
  pose proof (q_new_inv _ _ _ Hok Hnew Hh) as I.
  destruct (run_ops_inv m0 (brk m0) fuel os Hv _ [] I) as (m & l & Hrun & I');
    [simpl; lia|].
  destruct I' as ((R & _) & _).
  eexists _, _, m, l. split_and!; [exact Hnew|done|done|done|].
  intros n Hn. by eapply ring_consistent.
Qed.

Lemma ops_keep_ring_witness :
  heap_ok ex_caller /\ fails (faults ex_caller) = false /\
  Forall (valid_op ex_caller) ex_ops /\ (length ex_ops < 12)%nat /\
  exists h m1 m l,
    q_new ex_caller = Done h m1 /\ h <> NULL /\
    run_ops 12 h ex_ops m1 = Done tt m /\
    ring m h l /\
    forall n, n ∈ h :: l -> consistent m n.
Proof.
  split_and!; [exact ex_caller_ok|reflexivity|exact ex_ops_valid|simpl; lia|].
  apply (ops_keep_ring ex_caller ex_ops 12);
    [exact ex_caller_ok|reflexivity|exact ex_ops_valid|simpl; lia].
Defined.

(** C2.  [q_sort] leaves the elements of the queue in ascending order of
    their strings, compared byte by byte as [strcmp] does; the new order
    is a permutation of the old one in which elements with equal strings
    are in the order they had; nothing is allocated or freed and no
    string changes; a null queue, an empty one and one of a single
    element are left as they are. *)
Theorem q_sort_sorts (fuel : nat) (m : mem) (h : ptr) (l : list ptr) :
  queue_at m h l -> (length l < fuel)%nat ->
  exists l' m',
    q_sort fuel h m = Done tt m' /\
    queue_at m' h l' /\
    l ≡ₚ l' /\ ascending (key m) l' /\ stable (key m) l l' /\
    same_data m m' /\
    ((length l < 2)%nat -> l' = l /\ m' = m).
Proof.
  intros [[-> ->]|Q] Hfuel.
  { exists [], m.
    split_and!; try done;
      first [by left|by constructor|apply same_data_refl]. }
  pose proof Q as (R & HS & _).
  destruct (q_sort_run fuel m h l R HS Hfuel)
    as (l' & m' & Hrun & R' & (P & A & St) & [D _] & Hshort).
  exists l', m'. split_and!; try done.
  - right. by eapply queue_relinked.
  - intros Hl. split; [|by apply Hshort].
    destruct l as [|x [|y l]]; simpl in Hl; [| |lia].
    + by apply Permutation_nil_l in P.
    + by apply Permutation_singleton_l in P.
Qed.

Lemma q_sort_sorts_witness :
  queue_at ex5 1 [2; 4; 6; 8; 10] /\ (length [2; 4; 6; 8; 10] < 6)%nat /\
  exists l' m',
    q_sort 6 1 ex5 = Done tt m' /\
    queue_at m' 1 l' /\
    [2; 4; 6; 8; 10] ≡ₚ l' /\ ascending (key ex5) l' /\
    stable (key ex5) [2; 4; 6; 8; 10] l' /\
    same_data ex5 m' /\
    ((length [2; 4; 6; 8; 10] < 2)%nat -> l' = [2; 4; 6; 8; 10] /\ m' = ex5).
Proof.
  split_and!; [right; exact ex5_queue|simpl; lia|].
  apply (q_sort_sorts 6 ex5 1 [2; 4; 6; 8; 10]);
    [right; exact ex5_queue|simpl; lia].
Defined.

(** C3.  On a queue of [n >= 2] elements [q_delete_mid] returns true and
    unlinks the element at index [n / 2], counting from 0 (for [n = 6],
    index 3); that element and its string are deallocated, and nothing
    else is; the other elements stay, in the order and with the strings
    they had.  On a null queue, an empty one and one of a single element
    it returns false and changes nothing. *)
Theorem q_delete_mid_deletes_middle (fuel : nat) (m : mem) (h : ptr)
    (l : list ptr) :
  queue_at m h l -> (length l < fuel)%nat ->
  ((length l < 2)%nat -> q_delete_mid fuel h m = Done false m) /\
  ((2 <= length l)%nat ->
   exists x v m',
     l !! (length l / 2)%nat = Some x /\ val m x = Some v /\
     q_delete_mid fuel h m = Done true m' /\
     queue m' h (delete (length l / 2)%nat l) /\
     dom (heap m') = dom (heap m) ∖ {[x]} ∖ {[v]} /\
     obj_at m' x = None /\ obj_at m' v = None /\
     forall e, e ∈ delete (length l / 2)%nat l -> str m' e = str m e).
Proof.
  intros [[-> ->]|Q] Hfuel.
  { split; [done|simpl; lia]. }
  pose proof Q as (R & _). split.
  { intros Hl. by eapply q_delete_mid_short. }
  intros Hl.
  destruct (q_delete_mid_run fuel m h l Q Hl Hfuel) as
    (l1 & x & l2 & v & m' & El & Hlen & Hxv & Hrun & R' & _ & _ & Ed & Hx & Hv & Hfr).
  rewrite <- Hlen. subst l. rewrite delete_middle.
  destruct (queue_delete m m' h l1 x l2 v Q Hxv R' Hfr) as [Q' Hstr].
  exists x, v, m'. split_and!; try done.
  by apply list_lookup_middle.
Qed.

Lemma q_delete_mid_deletes_middle_witness :
  queue_at ex6 1 [2; 4; 6; 8; 10; 12] /\
  (length [2; 4; 6; 8; 10; 12] < 7)%nat /\
  (2 <= length [2; 4; 6; 8; 10; 12])%nat /\
  exists x v m',
    [2; 4; 6; 8; 10; 12] !! 3%nat = Some x /\ val ex6 x = Some v /\
    q_delete_mid 7 1 ex6 = Done true m' /\
    queue m' 1 [2; 4; 6; 10; 12] /\
    dom (heap m') = dom (heap ex6) ∖ {[x]} ∖ {[v]} /\
    obj_at m' x = None /\ obj_at m' v = None /\
    forall e, e ∈ [2; 4; 6; 10; 12] -> str m' e = str ex6 e.
Proof.
  split_and!; [right; exact ex6_queue|simpl; lia|simpl; lia|].
  apply (q_delete_mid_deletes_middle 7 ex6 1 [2; 4; 6; 8; 10; 12]);
    [right; exact ex6_queue|simpl; lia|simpl; lia].
Defined.

(** C4, at the sorted queue a a b: [q_delete_dup] returns true and the
    memory is as it was, the two elements a still in the queue. *)
Theorem q_delete_dup_removes_nothing :
  map (str ex3) [2; 4; 6] = [Some (String.list_byte_of_string "a"); Some (String.list_byte_of_string "a"); Some (String.list_byte_of_string "b")] /\
  q_delete_dup 1 ex3 = Done true ex3 /\
  forall h m, q_delete_dup h m = Done true m.
Proof. split_and!; [by vm_compute|done|done]. Qed.

(** C5, at the queue b a c a b: with a null [sp] both removals fault,
    at the copy, before any element is unlinked. *)
Theorem q_remove_null_sp_faults :
  q_remove_head 1 NULL 8 ex5 = Fault /\
  q_remove_tail 1 NULL 8 ex5 = Fault.
Proof. split; by vm_compute. Qed.

(** C6, at the queue b a c a b: after [q_free] the sentinel and the five
    elements are freed and the five strings are still allocated. *)
Theorem q_free_leaks_strings :
  q_free 6 1 ex5 =
  Done tt
    (Mem (list_to_map
            [(3, OChars (lit "b")); (5, OChars (lit "a"));
             (7, OChars (lit "c")); (9, OChars (lit "a"));
             (11, OChars (lit "b"))])
         12 []).
Proof. by vm_compute. Qed.

(** C7.  Round trip: when [q_insert_head] of the string [c] succeeds and
    [q_remove_head] follows with a buffer of [bufsize > len(c)] bytes,
    the removal returns the element just inserted and the buffer starts
    with the bytes of [c] and the null byte that ends them; the queue is
    as it was before the insertion. *)
Theorem insert_remove_roundtrip (m : mem) (h : ptr) (l : list ptr)
    (s c : list byte) (sp : ptr) (d : list byte) (bufsize : Z) :
  ring m h l -> heap_ok m -> cstr s = Some c ->
  fails (faults m) = false -> fails (tail (faults m)) = false ->
  chars m sp = Some d ->
  Z.of_nat (length c) < bufsize <= Z.of_nat (length d) ->
  bufsize < size_max ->
  exists m1 e m2 rest,
    q_insert_head h s m = Done true m1 /\
    q_remove_head h sp bufsize m1 = Done e m2 /\
    e <> NULL /\ str m1 e = Some c /\
    chars m2 sp = Some (c ++ x00 :: rest) /\
    length (c ++ x00 :: rest) = length d /\
    ring m2 h l.
Proof.
  intros R Hok Hc F1 F2 Hd Hbuf Hmax.
  destruct (q_insert_head_run m h l s c R Hok Hc F1 F2)
    as (m1 & Hins & R1 & [D1 _]).
  destruct (with_element_views m c Hok) as (V & _ & _ & Ve & Cv & _).
  pose proof D1 as [_ _ _ Dv Dc].
  pose proof (cstr_inv _ _ Hc) as [Hnn _].
  assert (chars m1 sp = Some d) as Hd1.
  { rewrite Dc. pose proof (alloc_old _ _ Hok (chars_alloc _ _ _ Hd)).
    destruct (V sp) as (_ & _ & _ & ->); [lia..|done]. }
  assert (val m1 (brk m) = Some (brk m + 1)) as Hv1 by (by rewrite Dv).
  assert (chars m1 (brk m + 1) = Some (c ++ [x00])) as Hc1 by (by rewrite Dc).
  destruct (remove_at_run m1 h [] (brk m) l sp d (brk m + 1) (c ++ [x00]) c
              bufsize R1 Hv1 Hc1)
    as (m2 & Hrun & R2 & _ & Hout & _); [by apply cstr_app|done| |lia|done|].
  { intros ->. pose proof (alloc_old _ _ Hok (chars_alloc _ _ _ Hd)). lia. }
  rewrite <- (q_remove_head_at _ _ _ _ _ _ R1) in Hrun.
  set (n := Z.to_nat (bufsize - 1)).
  exists m1, (brk m), m2, (replicate (n - length c) x00 ++ drop (S n) d).
  split_and!; [done|done| | | | |done].
  - destruct Hok. unfold NULL. lia.
  - unfold str. rewrite Hv1, Hc1. by apply cstr_app.
  - rewrite Hout. unfold copied. fold n. rewrite take_ge by lia.
    by rewrite replicate_cons_app.
  - rewrite <- (length_copied c d bufsize) by lia. unfold copied. fold n.
    rewrite take_ge by lia. by rewrite replicate_cons_app.
Qed.

Lemma insert_remove_roundtrip_witness :
  ring ex5_buf 1 [2; 4; 6; 8; 10] /\ heap_ok ex5_buf /\
  cstr (lit "xyz") = Some (String.list_byte_of_string "xyz") /\
  fails (faults ex5_buf) = false /\ fails (tail (faults ex5_buf)) = false /\
  chars ex5_buf 12 = Some (replicate 8 x01) /\
  Z.of_nat (length (String.list_byte_of_string "xyz")) < 8
    <= Z.of_nat (length (replicate 8 x01)) /\
  8 < size_max /\
  exists m1 e m2 rest,
    q_insert_head 1 (lit "xyz") ex5_buf = Done true m1 /\
    q_remove_head 1 12 8 m1 = Done e m2 /\
    e <> NULL /\ str m1 e = Some (String.list_byte_of_string "xyz") /\
    chars m2 12 = Some (String.list_byte_of_string "xyz" ++ x00 :: rest) /\
    length (String.list_byte_of_string "xyz" ++ x00 :: rest) =
      length (replicate 8 x01) /\
    ring m2 1 [2; 4; 6; 8; 10].
Proof.
  assert (ring ex5_buf 1 [2; 4; 6; 8; 10]) as R by apply ex5_buf_queue.
  split_and!; [exact R|exact ex5_buf_ok|reflexivity|reflexivity|reflexivity|
               reflexivity|simpl; lia|simpl; lia|reflexivity|].
  apply (insert_remove_roundtrip ex5_buf 1 [2; 4; 6; 8; 10] (lit "xyz")
           (String.list_byte_of_string "xyz") 12 (replicate 8 x01) 8);
    [exact R|exact ex5_buf_ok|reflexivity|reflexivity|reflexivity|
     reflexivity|simpl; lia|reflexivity].
Defined.

(** C8.  [q_swap] exchanges the two elements of each adjacent pair, the
    first with the second, the third with the fourth and so on, and
    leaves the last element of a list of odd length where it is; it only
    rewrites links, nothing is allocated or freed; a null queue, an empty
    one and one of a single element are left as they are. *)
Theorem q_swap_swaps_pairs (fuel : nat) (m : mem) (h : ptr) (l : list ptr) :
  list_at m h l -> (length l < fuel)%nat ->
  exists m',
    q_swap fuel h m = Done tt m' /\
    list_at m' h (swap_pairs l) /\
    same_data m m' /\
    ((length l < 2)%nat -> m' = m) /\
    length (swap_pairs l) = length l /\
    (forall i, (2 * i + 1 < length l)%nat ->
       swap_pairs l !! (2 * i)%nat = l !! (2 * i + 1)%nat /\
       swap_pairs l !! (2 * i + 1)%nat = l !! (2 * i)%nat) /\
    (forall j, length l = (2 * j + 1)%nat ->
       swap_pairs l !! (2 * j)%nat = l !! (2 * j)%nat).
Proof.
  intros H Hfuel.
  assert (exists m', q_swap fuel h m = Done tt m' /\
                     list_at m' h (swap_pairs l) /\ same_data m m' /\
                     ((length l < 2)%nat -> m' = m)) as (m' & ? & ? & ? & ?).
  { destruct H as [[-> ->]|R].
    - exists m. split_and!; [done|by left|apply same_data_refl|done].
    - destruct (q_swap_run fuel m h l R Hfuel) as (m' & Hrun & R' & [D _] & Hs).
      exists m'. split_and!; [done|by right|done|done]. }
  exists m'. split_and!; try done.
  - apply swap_pairs_length.
  - apply swap_pairs_lookup.
  - apply swap_pairs_odd.
Qed.

Lemma q_swap_swaps_pairs_witness :
  list_at ex5 1 [2; 4; 6; 8; 10] /\ (length [2; 4; 6; 8; 10] < 6)%nat /\
  exists m',
    q_swap 6 1 ex5 = Done tt m' /\
    list_at m' 1 [4; 2; 8; 6; 10] /\
    same_data ex5 m'.
Proof.
  split_and!; [right; exact ex5_ring|simpl; lia|].
  destruct (q_swap_swaps_pairs 6 ex5 1 [2; 4; 6; 8; 10])
    as (m' & Hrun & Hl & Hd & _); [right; exact ex5_ring|simpl; lia|].
  exists m'. split_and!; [exact Hrun|exact Hl|exact Hd].
Defined.

(** C9.  [q_reverse] exchanges [next] and [prev] in every node of the
    ring, the sentinel too, and in no other object, so that the elements
    are in reverse order; nothing is allocated or freed.  Applied twice
    it gives back the list: the same elements in the same order, with
    the same links and the same strings. *)
Theorem q_reverse_involution (fuel : nat) (m : mem) (h : ptr) (l : list ptr) :
  list_at m h l -> (length l < fuel)%nat ->
  exists m1 m2,
    q_reverse fuel h m = Done tt m1 /\
    list_at m1 h (rev l) /\
    mirrored (h :: l) m m1 /\
    q_reverse fuel h m1 = Done tt m2 /\
    list_at m2 h l /\
    same_data m m2 /\
    (forall q, nx m2 q = nx m q /\ pv m2 q = pv m q) /\
    (forall e, str m2 e = str m e).
Proof.
  intros [[-> ->]|R] Hfuel.
  { exists m, m. split_and!; try done; try (by left);
      try apply same_data_refl.
    split_and!; [apply same_data_refl| |done].
    intros q ->%list_elem_of_singleton. done. }
  destruct (q_reverse_run fuel m h l R Hfuel) as (m1 & Hrun1 & M1 & _).
  pose proof (mirrored_ring _ _ _ _ R M1) as R1.
  destruct (q_reverse_run fuel m1 h (rev l) R1) as (m2 & Hrun2 & M2 & _);
    [by rewrite length_rev|].
  pose proof (mirrored_ring _ _ _ _ R1 M2) as R2. rewrite rev_involutive in R2.
  destruct M1 as (D1 & In1 & Out1), M2 as (D2 & In2 & Out2).
  assert (same_data m m2) as D by (by eapply same_data_trans).
  exists m1, m2. split_and!; try done; try (by right).
  - intros q. destruct (decide (q ∈ h :: l)) as [Hq|Hq].
    + destruct (In1 q Hq) as [E1 E2]. destruct (In2 q) as [E3 E4].
      { revert Hq. rewrite !elem_of_cons, elem_of_rev. tauto. }
      split; congruence.
    + destruct (Out1 q Hq) as [E1 E2]. destruct (Out2 q) as [E3 E4].
      { revert Hq. rewrite !not_elem_of_cons, elem_of_rev. tauto. }
      split; congruence.
  - intros e. by apply same_data_str.
Qed.

Lemma q_reverse_involution_witness :
  list_at ex5 1 [2; 4; 6; 8; 10] /\ (length [2; 4; 6; 8; 10] < 6)%nat /\
  exists m1 m2,
    q_reverse 6 1 ex5 = Done tt m1 /\
    list_at m1 1 [10; 8; 6; 4; 2] /\
    q_reverse 6 1 m1 = Done tt m2 /\
    list_at m2 1 [2; 4; 6; 8; 10].
Proof.
  split_and!; [right; exact ex5_ring|simpl; lia|].
  destruct (q_reverse_involution 6 ex5 1 [2; 4; 6; 8; 10])
    as (m1 & m2 & H1 & H2 & _ & H3 & H4 & _); [right; exact ex5_ring|simpl; lia|].
  exists m1, m2. split_and!; [exact H1|exact H2|exact H3|exact H4].
Defined.

(** C10.  When [q_insert_head] or [q_insert_tail] returns false, for a
    null head or for an allocation that failed, the heap is as it was
    before the call: every object, so the queue, its order and its
    strings. *)
Theorem insert_failure_atomic (m : mem) (h : ptr) (s : list byte) (m' : mem) :
  heap_ok m ->
  q_insert_head h s m = Done false m' \/ q_insert_tail h s m = Done false m' ->
  heap m' = heap m /\
  forall l, queue m h l -> queue m' h l.
Proof.
  intros Hok H.
  assert (heap m' = heap m) as Hheap.
  { destruct H as [H|H].
    - rewrite q_insert_head_eq in H. by eapply insert_with_false.
    - rewrite q_insert_tail_eq in H. by eapply insert_with_false. }
  split; [done|]. intros l Q. by eapply queue_same_heap.
Qed.

Lemma insert_failure_atomic_witness :
  heap_ok ex5_refusing /\
  (q_insert_head 1 (lit "z") ex5_refusing = Done false (refuse ex5_refusing) \/
   q_insert_tail 1 (lit "z") ex5_refusing = Done false (refuse ex5_refusing)) /\
  heap (refuse ex5_refusing) = heap ex5_refusing /\
  forall l, queue ex5_refusing 1 l -> queue (refuse ex5_refusing) 1 l.
Proof.
  split_and!; [exact ex5_refusing_ok|left; reflexivity|reflexivity|].
  apply (insert_failure_atomic ex5_refusing 1 (lit "z") (refuse ex5_refusing));
    [exact ex5_refusing_ok|left; reflexivity].
Defined.

(** ** Further lemmas *)

(** *** q_size *)

Lemma q_size_loop_run m h fuel :
  forall l2 l1 acc,
  ring m h (l1 ++ l2) -> (length l2 < fuel)%nat ->
  0 <= acc -> acc + Z.of_nat (length l2) < size_max ->
  q_size_loop fuel h (hd h l2) acc m = Done (acc + Z.of_nat (length l2)) m.
Proof.
  induction fuel as [|fuel IH]; intros l2 l1 acc R Hfuel Hacc Hmax; [lia|].
  cbn [q_size_loop]. destruct l2 as [|x r]; cbn [hd length] in *.
  { rewrite Z.eqb_refl. unfold ret. f_equal. lia. }
  pose proof R as (ND & _).
  destruct (Z.eqb_spec x h) as [->|_]; [by nd|].
  rewrite (bind_run _ _ _ _ _ (get_next_run _ _ _ (ring_nx_at _ _ _ _ _ R))).
  rewrite Z.mod_small by lia.
  rewrite (IH r (l1 ++ [x]) (acc + 1)); [f_equal; lia| |lia..].
  by rewrite <- app_assoc.
Qed.

Lemma int_of_size_small n : 0 <= n < 2 ^ 31 -> int_of_size n = n.
Proof.
  intros Hn. unfold int_of_size. rewrite Z.mod_small by lia.
  destruct (Z.ltb_spec n (2 ^ 31)); [done|lia].
Qed.

Lemma q_size_run fuel m h l :
  ring m h l -> (length l < fuel)%nat -> Z.of_nat (length l) < 2 ^ 31 ->
  q_size fuel h m = Done (Z.of_nat (length l)) m.
Proof.
  intros R Hfuel Hlen. unfold q_size, list_empty.
  assert (h <> NULL) as Hh by (eapply ring_nonnull; [exact R|by left]).
  destruct (Z.eqb_spec h NULL) as [|_]; [done|].
  rewrite bind_assoc.
  rewrite (bind_run _ _ _ _ _ (get_next_run _ _ _ (ring_nx _ _ _ R))).
  unfold bind at 1, ret at 1.
  destruct l as [|x r]; cbn [hd].
  { by rewrite Z.eqb_refl. }
  pose proof R as (ND & _).
  destruct (Z.eqb_spec x h) as [->|_]; [by nd|].
  rewrite (bind_run _ _ _ _ _ (get_next_run _ _ _ (ring_nx _ _ _ R))).
  rewrite (bind_run _ _ _ _ _ (q_size_loop_run m h fuel (x :: r) [] 0 R Hfuel
             ltac:(lia) ltac:(unfold size_max; lia))).
  unfold ret. f_equal. rewrite int_of_size_small; lia.
Qed.

(** *** The size along a sequence of operations *)

Lemma tally_op_inv m0 m h l fuel o :
  inv m0 m h l -> valid_op m0 o -> (length l < fuel)%nat ->
  exists d m' l', tally_op fuel h o m = Done d m' /\ inv m0 m' h l' /\
                  Z.of_nat (length l') = Z.of_nat (length l) + d.
Proof.
  intros I Hv Hfuel. pose proof I as (Q & Hok & Hok0 & Hb & Hbuf & Hstr).
  pose proof Q as (R & HS & NV).
  assert (h <> NULL) as Hh by (eapply ring_nonnull; [exact R|by left]).
  destruct o as [s|s|sp n|sp n| | | |]; simpl in Hv |- *.
  - (* q_insert_head *)
    destruct Hv as [c Hc]. pose proof (cstr_inv _ _ Hc) as [Hnn _].
    destruct (fails (faults m)) eqn:F1;
      [|destruct (fails (tail (faults m))) eqn:F2].
    1, 2: destruct (insert_with_refused list_add h s m c) as (m' & Hrun);
          [done|done|done|by auto|];
          rewrite q_insert_head_eq, (bind_run _ _ _ _ _ Hrun);
          destruct (insert_with_false _ _ _ _ _ Hok Hrun) as [Hheap Hbrk];
          exists 0, m', l; split_and!; [done|by eapply inv_same_heap|lia].
    destruct (q_insert_head_run m h l s c R Hok Hc F1 F2) as (m' & Hrun & R' & Hrel).
    rewrite (bind_run _ _ _ _ _ Hrun). exists 1, m', (brk m :: l).
    split_and!; [done|by eapply inv_insert|simpl; lia].
  - (* q_insert_tail *)
    destruct Hv as [c Hc]. pose proof (cstr_inv _ _ Hc) as [Hnn _].
    destruct (fails (faults m)) eqn:F1;
      [|destruct (fails (tail (faults m))) eqn:F2].
    1, 2: destruct (insert_with_refused list_add_tail h s m c) as (m' & Hrun);
          [done|done|done|by auto|];
          rewrite q_insert_tail_eq, (bind_run _ _ _ _ _ Hrun);
          destruct (insert_with_false _ _ _ _ _ Hok Hrun) as [Hheap Hbrk];
          exists 0, m', l; split_and!; [done|by eapply inv_same_heap|lia].
    destruct (q_insert_tail_run m h l s c R Hok Hc F1 F2) as (m' & Hrun & R' & Hrel).
    rewrite (bind_run _ _ _ _ _ Hrun). exists 1, m', (l ++ [brk m]).
    split_and!; [done| |rewrite length_app; simpl; lia].
    eapply inv_insert; [done..| |done].
    by rewrite <- Permutation_cons_append.
  - (* q_remove_head *)
    destruct Hv as (d & Hd & Hn & Hmax).
    destruct l as [|x l].
    { rewrite (bind_run _ _ _ _ _ (q_remove_head_empty _ _ sp n R)).
      exists 0, m, []. split_and!; [done|done|simpl; lia]. }
    destruct (queue_str _ _ _ x Q ltac:(by left)) as (v & bv & sv & Hxv & Hcv & Hsv).
    destruct (Hbuf sp d Hd) as (d' & Hd' & Hlen).
    destruct (remove_at_run m h [] x l sp d' v bv sv n R Hxv Hcv Hsv Hd')
      as (m' & Hrun & R' & Hsb & Hout & _); [|lia|done|].
    { intros ->. rewrite (Hstr x v) in Hd; [done|by left|done]. }
    rewrite <- (q_remove_head_at _ _ _ _ _ _ R) in Hrun.
    rewrite (bind_run _ _ _ _ _ Hrun).
    assert (x <> NULL) as Hx by (eapply ring_nonnull; [exact R|elems]).
    destruct (Z.eqb_spec x NULL) as [|_]; [done|].
    exists (-1), m', l. split_and!; [done| |simpl; lia].
    apply (inv_remove m0 m m' h [] x l sp d); try done.
    eexists. split; [exact Hout|]. rewrite length_copied by lia. done.
  - (* q_remove_tail *)
    destruct Hv as (d & Hd & Hn & Hmax).
    destruct l as [|x l _] using rev_ind.
    { rewrite (bind_run _ _ _ _ _ (q_remove_tail_empty _ _ sp n R)).
      exists 0, m, []. split_and!; [done|done|simpl; lia]. }
    destruct (queue_str _ _ _ x Q ltac:(elems)) as (v & bv & sv & Hxv & Hcv & Hsv).
    destruct (Hbuf sp d Hd) as (d' & Hd' & Hlen).
    destruct (remove_at_run m h l x [] sp d' v bv sv n R Hxv Hcv Hsv Hd')
      as (m' & Hrun & R' & Hsb & Hout & _); [|lia|done|].
    { intros ->. rewrite (Hstr x v) in Hd; [done|elems|done]. }
    rewrite <- (q_remove_tail_at _ _ _ _ _ _ R) in Hrun.
    rewrite (bind_run _ _ _ _ _ Hrun).
    assert (x <> NULL) as Hx by (eapply ring_nonnull; [exact R|elems]).
    destruct (Z.eqb_spec x NULL) as [|_]; [done|].
    exists (-1), m', l. split_and!; [done| |rewrite length_app; simpl; lia].
    rewrite <- (app_nil_r l).
    apply (inv_remove m0 m m' h l x [] sp d); try done.
    eexists. split; [exact Hout|]. rewrite length_copied by lia. done.
  - (* q_delete_mid *)
    destruct (decide (length l < 2)%nat) as [Hs|Hs].
    { rewrite (bind_run _ _ _ _ _ (q_delete_mid_short fuel _ _ _ R Hs)).
      exists 0, m, l. split_and!; [done|done|lia]. }
    destruct (q_delete_mid_run fuel m h l Q) as
      (l1 & x & l2 & v & m' & El & _ & Hxv & Hrun & R' & Eb & _ & Ed & _ & _ & Hfr);
      [lia|done|].
    rewrite (bind_run _ _ _ _ _ Hrun). exists (-1), m', (l1 ++ l2).
    split_and!; [done| |subst l; rewrite !length_app; simpl; lia].
    subst l. by eapply inv_delete.
  - (* q_swap *)
    destruct (q_swap_run fuel m h l R Hfuel) as (m' & Hrun & R' & [D _] & _).
    rewrite (bind_run _ _ _ _ _ Hrun).
    exists 0, m', (swap_pairs l). split_and!; [done| |].
    + eapply inv_relinked; [done..|apply swap_pairs_perm].
    + rewrite <- (Permutation_length (swap_pairs_perm l)). lia.
  - (* q_reverse *)
    destruct (q_reverse_run fuel m h l R Hfuel) as (m' & Hrun & Mi & _).
    rewrite (bind_run _ _ _ _ _ Hrun).
    exists 0, m', (rev l). split_and!; [done| |rewrite length_rev; lia].
    eapply inv_relinked; [done|by destruct Mi|by eapply mirrored_ring|].
    apply Permutation_rev.
  - (* q_sort *)
    destruct (q_sort_run fuel m h l R HS Hfuel)
      as (l' & m' & Hrun & R' & (P & _) & [D _] & _).
    rewrite (bind_run _ _ _ _ _ Hrun).
    exists 0, m', l'. split_and!; [done| |].
    + by eapply inv_relinked.
    + rewrite <- (Permutation_length P). lia.
Qed.

Lemma tally_ops_inv m0 h fuel os :
  Forall (valid_op m0) os ->
  forall m l, inv m0 m h l -> (length l + length os < fuel)%nat ->
  exists n m' l', tally_ops fuel h os m = Done n m' /\ inv m0 m' h l' /\
                  Z.of_nat (length l') = Z.of_nat (length l) + n /\
                  (length l' <= length l + length os)%nat.
Proof.
  induction 1 as [|o os Hv _ IH]; intros m l I Hfuel.
  - exists 0, m, l. split_and!; [done|done|lia|lia].
  - simpl in Hfuel.
    destruct (tally_op_inv m0 m h l fuel o I Hv) as (d & m1 & l1 & Hrun & I1 & Hlen);
      [lia|].
    assert (-1 <= d <= 1) as Hd.
    { destruct o; simpl in Hrun;
        repeat match type of Hrun with
               | bind ?c _ _ = _ =>
                   unfold bind in Hrun; destruct c; try done
               end;
        injection Hrun as <- _;
        repeat match goal with |- context [if ?b then _ else _] => destruct b end;
        lia. }
    destruct (IH m1 l1 I1) as (n & m' & l' & Hrun' & I' & Hlen' & Hle); [lia|].
    exists (d + n), m', l'. split_and!; [|done|lia|simpl; lia]. simpl.
    rewrite (bind_run _ _ _ _ _ Hrun), (bind_run _ _ _ _ _ Hrun'). done.
Qed.

(** *** Queues: insertion and removal *)

(** A queue in a well-formed heap has the invariant of a queue created
    in an empty memory. *)
Lemma queue_inv m h l : queue m h l -> heap_ok m -> inv (Mem ∅ 1 []) m h l.
Proof.
  intros Q Hok. pose proof Hok as [H0 _].
  assert (forall q, chars (Mem ∅ 1 []) q = None) as Hnone.
  { intros q. unfold chars, obj_at. simpl. by destruct (q =? NULL). }
  split_and!; [done|done| |simpl; lia| |].
  - split; simpl; [lia|]. intros k Hk. by rewrite dom_empty_L in Hk.
  - intros sp d. by rewrite Hnone.
  - intros e v _ _. apply Hnone.
Qed.

Lemma insert_queue m h l c m' l' S :
  queue m h l -> heap_ok m -> nonul c ->
  ring m' h l' -> l' ≡ₚ brk m :: l -> relinked S (with_element c m) m' ->
  queue m' h l' /\ heap_ok m' /\
  obj_at m (brk m) = None /\ obj_at m (brk m + 1) = None /\
  val m' (brk m) = Some (brk m + 1) /\
  str m' (brk m) = Some c /\
  (forall x, x ∈ l -> str m' x = str m x) /\
  dom (heap m') = {[brk m; brk m + 1]} ∪ dom (heap m) /\
  faults m' = tail (tail (faults m)) /\
  (forall q, q <> brk m -> q <> brk m + 1 ->
     val m' q = val m q /\ chars m' q = chars m q) /\
  (forall q, q ∉ S -> q <> brk m -> q <> brk m + 1 ->
     nx m' q = nx m q /\ pv m' q = pv m q).
Proof.
  intros Q Hok Hnn R' P Hrel.
  destruct (inv_insert _ m h l c S m' l' (queue_inv _ _ _ Q Hok) Hnn R' P Hrel)
    as (Q' & Hok' & _).
  destruct (with_element_views m c Hok) as (V & _ & _ & Ve & Cv & _ & Fv & Dv & _).
  pose proof Hrel as [[_ Df Dd Dv' Dc] Dl].
  assert (forall q, is_Some (obj_at m q) -> q <> brk m /\ q <> brk m + 1) as Hold.
  { intros q Hq%(alloc_old _ _ Hok). lia. }
  assert (forall q, obj_at m q = None \/ is_Some (obj_at m q)) as Hdec.
  { intros q. destruct (obj_at m q); eauto. }
  split_and!; [done|done| | | | | | | | |].
  - destruct (Hdec (brk m)) as [|[]%Hold]; done.
  - destruct (Hdec (brk m + 1)) as [|[]%Hold]; done.
  - by rewrite Dv'.
  - unfold str. rewrite Dv', Ve, Dc, Cv. by apply cstr_app.
  - intros x Hx.
    destruct (queue_str _ _ _ x Q Hx) as (v & b & s & Hv & Hb & _).
    assert (is_Some (obj_at m x)) as [? ?]%Hold.
    { unfold val in Hv. destruct (obj_at m x); [eauto|done]. }
    apply str_ext.
    + rewrite Dv'. by destruct (V x) as (_ & _ & -> & _).
    + intros v' Hv'. assert (v' = v) as -> by congruence.
      destruct (Hold v) as [? ?]; [by eapply chars_alloc|].
      rewrite Dc. by destruct (V v) as (_ & _ & _ & ->).
  - by rewrite Dd, Dv.
  - by rewrite Df, Fv.
  - intros q ? ?. rewrite Dv', Dc. by destruct (V q) as (_ & _ & -> & ->).
  - intros q Hq ? ?. destruct (Dl q Hq) as [-> ->].
    by destruct (V q) as (-> & -> & _).
Qed.

Lemma q_insert_head_queue m h l s c :
  queue m h l -> heap_ok m -> cstr s = Some c ->
  fails (faults m) = false -> fails (tail (faults m)) = false ->
  exists m', q_insert_head h s m = Done true m' /\
             queue m' h (brk m :: l) /\ heap_ok m' /\
             obj_at m (brk m) = None /\ obj_at m (brk m + 1) = None /\
             val m' (brk m) = Some (brk m + 1) /\
             str m' (brk m) = Some c /\
             (forall x, x ∈ l -> str m' x = str m x) /\
             dom (heap m') = {[brk m; brk m + 1]} ∪ dom (heap m) /\
             faults m' = tail (tail (faults m)) /\
             (forall q, q <> brk m -> q <> brk m + 1 ->
                val m' q = val m q /\ chars m' q = chars m q) /\
             (forall q, q ∉ h :: brk m :: l -> q <> brk m -> q <> brk m + 1 ->
                nx m' q = nx m q /\ pv m' q = pv m q).
Proof.
  intros Q Hok Hc F1 F2. pose proof Q as (R & _).
  destruct (q_insert_head_run m h l s c R Hok Hc F1 F2) as (m' & Hrun & R' & Hrel).
  exists m'. split; [done|].
  eapply insert_queue; [done|done|by apply (cstr_inv _ _ Hc)|done|done|done].
Qed.

Lemma q_insert_tail_queue m h l s c :
  queue m h l -> heap_ok m -> cstr s = Some c ->
  fails (faults m) = false -> fails (tail (faults m)) = false ->
  exists m', q_insert_tail h s m = Done true m' /\
             queue m' h (l ++ [brk m]) /\ heap_ok m' /\
             obj_at m (brk m) = None /\ obj_at m (brk m + 1) = None /\
             val m' (brk m) = Some (brk m + 1) /\
             str m' (brk m) = Some c /\
             (forall x, x ∈ l -> str m' x = str m x) /\
             dom (heap m') = {[brk m; brk m + 1]} ∪ dom (heap m) /\
             faults m' = tail (tail (faults m)) /\
             (forall q, q <> brk m -> q <> brk m + 1 ->
                val m' q = val m q /\ chars m' q = chars m q) /\
             (forall q, q ∉ h :: brk m :: l -> q <> brk m -> q <> brk m + 1 ->
                nx m' q = nx m q /\ pv m' q = pv m q).
Proof.
  intros Q Hok Hc F1 F2. pose proof Q as (R & _).
  destruct (q_insert_tail_run m h l s c R Hok Hc F1 F2) as (m' & Hrun & R' & Hrel).
  exists m'. split; [done|].
  eapply insert_queue; [done|done|by apply (cstr_inv _ _ Hc)|done| |done].
  by rewrite <- Permutation_cons_append.
Qed.

Lemma nonul_take s n : nonul s -> nonul (take n s).
Proof. unfold nonul. apply Forall_take. Qed.

(** The buffer a removal wrote holds the string, cut to [bufsize - 1]
    bytes. *)
Lemma cstr_copied s d bufsize :
  nonul s -> cstr (copied s d bufsize) = Some (take (Z.to_nat (bufsize - 1)) s).
Proof.
  intros Hnn. unfold copied.
  destruct (Z.to_nat (bufsize - 1) - length s)%nat as [|k]; simpl.
  - by apply cstr_app, nonul_take.
  - by apply cstr_app, nonul_take.
Qed.

Lemma drop_copied s d bufsize :
  1 <= bufsize <= Z.of_nat (length d) ->
  drop (Z.to_nat bufsize) (copied s d bufsize) = drop (Z.to_nat bufsize) d.
Proof.
  intros Hb. unfold copied.
  replace (Z.to_nat bufsize) with (S (Z.to_nat (bufsize - 1))) by lia.
  set (n := Z.to_nat (bufsize - 1)).
  rewrite app_assoc, (cons_middle x00), app_assoc.
  rewrite drop_app_length'; [done|].
  rewrite !length_app, length_take, length_replicate. simpl. lia.
Qed.

Lemma remove_queue m h l1 x l2 sp d s bufsize :
  queue m h (l1 ++ x :: l2) -> str m x = Some s ->
  chars m sp = Some d ->
  (forall e, e ∈ l1 ++ x :: l2 -> val m e <> Some sp) ->
  1 <= bufsize <= Z.of_nat (length d) -> bufsize < size_max ->
  exists m' d',
    remove_at x sp bufsize m = Done x m' /\
    queue m' h (l1 ++ l2) /\
    str m' x = Some s /\
    (forall e, e ∈ l1 ++ l2 -> str m' e = str m e) /\
    same_but sp m m' /\
    chars m' sp = Some d' /\ length d' = length d /\
    cstr d' = Some (take (Z.to_nat (bufsize - 1)) s) /\
    drop (Z.to_nat bufsize) d' = drop (Z.to_nat bufsize) d /\
    (forall q, q ∉ h :: l1 ++ x :: l2 ->
       nx m' q = nx m q /\ pv m' q = pv m q).
Proof.
  intros Q Hs Hd Hsp Hb Hmax. pose proof Q as (R & HS & NV).
  destruct (str_inv _ _ _ Hs) as (v & bv & Hv & Hbv & Hcs).
  destruct (remove_at_run m h l1 x l2 sp d v bv s bufsize R Hv Hbv Hcs Hd)
    as (m' & Hrun & R' & Hsb & Hout & Hlk); [|done|done|].
  { intros ->. by apply (Hsp x); [elems|]. }
  pose proof Hsb as (_ & _ & _ & Sv & Sc).
  assert (forall e, e ∈ l1 ++ x :: l2 -> str m' e = str m e) as Hstr.
  { intros e He. apply str_ext; [apply Sv|].
    intros w Hw. apply Sc. intros ->. by apply (Hsp e). }
  assert (forall e, e ∈ l1 ++ l2 -> e ∈ l1 ++ x :: l2) as Hsub by (intros e; elems).
  exists m', (copied s d bufsize). split_and!; try done.
  - split_and!; [done| |].
    + rewrite Forall_forall in HS |- *. intros e He.
      rewrite Hstr by auto. auto.
    + erewrite map_ext; [|intros; apply Sv].
      rewrite map_app in NV |- *. simpl in NV.
      by apply NoDup_mid in NV as [_ ?].
  - rewrite Hstr; [done|elems].
  - auto.
  - by apply length_copied.
  - apply cstr_copied. by apply (cstr_inv _ _ Hcs).
  - by apply drop_copied.
Qed.

(** With [bufsize] 0, or more than the size of the buffer, a removal
    from a queue that is not empty writes outside the buffer. *)
Lemma remove_at_overruns m x v bv s sp d bufsize :
  val m x = Some v -> chars m v = Some bv -> cstr bv = Some s ->
  chars m sp = Some d -> sp <> v ->
  Z.of_nat (length d) < size_max - 1 ->
  bufsize = 0 \/ Z.of_nat (length d) < bufsize < size_max ->
  remove_at x sp bufsize m = Fault.
Proof.
  intros Hv Hbv Hcs Hd Hne Hlen Hbuf. unfold remove_at.
  unfold size_max in *.
  assert (size_sub bufsize 1 = (if decide (bufsize = 0) then 2 ^ 64 - 1
                                 else bufsize - 1)) as ->.
  { unfold size_sub, size_max. case_decide; [by subst|].
    rewrite Z.mod_small; lia. }
  destruct (decide (Z.of_nat (length d) <
                      (if decide (bufsize = 0) then 2 ^ 64 - 1 else bufsize - 1)))
    as [Hlt|Hge].
  { unfold strncpy. run.
    rewrite bind_assoc, (bind_run _ _ _ _ _ (load_chars_run _ _ _ Hd)).
    rewrite bind_assoc, (bind_run _ _ _ _ _ (load_chars_run _ _ _ Hbv)).
    destruct (Z.ltb_spec (Z.of_nat (length d))
                (if decide (bufsize = 0) then 2 ^ 64 - 1 else bufsize - 1));
      [done|lia]. }
  assert (bufsize <> 0) as Hnz.
  { intros ->. rewrite decide_True in Hge by done. lia. }
  rewrite decide_False in Hge |- * by done.
  assert (bufsize - 1 = Z.of_nat (length d)) as Hn by lia.
  destruct (cstr_inv _ _ Hcs) as [Hnn [r ->]].
  run. erewrite (bind_run (strncpy _ _ _)).
  2:{ eapply strncpy_run; [done..|lia|]. by apply strncpy_bytes_app. }
  unfold store_char. rewrite bind_assoc.
  erewrite (bind_run (load_chars _)).
  2:{ apply load_chars_run. rewrite chars_put_chars, decide_True by done.
      by rewrite Hd. }
  rewrite !length_app, length_take, length_replicate, length_drop.
  destruct (Z.ltb_spec (bufsize - 1) 0); [done|]. simpl.
  match goal with |- context [?a <=? ?b] => destruct (Z.leb_spec a b) end;
    [done|lia].
Qed.

(** *** q_new *)

Lemma q_new_heap m :
  heap_ok m -> fails (faults m) = false ->
  q_new m =
  Done (brk m)
    (Mem (<[brk m := OHead (ListHead (brk m) (brk m))]> (heap m))
         (brk m + 1) (tail (faults m))).
Proof.
  intros Hok F. pose proof Hok as [H0 _].
  assert (brk m <> NULL) as Hb by (unfold NULL; lia).
  rewrite (q_new_run _ Hok), F. f_equal.
  unfold put_next, modify. rewrite obj_at_alloc, decide_True by done.
  unfold put_prev, modify. rewrite obj_at_upd, decide_True by done.
  unfold upd, alloc. simpl. by rewrite !insert_insert_eq.
Qed.

(** *** Objects and their views *)

Lemma obj_at_ext m m' q :
  nx m' q = nx m q -> pv m' q = pv m q ->
  val m' q = val m q -> chars m' q = chars m q ->
  obj_at m' q = obj_at m q.
Proof.
  unfold nx, pv, val, chars.
  destruct (obj_at m' q) as [[[]|? []|]|], (obj_at m q) as [[[]|? []|]|];
    simpl; congruence.
Qed.

(** The links of the nodes of a ring are those the ring names. *)
Lemma ring_links m m' h l q :
  ring m h l -> ring m' h l -> q ∈ h :: l ->
  nx m' q = nx m q /\ pv m' q = pv m q.
Proof.
  intros R R' Hq.
  destruct (list_elem_of_split _ _ Hq) as (l1 & l2 & E).
  destruct l1 as [|h' l1]; simplify_eq/=.
  - by rewrite (ring_nx _ _ _ R), (ring_nx _ _ _ R'),
               (ring_pv _ _ _ R), (ring_pv _ _ _ R').
  - by rewrite (ring_nx_at _ _ _ _ _ R), (ring_nx_at _ _ _ _ _ R'),
               (ring_pv_at _ _ _ _ _ R), (ring_pv_at _ _ _ _ _ R').
Qed.

(** A queue depends on its own objects only. *)
Lemma queue_ext m m' h l sp :
  queue m h l -> is_Some (chars m sp) ->
  (forall e, e ∈ l -> val m e <> Some sp) ->
  (forall q, q <> sp -> obj_at m' q = obj_at m q) ->
  queue m' h l /\ forall e, e ∈ l -> str m' e = str m e.
Proof.
  intros Q [d Hd] Hsp Hobj. pose proof Q as (R & HS & NV).
  destruct (chars_not_node _ _ _ Hd) as (Hn & _ & _).
  assert (forall q, q ∈ h :: l -> q <> sp) as Hne.
  { intros q Hq ->. destruct (ring_node _ _ _ _ R Hq) as [? ?]. congruence. }
  assert (forall q, q <> sp -> nx m' q = nx m q /\ pv m' q = pv m q /\
                               val m' q = val m q /\ chars m' q = chars m q)
    as Hv.
  { intros q Hq. unfold nx, pv, val, chars. by rewrite (Hobj q Hq). }
  assert (forall e, e ∈ l -> str m' e = str m e) as Hstr.
  { intros e He. apply str_ext.
    - apply Hv, Hne. by right.
    - intros v Hv'. apply Hv. intros ->. by apply (Hsp e). }
  split; [|done]. split_and!.
  - eapply ring_ext; [exact R|]. intros q Hq.
    by destruct (Hv q (Hne q Hq)) as (-> & -> & _).
  - rewrite Forall_forall in HS |- *. intros e He. rewrite Hstr by done. auto.
  - erewrite map_ext_in; [exact NV|].
    intros e He%list_elem_of_In. apply Hv, Hne. by right.
Qed.

(** *** More on the order of strings *)

Lemma uchar_inj c d : uchar c = uchar d -> c = d.
Proof.
  unfold uchar. intros E. assert (Byte.to_N c = Byte.to_N d) as E' by lia.
  pose proof (Byte.of_to_N c) as Hc. rewrite E', Byte.of_to_N in Hc.
  congruence.
Qed.

Lemma strcmp_bytes_eq a b :
  nonul a -> nonul b -> strcmp_bytes a b = 0 -> a = b.
Proof.
  intros Ha. revert b. induction Ha as [|c a Hc Ha IH]; intros b Hb.
  - destruct Hb as [|d b Hd Hb]; simpl; [done|].
    pose proof (uchar_pos _ Hd). lia.
  - destruct Hb as [|d b Hd Hb]; simpl.
    { pose proof (uchar_pos _ Hc). lia. }
    destruct (Z.eqb_spec (uchar c) (uchar d)) as [E|E]; [|lia].
    intros H0. by rewrite (uchar_inj _ _ E), (IH b Hb H0).
Qed.

Lemma strcmp_bytes_lt a b :
  nonul a -> nonul b -> strcmp_bytes a b < 0 <-> lex_lt a b.
Proof.
  intros Ha. revert b. induction Ha as [|c a Hc Ha IH]; intros b Hb.
  - destruct Hb as [|d b Hd Hb]; simpl; [lia|].
    pose proof (uchar_pos _ Hd). split; [done|lia].
  - destruct Hb as [|d b Hd Hb]; simpl.
    { pose proof (uchar_pos _ Hc). lia. }
    destruct (Z.eqb_spec (uchar c) (uchar d)) as [E|E].
    + rewrite (IH b Hb). apply uchar_inj in E as ->. split; [auto|].
      intros [?|[_ ?]]; [lia|done].
    + split; [lia|]. intros [?|[-> _]]; [lia|done].
Qed.

Section Unique.
Variable k : ptr -> list byte.
Hypothesis k_nonul : forall e, nonul (k e).

(** The stable sort of a list is unique: a sorted list is its own. *)
Lemma sorted_of_unique l l' : ascending k l -> sorted_of k l l' -> l' = l.
Proof.
  revert l'. induction l as [|x t IH]; intros l' A (P & A' & St).
  - by apply Permutation_nil_l in P.
  - destruct l' as [|y t']; [by apply Permutation_nil_r in P|].
    apply StronglySorted_inv in A as [At Ax].
    apply StronglySorted_inv in A' as [At' Ay].
    rewrite List.Forall_forall in Ax, Ay.
    assert (str_le (k x) (k y)) as Hxy.
    { assert (y ∈ x :: t) as [->|Hy]%elem_of_cons by (rewrite P; by left).
      - apply str_le_refl.
      - by apply Ax, list_elem_of_In. }
    assert (str_le (k y) (k x)) as Hyx.
    { assert (x ∈ y :: t') as [->|Hx]%elem_of_cons by (rewrite <- P; by left).
      - apply str_le_refl.
      - by apply Ay, list_elem_of_In. }
    assert (k y = k x) as Ek.
    { apply strcmp_bytes_eq; [done..|]. unfold str_le in *.
      rewrite (strcmp_bytes_antisym (k y) (k x)) in Hxy. lia. }
    assert (y = x) as ->.
    { pose proof (St (k x)) as Hf.
      rewrite !filter_cons_True in Hf by done. congruence. }
    f_equal. apply IH; [done|]. split_and!; [|done|].
    + by apply Permutation_cons_inv in P.
    + intros s. pose proof (St s) as Hf.
      destruct (decide (k x = s)) as [E|E].
      * rewrite !filter_cons_True in Hf by done. congruence.
      * by rewrite !filter_cons_False in Hf by done.
Qed.

End Unique.

Lemma swap_pairs_invol {A} (l : list A) : swap_pairs (swap_pairs l) = l.
Proof.
  assert (forall n (l : list A), (length l <= n)%nat ->
            swap_pairs (swap_pairs l) = l) as H.
  { induction n as [|n IH]; intros [|a [|b l']] Hl; simpl in *;
      try done; try lia.
    do 2 f_equal. apply IH. lia. }
  by apply (H (length l)).
Qed.

Lemma str_key m e : is_Some (str m e) -> str m e = Some (key m e).
Proof. intros [s Hs]. unfold key. by rewrite Hs. Qed.

Lemma sorted_of_self k (l : list ptr) : ascending k l -> sorted_of k l l.
Proof. intros A. unfold sorted_of, stable. by split_and!. Qed.

Lemma ex3_queue : queue ex3 1 [2; 4; 6].
Proof.
  split_and!; [split_and!; [check_nodup|check_path|check_path]| |check_nodup].
  repeat constructor; vm_compute; eauto.
Defined.

Lemma ex3_ascending : ascending (key ex3) [2; 4; 6].
Proof. repeat constructor; by vm_compute. Defined.

(** A property of each member of a list of addresses that is written
    out, by evaluation *)
Ltac check_members H :=
  repeat (apply elem_of_cons in H as [->|H];
          [first [by vm_compute|vm_compute; by eauto]|]);
  by apply elem_of_nil in H.

Lemma StronglySorted_snoc {A} (R : A -> A -> Prop) l x :
  StronglySorted R l -> List.Forall (fun y => R y x) l ->
  StronglySorted R (l ++ [x]).
Proof.
  induction 1 as [|y l Hl IH Hy]; intros Hx; simpl.
  - repeat constructor.
  - apply List.Forall_cons_iff in Hx as [Hyx Hx]. constructor; [by apply IH|].
    apply List.Forall_app. split; [done|by constructor].
Qed.

Lemma ascending_rev k l : ascending k l -> descending k (rev l).
Proof.
  induction 1 as [|x l Hl IH Hx]; simpl; [constructor|].
  apply StronglySorted_snoc; [done|].
  apply List.Forall_forall. intros y Hy%in_rev.
  rewrite List.Forall_forall in Hx. by apply Hx.
Qed.

(** ** Further properties of the queue *)

(** X1.  [q_size] returns the number of elements of the queue, 0 for a null
    and for an empty queue, and changes nothing in memory.  The count is
    a [size_t] returned as an [int]: the result is the number of elements
    as long as there are fewer than [2 ^ 31] of them. *)
Theorem q_size_counts fuel m h l :
  list_at m h l -> (length l < fuel)%nat -> Z.of_nat (length l) < 2 ^ 31 ->
  q_size fuel h m = Done (Z.of_nat (length l)) m.
Proof.
  intros [[-> ->]|R] Hfuel Hlen; [done|]. by apply q_size_run.
Qed.

Lemma q_size_counts_witness :
  list_at ex5 1 [2; 4; 6; 8; 10] /\ q_size 6 1 ex5 = Done 5 ex5.
Proof.
  split; [right; exact ex5_ring|].
  apply (q_size_counts 6 ex5 1 [2; 4; 6; 8; 10]);
    [right; exact ex5_ring|simpl; lia|simpl; lia].
Defined.

(** X2.  On a queue made by [q_new], after any sequence of valid
    operations, [q_size] is the number of insertions that returned true
    less the number of removals that returned an element and of
    deletions that returned true. *)
Theorem q_size_tracks_operations (m0 : mem) (os : list op) (fuel : nat) :
  heap_ok m0 -> fails (faults m0) = false ->
  Forall (valid_op m0) os -> (length os < fuel)%nat ->
  Z.of_nat (length os) < 2 ^ 31 ->
  exists h m1 n m,
    q_new m0 = Done h m1 /\ h <> NULL /\
    tally_ops fuel h os m1 = Done n m /\
    q_size fuel h m = Done n m.
Proof.
  intros Hok F Hv Hfuel Hlen. pose proof (q_new_run _ Hok) as Hnew.
  rewrite F in Hnew.
  assert (brk m0 <> NULL) as Hh by (destruct Hok; unfold NULL; lia).
  pose proof (q_new_inv _ _ _ Hok Hnew Hh) as I.
  destruct (tally_ops_inv m0 (brk m0) fuel os Hv _ [] I)
    as (n & m & l & Hrun & (Q & _) & Hn & Hle); [simpl; lia|].
  destruct Q as (R & _). simpl in Hn, Hle.
  eexists _, _, n, m. split_and!; [exact Hnew|done|done|].
  replace n with (Z.of_nat (length l)) by lia.
  apply q_size_run; [done|lia|lia].
Qed.

Lemma q_size_tracks_operations_witness :
  heap_ok ex_caller /\ fails (faults ex_caller) = false /\
  Forall (valid_op ex_caller) ex_ops /\ (length ex_ops < 12)%nat /\
  Z.of_nat (length ex_ops) < 2 ^ 31 /\
  exists h m1 n m,
    q_new ex_caller = Done h m1 /\ h <> NULL /\
    tally_ops 12 h ex_ops m1 = Done n m /\
    q_size 12 h m = Done n m.
Proof.
  split_and!;
    [exact ex_caller_ok|reflexivity|exact ex_ops_valid|simpl; lia|simpl; lia|].
  apply (q_size_tracks_operations ex_caller ex_ops 12);
    [exact ex_caller_ok|reflexivity|exact ex_ops_valid|simpl; lia|simpl; lia].
Defined.

(** X3.  [q_new] returns NULL and leaves the heap as it is when the
    allocation fails; otherwise it returns a new object, the sentinel of
    an empty queue, both of whose links point to itself, and every other
    object is as it was. *)
Theorem q_new_makes_empty_queue m :
  heap_ok m ->
  exists h m',
    q_new m = Done h m' /\
    if fails (faults m) then h = NULL /\ heap m' = heap m
    else h <> NULL /\ obj_at m h = None /\
         queue m' h [] /\ heap_ok m' /\
         heap m' = <[h := OHead (ListHead h h)]> (heap m).
Proof.
  intros Hok. pose proof Hok as [H0 _].
  destruct (fails (faults m)) eqn:F.
  - exists NULL, (refuse m). rewrite (q_new_run _ Hok), F. done.
  - assert (brk m <> NULL) as Hb by (unfold NULL; lia).
    pose proof (q_new_heap _ Hok F) as Hnew.
    destruct (q_new_inv _ _ _ Hok Hnew Hb) as (Q & Hok' & _).
    eexists _, _. split; [exact Hnew|].
    split_and!; [done|by apply obj_at_fresh|done|done|done].
Qed.

Lemma q_new_makes_empty_queue_witness :
  heap_ok ex_caller /\
  exists h m',
    q_new ex_caller = Done h m' /\
    if fails (faults ex_caller) then h = NULL /\ heap m' = heap ex_caller
    else h <> NULL /\ obj_at ex_caller h = None /\
         queue m' h [] /\ heap_ok m' /\
         heap m' = <[h := OHead (ListHead h h)]> (heap ex_caller).
Proof.
  split; [exact ex_caller_ok|].
  apply (q_new_makes_empty_queue ex_caller ex_caller_ok).
Defined.

(** X4.  [q_free] of the queue [q_new] just made gives the heap back as
    it was before [q_new]. *)
Theorem q_new_q_free_restores_heap fuel m :
  heap_ok m -> fails (faults m) = false -> (0 < fuel)%nat ->
  exists h m1 m2,
    q_new m = Done h m1 /\ h <> NULL /\
    q_free fuel h m1 = Done tt m2 /\
    heap m2 = heap m.
Proof.
  intros Hok F Hfuel. pose proof Hok as [H0 _].
  assert (brk m <> NULL) as Hb by (unfold NULL; lia).
  pose proof (q_new_heap _ Hok F) as Hnew.
  destruct (q_new_inv _ _ _ Hok Hnew Hb) as (((ND & Hn & Hp) & _) & _).
  simpl in Hn.
  eexists _, _, _. split_and!; [exact Hnew|done| |].
  - unfold q_free, list_first_entry.
    rewrite !(bind_run _ _ _ _ _ (get_next_run _ _ _ Hn)).
    destruct fuel as [|f]; [lia|]. cbn [q_free_loop]. rewrite Z.eqb_refl.
    unfold bind at 1, ret at 1.
    apply free_run, nx_alloc. eauto.
  - simpl. rewrite delete_insert_id; [done|]. by apply heap_fresh.
Qed.

Lemma q_new_q_free_restores_heap_witness :
  heap_ok ex_caller /\ fails (faults ex_caller) = false /\ (0 < 1)%nat /\
  exists h m1 m2,
    q_new ex_caller = Done h m1 /\ h <> NULL /\
    q_free 1 h m1 = Done tt m2 /\
    heap m2 = heap ex_caller.
Proof.
  split_and!; [exact ex_caller_ok|reflexivity|lia|].
  apply (q_new_q_free_restores_heap 1 ex_caller);
    [exact ex_caller_ok|reflexivity|lia].
Defined.

(** X5.  [q_free] frees the sentinel and the elements of the queue and
    nothing else: no array of bytes is freed or changed, so the string of
    every element stays allocated. *)
Theorem q_free_frees_nodes_only fuel m h l :
  queue m h l -> (length l < fuel)%nat ->
  exists m',
    q_free fuel h m = Done tt m' /\
    dom (heap m') = dom (heap m) ∖ list_to_set (h :: l) /\
    (forall q, chars m' q = chars m q) /\
    forall e, e ∈ l ->
      exists v b, val m e = Some v /\ chars m' v = Some b /\
                  cstr b = str m e.
Proof.
  intros Q Hfuel. pose proof Q as (R & _).
  destruct (q_free_run fuel m h l R Hfuel) as (m' & Hrun & Hc & Hd).
  exists m'. split_and!; [done|done|done|].
  intros e He.
  destruct (queue_str _ _ _ e Q He) as (v & b & s & Hv & Hb & Hs).
  exists v, b. split_and!; [done|by rewrite Hc|].
  unfold str. by rewrite Hv, Hb.
Qed.

Lemma q_free_frees_nodes_only_witness :
  queue ex5 1 [2; 4; 6; 8; 10] /\ (length [2; 4; 6; 8; 10] < 6)%nat /\
  exists m',
    q_free 6 1 ex5 = Done tt m' /\
    dom (heap m') = dom (heap ex5) ∖ list_to_set (1 :: [2; 4; 6; 8; 10]) /\
    (forall q, chars m' q = chars ex5 q) /\
    forall e, e ∈ [2; 4; 6; 8; 10] ->
      exists v b, val ex5 e = Some v /\ chars m' v = Some b /\
                  cstr b = str ex5 e.
Proof.
  split_and!; [exact ex5_queue|simpl; lia|].
  apply (q_free_frees_nodes_only 6 ex5 1 [2; 4; 6; 8; 10]);
    [exact ex5_queue|simpl; lia].
Defined.

(** X6.  A null queue is accepted by every operation but [q_free]: the
    insertions return false, the removals NULL, [q_size] 0, [q_delete_mid]
    false, and [q_swap], [q_reverse] and [q_sort] return, all without a
    change of memory.  [q_free] of a null queue dereferences it. *)
Theorem null_queue_handling fuel m s sp bufsize :
  q_insert_head NULL s m = Done false m /\
  q_insert_tail NULL s m = Done false m /\
  q_remove_head NULL sp bufsize m = Done NULL m /\
  q_remove_tail NULL sp bufsize m = Done NULL m /\
  q_size fuel NULL m = Done 0 m /\
  q_delete_mid fuel NULL m = Done false m /\
  q_swap fuel NULL m = Done tt m /\
  q_reverse fuel NULL m = Done tt m /\
  q_sort fuel NULL m = Done tt m /\
  q_free fuel NULL m = Fault.
Proof. by split_and!. Qed.

(** X7.  When both allocations succeed, [q_insert_head] returns true and
    the queue is the old one with a new element in front of it: the
    element and the array of its string are two new objects, the string
    is a copy of [s], and the other elements keep their order and their
    strings. *)
Theorem q_insert_head_prepends m h l s c :
  queue m h l -> heap_ok m -> cstr s = Some c ->
  fails (faults m) = false -> fails (tail (faults m)) = false ->
  exists m' e v,
    q_insert_head h s m = Done true m' /\
    queue m' h (e :: l) /\ str m' e = Some c /\
    val m' e = Some v /\ obj_at m e = None /\ obj_at m v = None /\
    dom (heap m') = {[e; v]} ∪ dom (heap m) /\
    forall x, x ∈ l -> str m' x = str m x.
Proof.
  intros Q Hok Hc F1 F2.
  destruct (q_insert_head_queue m h l s c Q Hok Hc F1 F2)
    as (m' & Hrun & Q' & _ & He & Hv & Hval & Hs & Hl & Hd & _).
  exists m', (brk m), (brk m + 1). by split_and!.
Qed.

Lemma q_insert_head_prepends_witness :
  queue ex5 1 [2; 4; 6; 8; 10] /\ heap_ok ex5 /\
  cstr (lit "xyz") = Some (String.list_byte_of_string "xyz") /\
  fails (faults ex5) = false /\ fails (tail (faults ex5)) = false /\
  exists m' e v,
    q_insert_head 1 (lit "xyz") ex5 = Done true m' /\
    queue m' 1 (e :: [2; 4; 6; 8; 10]) /\
    str m' e = Some (String.list_byte_of_string "xyz") /\
    val m' e = Some v /\ obj_at ex5 e = None /\ obj_at ex5 v = None /\
    dom (heap m') = {[e; v]} ∪ dom (heap ex5) /\
    forall x, x ∈ [2; 4; 6; 8; 10] -> str m' x = str ex5 x.
Proof.
  split_and!; [exact ex5_queue|exact ex5_ok|reflexivity..|].
  apply (q_insert_head_prepends ex5 1 [2; 4; 6; 8; 10] (lit "xyz"));
    [exact ex5_queue|exact ex5_ok|reflexivity..].
Defined.

(** X8.  When both allocations succeed, [q_insert_tail] returns true and
    the queue is the old one with a new element behind it: the element
    and the array of its string are two new objects, the string is a
    copy of [s], and the other elements keep their order and their
    strings. *)
Theorem q_insert_tail_appends m h l s c :
  queue m h l -> heap_ok m -> cstr s = Some c ->
  fails (faults m) = false -> fails (tail (faults m)) = false ->
  exists m' e v,
    q_insert_tail h s m = Done true m' /\
    queue m' h (l ++ [e]) /\ str m' e = Some c /\
    val m' e = Some v /\ obj_at m e = None /\ obj_at m v = None /\
    dom (heap m') = {[e; v]} ∪ dom (heap m) /\
    forall x, x ∈ l -> str m' x = str m x.
Proof.
  intros Q Hok Hc F1 F2.
  destruct (q_insert_tail_queue m h l s c Q Hok Hc F1 F2)
    as (m' & Hrun & Q' & _ & He & Hv & Hval & Hs & Hl & Hd & _).
  exists m', (brk m), (brk m + 1). by split_and!.
Qed.

Lemma q_insert_tail_appends_witness :
  queue ex5 1 [2; 4; 6; 8; 10] /\ heap_ok ex5 /\
  cstr (lit "xyz") = Some (String.list_byte_of_string "xyz") /\
  fails (faults ex5) = false /\ fails (tail (faults ex5)) = false /\
  exists m' e v,
    q_insert_tail 1 (lit "xyz") ex5 = Done true m' /\
    queue m' 1 ([2; 4; 6; 8; 10] ++ [e]) /\
    str m' e = Some (String.list_byte_of_string "xyz") /\
    val m' e = Some v /\ obj_at ex5 e = None /\ obj_at ex5 v = None /\
    dom (heap m') = {[e; v]} ∪ dom (heap ex5) /\
    forall x, x ∈ [2; 4; 6; 8; 10] -> str m' x = str ex5 x.
Proof.
  split_and!; [exact ex5_queue|exact ex5_ok|reflexivity..|].
  apply (q_insert_tail_appends ex5 1 [2; 4; 6; 8; 10] (lit "xyz"));
    [exact ex5_queue|exact ex5_ok|reflexivity..].
Defined.

(** X9.  On a queue that is not null, with a null-terminated string, the
    two insertions return true exactly when neither the allocation of
    the element nor that of the copy of the string fails. *)
Theorem insert_true_iff_allocated m h l s c :
  ring m h l -> heap_ok m -> cstr s = Some c ->
  exists m1 m2,
    q_insert_head h s m =
      Done (negb (fails (faults m) || fails (tail (faults m)))) m1 /\
    q_insert_tail h s m =
      Done (negb (fails (faults m) || fails (tail (faults m)))) m2.
Proof.
  intros R Hok Hc.
  assert (h <> NULL) as Hh by (eapply ring_nonnull; [exact R|by left]).
  destruct (fails (faults m)) eqn:F1;
    [|destruct (fails (tail (faults m))) eqn:F2]; simpl.
  1, 2: destruct (insert_with_refused list_add h s m c) as (m1 & Hrun1);
        [done|done|done|by auto|];
        destruct (insert_with_refused list_add_tail h s m c) as (m2 & Hrun2);
        [done|done|done|by auto|];
        exists m1, m2; by rewrite q_insert_head_eq, q_insert_tail_eq.
  destruct (q_insert_head_run m h l s c R Hok Hc F1 F2) as (m1 & Hrun1 & _).
  destruct (q_insert_tail_run m h l s c R Hok Hc F1 F2) as (m2 & Hrun2 & _).
  by exists m1, m2.
Qed.

Lemma insert_true_iff_allocated_witness :
  ring ex5_refusing 1 [2; 4; 6; 8; 10] /\ heap_ok ex5_refusing /\
  cstr (lit "xyz") = Some (String.list_byte_of_string "xyz") /\
  exists m1 m2,
    q_insert_head 1 (lit "xyz") ex5_refusing =
      Done (negb (fails (faults ex5_refusing)
                  || fails (tail (faults ex5_refusing)))) m1 /\
    q_insert_tail 1 (lit "xyz") ex5_refusing =
      Done (negb (fails (faults ex5_refusing)
                  || fails (tail (faults ex5_refusing)))) m2.
Proof.
  assert (ring ex5_refusing 1 [2; 4; 6; 8; 10]) as R
    by apply ex5_refusing_queue.
  split_and!; [exact R|exact ex5_refusing_ok|reflexivity|].
  apply (insert_true_iff_allocated ex5_refusing 1 [2; 4; 6; 8; 10] (lit "xyz")
           (String.list_byte_of_string "xyz"));
    [exact R|exact ex5_refusing_ok|reflexivity].
Defined.

(** X10.  [q_remove_head] on a queue that is not empty returns the first
    element and unlinks it; nothing is freed: the element keeps its
    string, and the rest of the queue its order and strings.  The buffer,
    an array of at least [bufsize] bytes that is no string of the queue,
    then holds the string cut to [bufsize - 1] bytes and null-terminated;
    its bytes from [bufsize] on are as they were. *)
Theorem q_remove_head_unlinks_first m h x l s sp d bufsize :
  queue m h (x :: l) -> str m x = Some s -> chars m sp = Some d ->
  (forall e, e ∈ x :: l -> val m e <> Some sp) ->
  1 <= bufsize <= Z.of_nat (length d) -> bufsize < size_max ->
  exists m' d',
    q_remove_head h sp bufsize m = Done x m' /\
    queue m' h l /\ str m' x = Some s /\
    (forall e, e ∈ l -> str m' e = str m e) /\
    dom (heap m') = dom (heap m) /\
    chars m' sp = Some d' /\ length d' = length d /\
    cstr d' = Some (take (Z.to_nat (bufsize - 1)) s) /\
    drop (Z.to_nat bufsize) d' = drop (Z.to_nat bufsize) d.
Proof.
  intros Q Hs Hd Hsp Hb Hmax. pose proof Q as (R & _).
  destruct (remove_queue m h [] x l sp d s bufsize Q Hs Hd Hsp Hb Hmax)
    as (m' & d' & Hrun & Q' & Hx & Hl & (_ & _ & Hdom & _) & Ho1 & Ho2 & Ho3 & Ho4 & _).
  rewrite <- (q_remove_head_at _ _ _ _ _ _ R) in Hrun.
  exists m', d'. by split_and!.
Qed.

Lemma q_remove_head_unlinks_first_witness :
  queue ex5_buf 1 [2; 4; 6; 8; 10] /\
  str ex5_buf 2 = Some (String.list_byte_of_string "b") /\
  chars ex5_buf 12 = Some (replicate 8 x01) /\
  (forall e, e ∈ [2; 4; 6; 8; 10] -> val ex5_buf e <> Some 12) /\
  1 <= 1 <= Z.of_nat (length (replicate 8 x01)) /\ 1 < size_max /\
  exists m' d',
    q_remove_head 1 12 1 ex5_buf = Done 2 m' /\
    queue m' 1 [4; 6; 8; 10] /\
    str m' 2 = Some (String.list_byte_of_string "b") /\
    (forall e, e ∈ [4; 6; 8; 10] -> str m' e = str ex5_buf e) /\
    dom (heap m') = dom (heap ex5_buf) /\
    chars m' 12 = Some d' /\ length d' = length (replicate 8 x01) /\
    cstr d' = Some (take (Z.to_nat (1 - 1)) (String.list_byte_of_string "b")) /\
    drop (Z.to_nat 1) d' = drop (Z.to_nat 1) (replicate 8 x01).
Proof.
  assert (forall e, e ∈ [2; 4; 6; 8; 10] -> val ex5_buf e <> Some 12) as Hsp
    by (intros e He; check_members He).
  split_and!; [exact ex5_buf_queue|reflexivity|reflexivity|exact Hsp|
               simpl; lia|simpl; lia|reflexivity|].
  apply (q_remove_head_unlinks_first ex5_buf 1 2 [4; 6; 8; 10]
           (String.list_byte_of_string "b") 12 (replicate 8 x01) 1);
    [exact ex5_buf_queue|reflexivity|reflexivity|exact Hsp|
     simpl; lia|reflexivity].
Defined.

(** X11.  [q_remove_tail] on a queue that is not empty returns the last
    element and unlinks it; nothing is freed: the element keeps its
    string, and the rest of the queue its order and strings.  The buffer,
    an array of at least [bufsize] bytes that is no string of the queue,
    then holds the string cut to [bufsize - 1] bytes and null-terminated;
    its bytes from [bufsize] on are as they were. *)
Theorem q_remove_tail_unlinks_last m h x l s sp d bufsize :
  queue m h (l ++ [x]) -> str m x = Some s -> chars m sp = Some d ->
  (forall e, e ∈ l ++ [x] -> val m e <> Some sp) ->
  1 <= bufsize <= Z.of_nat (length d) -> bufsize < size_max ->
  exists m' d',
    q_remove_tail h sp bufsize m = Done x m' /\
    queue m' h l /\ str m' x = Some s /\
    (forall e, e ∈ l -> str m' e = str m e) /\
    dom (heap m') = dom (heap m) /\
    chars m' sp = Some d' /\ length d' = length d /\
    cstr d' = Some (take (Z.to_nat (bufsize - 1)) s) /\
    drop (Z.to_nat bufsize) d' = drop (Z.to_nat bufsize) d.
Proof.
  intros Q Hs Hd Hsp Hb Hmax. pose proof Q as (R & _).
  destruct (remove_queue m h l x [] sp d s bufsize Q Hs Hd Hsp Hb Hmax)
    as (m' & d' & Hrun & Q' & Hx & Hl & (_ & _ & Hdom & _) & Ho1 & Ho2 & Ho3 & Ho4 & _).
  rewrite <- (q_remove_tail_at _ _ _ _ _ _ R) in Hrun.
  rewrite app_nil_r in Q', Hl.
  exists m', d'. by split_and!.
Qed.

Lemma q_remove_tail_unlinks_last_witness :
  queue ex5_buf 1 ([2; 4; 6; 8] ++ [10]) /\
  str ex5_buf 10 = Some (String.list_byte_of_string "b") /\
  chars ex5_buf 12 = Some (replicate 8 x01) /\
  (forall e, e ∈ [2; 4; 6; 8] ++ [10] -> val ex5_buf e <> Some 12) /\
  1 <= 4 <= Z.of_nat (length (replicate 8 x01)) /\ 4 < size_max /\
  exists m' d',
    q_remove_tail 1 12 4 ex5_buf = Done 10 m' /\
    queue m' 1 [2; 4; 6; 8] /\
    str m' 10 = Some (String.list_byte_of_string "b") /\
    (forall e, e ∈ [2; 4; 6; 8] -> str m' e = str ex5_buf e) /\
    dom (heap m') = dom (heap ex5_buf) /\
    chars m' 12 = Some d' /\ length d' = length (replicate 8 x01) /\
    cstr d' = Some (take (Z.to_nat (4 - 1)) (String.list_byte_of_string "b")) /\
    drop (Z.to_nat 4) d' = drop (Z.to_nat 4) (replicate 8 x01).
Proof.
  assert (forall e, e ∈ [2; 4; 6; 8] ++ [10] -> val ex5_buf e <> Some 12)
    as Hsp by (intros e He; simpl in He; check_members He).
  split_and!; [exact ex5_buf_queue|reflexivity|reflexivity|exact Hsp|
               simpl; lia|simpl; lia|reflexivity|].
  apply (q_remove_tail_unlinks_last ex5_buf 1 10 [2; 4; 6; 8]
           (String.list_byte_of_string "b") 12 (replicate 8 x01) 4);
    [exact ex5_buf_queue|reflexivity|reflexivity|exact Hsp|
     simpl; lia|reflexivity].
Defined.

(** X12.  On an empty queue [q_remove_head] and [q_remove_tail] return
    NULL and change nothing; the buffer is not touched, so this holds
    for a null [sp] and for any [bufsize]. *)
Theorem q_remove_empty_returns_null m h sp bufsize :
  ring m h [] ->
  q_remove_head h sp bufsize m = Done NULL m /\
  q_remove_tail h sp bufsize m = Done NULL m.
Proof.
  intros R. split; [by apply q_remove_head_empty|by apply q_remove_tail_empty].
Qed.

Lemma q_remove_empty_returns_null_witness :
  ring ex0 1 [] /\
  q_remove_head 1 NULL 0 ex0 = Done NULL ex0 /\
  q_remove_tail 1 NULL 0 ex0 = Done NULL ex0.
Proof.
  assert (ring ex0 1 []) as R
    by (split_and!; [check_nodup|check_path|check_path]).
  split; [exact R|]. apply (q_remove_empty_returns_null ex0 1 NULL 0 R).
Defined.

(** X13.  [bufsize] is not checked against the buffer: on a queue that is
    not empty, a removal with [bufsize] 0 ([bufsize - 1] wraps around to
    the largest [size_t]) or with [bufsize] more than the size of the
    buffer writes outside the buffer. *)
Theorem q_remove_overruns_buffer m h l sp d bufsize :
  queue m h l -> l <> [] -> chars m sp = Some d ->
  (forall e, e ∈ l -> val m e <> Some sp) ->
  Z.of_nat (length d) < size_max - 1 ->
  bufsize = 0 \/ Z.of_nat (length d) < bufsize < size_max ->
  q_remove_head h sp bufsize m = Fault /\
  q_remove_tail h sp bufsize m = Fault.
Proof.
  intros Q Hl Hd Hsp Hlen Hbuf. pose proof Q as (R & _).
  assert (forall x, x ∈ l -> remove_at x sp bufsize m = Fault) as Hx.
  { intros x Hx.
    destruct (queue_str _ _ _ x Q Hx) as (v & bv & s & Hv & Hbv & Hcs).
    eapply remove_at_overruns; [done..| |done|done].
    intros ->. by apply (Hsp x). }
  split.
  - destruct l as [|x l']; [done|].
    rewrite (q_remove_head_at _ _ _ _ _ _ R). apply Hx. by left.
  - destruct l as [|x l' _] using rev_ind; [done|].
    rewrite (q_remove_tail_at _ _ _ _ _ _ R). apply Hx. elems.
Qed.

Lemma q_remove_overruns_buffer_witness :
  queue ex5_buf 1 [2; 4; 6; 8; 10] /\ [2; 4; 6; 8; 10] <> [] /\
  chars ex5_buf 12 = Some (replicate 8 x01) /\
  (forall e, e ∈ [2; 4; 6; 8; 10] -> val ex5_buf e <> Some 12) /\
  Z.of_nat (length (replicate 8 x01)) < size_max - 1 /\
  (0 = 0 \/ Z.of_nat (length (replicate 8 x01)) < 0 < size_max) /\
  q_remove_head 1 12 0 ex5_buf = Fault /\
  q_remove_tail 1 12 0 ex5_buf = Fault.
Proof.
  assert (forall e, e ∈ [2; 4; 6; 8; 10] -> val ex5_buf e <> Some 12) as Hsp
    by (intros e He; check_members He).
  split_and!; [exact ex5_buf_queue|done|reflexivity|exact Hsp|
               reflexivity|by left|..];
    apply (q_remove_overruns_buffer ex5_buf 1 [2; 4; 6; 8; 10] 12
             (replicate 8 x01) 0);
    [exact ex5_buf_queue|done|reflexivity|exact Hsp|reflexivity|by left|
     exact ex5_buf_queue|done|reflexivity|exact Hsp|reflexivity|by left].
Defined.

(** X14.  An insertion at the head, the removal of that element and
    [q_release_element] of it leak nothing: but for the bytes of the
    buffer, every object of the heap is as it was before the insertion,
    and so is the queue. *)
Theorem insert_remove_release_no_leak m h l s c sp d bufsize :
  queue m h l -> heap_ok m -> cstr s = Some c ->
  fails (faults m) = false -> fails (tail (faults m)) = false ->
  chars m sp = Some d -> (forall e, e ∈ l -> val m e <> Some sp) ->
  1 <= bufsize <= Z.of_nat (length d) -> bufsize < size_max ->
  exists m1 e m2 m3,
    q_insert_head h s m = Done true m1 /\
    q_remove_head h sp bufsize m1 = Done e m2 /\
    q_release_element e m2 = Done tt m3 /\
    (forall q, q <> sp -> obj_at m3 q = obj_at m q) /\
    dom (heap m3) = dom (heap m) /\
    queue m3 h l /\
    forall x, x ∈ l -> str m3 x = str m x.
Proof.
  intros Q Hok Hc F1 F2 Hd Hsp Hb Hmax. pose proof Q as (R & _).
  destruct (q_insert_head_queue m h l s c Q Hok Hc F1 F2)
    as (m1 & Hins & Q1 & Hok1 & He & Hv & Hval & Hs & Hl & Hdom1 & _ & Hvc & Hlk).
  assert (brk m <> NULL /\ brk m + 1 <> NULL) as [He0 Hv0]
    by (destruct Hok; unfold NULL; lia).
  set (v := brk m + 1) in *. set (e := brk m) in *. clearbody e v.
  assert (forall q, is_Some (obj_at m q) -> q <> e /\ q <> v) as Hold.
  { intros q [? Hq]. split; intros ->; congruence. }
  destruct (Hold sp) as [Hse Hsv]; [by eapply chars_alloc|].
  assert (chars m1 sp = Some d) as Hd1 by (by destruct (Hvc sp) as [_ ->]).
  assert (forall x, x ∈ e :: l -> val m1 x <> Some sp) as Hsp1.
  { intros x [->|Hx]%elem_of_cons; [congruence|].
    destruct (queue_str _ _ _ x Q Hx) as (w & ? & _ & Hw & _).
    destruct (Hold x) as [? ?].
    { unfold val in Hw. destruct (obj_at m x); [eauto|done]. }
    destruct (Hvc x) as [-> _]; auto. }
  destruct (remove_queue m1 h [] e l sp d c bufsize Q1 Hs Hd1 Hsp1 Hb Hmax)
    as (m2 & d' & Hrem & Q2 & Hs2 & Hl2 & Hsb & _ & _ & _ & _ & Hlk2).
  pose proof Q1 as (R1 & _). pose proof Q2 as (R2 & _).
  rewrite <- (q_remove_head_at _ _ _ _ _ _ R1) in Hrem.
  destruct Hsb as (_ & _ & Hdom2 & Sv & Sc).
  destruct (str_inv _ _ _ Hs2) as (v' & b2 & Hv2 & Hb2 & _).
  assert (v' = v) as -> by (rewrite Sv in Hv2; congruence).
  pose proof (q_release_element_run m2 e v Hv2 ltac:(eauto)) as Hrel.
  assert (e ∉ h :: l) as Hel.
  { intros Hq. destruct (Hold e); [|done].
    by eapply nx_alloc, ring_node. }
  assert (forall q, q <> sp -> obj_at (release e (release v m2)) q = obj_at m q)
    as Hobj.
  { intros q Hq. rewrite !obj_at_release.
    case_decide; [by subst|]. case_decide; [by subst|].
    apply obj_at_ext.
    - destruct (decide (q ∈ h :: l)) as [Hin|Hin];
        [by apply (ring_links m m2 h l q)|].
      destruct (Hlk2 q) as [-> _]; [simpl; elems|].
      destruct (Hlk q) as [-> _]; [elems|done..].
    - destruct (decide (q ∈ h :: l)) as [Hin|Hin];
        [by apply (ring_links m m2 h l q)|].
      destruct (Hlk2 q) as [_ ->]; [simpl; elems|].
      destruct (Hlk q) as [_ ->]; [elems|done..].
    - rewrite Sv. by apply Hvc.
    - rewrite Sc by done. by apply Hvc. }
  destruct (queue_ext m (release e (release v m2)) h l sp Q ltac:(eauto) Hsp Hobj)
    as [Q3 Hs3].
  exists m1, e, m2, (release e (release v m2)).
  split_and!; [done|done|done|done| |done|done].
  rewrite !dom_release, Hdom2, Hdom1.
  assert (e ∉ dom (heap m)) as He'.
  { apply not_elem_of_dom. unfold obj_at in He.
    by destruct (Z.eqb_spec e NULL). }
  assert (v ∉ dom (heap m)) as Hv'.
  { apply not_elem_of_dom. unfold obj_at in Hv.
    by destruct (Z.eqb_spec v NULL). }
  set_solver.
Qed.

Lemma insert_remove_release_no_leak_witness :
  queue ex5_buf 1 [2; 4; 6; 8; 10] /\ heap_ok ex5_buf /\
  cstr (lit "xyz") = Some (String.list_byte_of_string "xyz") /\
  fails (faults ex5_buf) = false /\ fails (tail (faults ex5_buf)) = false /\
  chars ex5_buf 12 = Some (replicate 8 x01) /\
  (forall e, e ∈ [2; 4; 6; 8; 10] -> val ex5_buf e <> Some 12) /\
  1 <= 8 <= Z.of_nat (length (replicate 8 x01)) /\ 8 < size_max /\
  exists m1 e m2 m3,
    q_insert_head 1 (lit "xyz") ex5_buf = Done true m1 /\
    q_remove_head 1 12 8 m1 = Done e m2 /\
    q_release_element e m2 = Done tt m3 /\
    (forall q, q <> 12 -> obj_at m3 q = obj_at ex5_buf q) /\
    dom (heap m3) = dom (heap ex5_buf) /\
    queue m3 1 [2; 4; 6; 8; 10] /\
    forall x, x ∈ [2; 4; 6; 8; 10] -> str m3 x = str ex5_buf x.
Proof.
  assert (forall e, e ∈ [2; 4; 6; 8; 10] -> val ex5_buf e <> Some 12) as Hsp
    by (intros e He; check_members He).
  split_and!; [exact ex5_buf_queue|exact ex5_buf_ok|reflexivity|reflexivity|
               reflexivity|reflexivity|exact Hsp|simpl; lia|simpl; lia|
               reflexivity|].
  apply (insert_remove_release_no_leak ex5_buf 1 [2; 4; 6; 8; 10] (lit "xyz")
           (String.list_byte_of_string "xyz") 12 (replicate 8 x01) 8);
    [exact ex5_buf_queue|exact ex5_buf_ok|reflexivity|reflexivity|
     reflexivity|reflexivity|exact Hsp|simpl; lia|reflexivity].
Defined.

(** X15.  The queue is first in, first out: after an insertion at the
    tail, [q_remove_head] returns the element that was first before the
    insertion (the new element when the queue was empty) and copies its
    string, and the new element stays last. *)
Theorem queue_is_fifo m h l s c sp d bufsize :
  queue m h l -> heap_ok m -> cstr s = Some c ->
  fails (faults m) = false -> fails (tail (faults m)) = false ->
  chars m sp = Some d -> (forall e, e ∈ l -> val m e <> Some sp) ->
  1 <= bufsize <= Z.of_nat (length d) -> bufsize < size_max ->
  exists m1 e m2 d' sx,
    q_insert_tail h s m = Done true m1 /\
    obj_at m e = None /\ str m1 e = Some c /\
    (forall x, x ∈ l -> str m1 x = str m x) /\
    q_remove_head h sp bufsize m1 = Done (hd e l) m2 /\
    queue m2 h (tail (l ++ [e])) /\
    str m1 (hd e l) = Some sx /\
    chars m2 sp = Some d' /\
    cstr d' = Some (take (Z.to_nat (bufsize - 1)) sx) /\
    forall x, x ∈ tail (l ++ [e]) -> str m2 x = str m1 x.
Proof.
  intros Q Hok Hc F1 F2 Hd Hsp Hb Hmax.
  destruct (q_insert_tail_queue m h l s c Q Hok Hc F1 F2)
    as (m1 & Hins & Q1 & Hok1 & He & Hv & Hval & Hs & Hl & Hdom1 & _ & Hvc & _).
  assert (brk m <> NULL /\ brk m + 1 <> NULL) as [He0 Hv0]
    by (destruct Hok; unfold NULL; lia).
  set (v := brk m + 1) in *. set (e := brk m) in *. clearbody e v.
  assert (forall q, is_Some (obj_at m q) -> q <> e /\ q <> v) as Hold.
  { intros q [? Hq]. split; intros ->; congruence. }
  destruct (Hold sp) as [Hse Hsv]; [by eapply chars_alloc|].
  assert (chars m1 sp = Some d) as Hd1 by (by destruct (Hvc sp) as [_ ->]).
  assert (forall x, x ∈ l ++ [e] -> val m1 x <> Some sp) as Hsp1.
  { intros x [Hx|Hx%list_elem_of_singleton]%elem_of_app; [|congruence].
    destruct (queue_str _ _ _ x Q Hx) as (w & ? & _ & Hw & _).
    destruct (Hold x) as [? ?].
    { unfold val in Hw. destruct (obj_at m x); [eauto|done]. }
    destruct (Hvc x) as [-> _]; auto. }
  assert (l ++ [e] = hd e l :: tail (l ++ [e])) as El by (by destruct l).
  assert (exists sx, str m1 (hd e l) = Some sx) as [sx Hsx].
  { destruct Q1 as (_ & HS & _). rewrite Forall_forall in HS.
    apply HS. rewrite El. by left. }
  rewrite El in Q1, Hsp1.
  destruct (remove_queue m1 h [] (hd e l) (tail (l ++ [e])) sp d sx bufsize
              Q1 Hsx Hd1 Hsp1 Hb Hmax)
    as (m2 & d' & Hrem & Q2 & _ & Hl2 & _ & Ho1 & _ & Ho3 & _).
  pose proof Q1 as (R1 & _).
  rewrite <- (q_remove_head_at _ _ _ _ _ _ R1) in Hrem.
  exists m1, e, m2, d', sx. by split_and!.
Qed.

Lemma queue_is_fifo_witness :
  queue ex5_buf 1 [2; 4; 6; 8; 10] /\ heap_ok ex5_buf /\
  cstr (lit "xyz") = Some (String.list_byte_of_string "xyz") /\
  fails (faults ex5_buf) = false /\ fails (tail (faults ex5_buf)) = false /\
  chars ex5_buf 12 = Some (replicate 8 x01) /\
  (forall e, e ∈ [2; 4; 6; 8; 10] -> val ex5_buf e <> Some 12) /\
  1 <= 8 <= Z.of_nat (length (replicate 8 x01)) /\ 8 < size_max /\
  exists m1 e m2 d' sx,
    q_insert_tail 1 (lit "xyz") ex5_buf = Done true m1 /\
    obj_at ex5_buf e = None /\
    str m1 e = Some (String.list_byte_of_string "xyz") /\
    (forall x, x ∈ [2; 4; 6; 8; 10] -> str m1 x = str ex5_buf x) /\
    q_remove_head 1 12 8 m1 = Done (hd e [2; 4; 6; 8; 10]) m2 /\
    queue m2 1 (tail ([2; 4; 6; 8; 10] ++ [e])) /\
    str m1 (hd e [2; 4; 6; 8; 10]) = Some sx /\
    chars m2 12 = Some d' /\
    cstr d' = Some (take (Z.to_nat (8 - 1)) sx) /\
    forall x, x ∈ tail ([2; 4; 6; 8; 10] ++ [e]) -> str m2 x = str m1 x.
Proof.
  assert (forall e, e ∈ [2; 4; 6; 8; 10] -> val ex5_buf e <> Some 12) as Hsp
    by (intros e He; check_members He).
  split_and!; [exact ex5_buf_queue|exact ex5_buf_ok|reflexivity|reflexivity|
               reflexivity|reflexivity|exact Hsp|simpl; lia|simpl; lia|
               reflexivity|].
  apply (queue_is_fifo ex5_buf 1 [2; 4; 6; 8; 10] (lit "xyz")
           (String.list_byte_of_string "xyz") 12 (replicate 8 x01) 8);
    [exact ex5_buf_queue|exact ex5_buf_ok|reflexivity|reflexivity|
     reflexivity|reflexivity|exact Hsp|simpl; lia|reflexivity].
Defined.

(** X16.  [q_swap] twice puts every element back in its place: the
    queue has its elements in the order it had, and every link of the
    heap is as it was. *)
Theorem q_swap_twice fuel m h l :
  list_at m h l -> (length l < fuel)%nat ->
  exists m1 m2,
    q_swap fuel h m = Done tt m1 /\
    q_swap fuel h m1 = Done tt m2 /\
    list_at m2 h l /\ same_data m m2 /\
    forall q, nx m2 q = nx m q /\ pv m2 q = pv m q.
Proof.
  intros [[-> ->]|R] Hfuel.
  { exists m, m. split_and!; [done|done|by left|apply same_data_refl|done]. }
  destruct (q_swap_run fuel m h l R Hfuel) as (m1 & Hrun1 & R1 & [D1 L1] & _).
  destruct (q_swap_run fuel m1 h (swap_pairs l) R1) as (m2 & Hrun2 & R2 & [D2 L2] & _).
  { by rewrite swap_pairs_length. }
  rewrite swap_pairs_invol in R2.
  exists m1, m2. split_and!; [done|done|by right|by eapply same_data_trans|].
  intros q. destruct (decide (q ∈ h :: l)) as [Hq|Hq].
  - by apply (ring_links m m2 h l q).
  - destruct (L2 q) as [-> ->].
    { by rewrite <- (swap_pairs_perm l). }
    by apply L1.
Qed.

Lemma q_swap_twice_witness :
  list_at ex5 1 [2; 4; 6; 8; 10] /\ (length [2; 4; 6; 8; 10] < 6)%nat /\
  exists m1 m2,
    q_swap 6 1 ex5 = Done tt m1 /\
    q_swap 6 1 m1 = Done tt m2 /\
    list_at m2 1 [2; 4; 6; 8; 10] /\ same_data ex5 m2 /\
    forall q, nx m2 q = nx ex5 q /\ pv m2 q = pv ex5 q.
Proof.
  split_and!; [right; exact ex5_ring|simpl; lia|].
  apply (q_swap_twice 6 ex5 1 [2; 4; 6; 8; 10]);
    [right; exact ex5_ring|simpl; lia].
Defined.

(** X17.  [q_sort] of a queue that is in ascending order changes
    nothing: the elements keep their order, equal strings too, and
    every link of the heap is as it was before. *)
Theorem q_sort_keeps_sorted fuel m h l :
  queue_at m h l -> ascending (key m) l -> (length l < fuel)%nat ->
  exists m',
    q_sort fuel h m = Done tt m' /\
    queue_at m' h l /\ same_data m m' /\
    forall q, nx m' q = nx m q /\ pv m' q = pv m q.
Proof.
  intros [[-> ->]|Q] A Hfuel.
  { exists m. split_and!; [done|by left|apply same_data_refl|done]. }
  pose proof Q as (R & HS & _).
  destruct (q_sort_run fuel m h l R HS Hfuel)
    as (l' & m' & Hrun & R' & So & [D L] & _).
  apply (sorted_of_unique _ (key_nonul m)) in So as ->; [|done].
  exists m'. split_and!; [done| |done|].
  - right. by eapply queue_relinked.
  - intros q. destruct (decide (q ∈ h :: l)) as [Hq|Hq]; [|by apply L].
    by apply (ring_links m m' h l q).
Qed.

Lemma q_sort_keeps_sorted_witness :
  queue_at ex3 1 [2; 4; 6] /\ ascending (key ex3) [2; 4; 6] /\
  (length [2; 4; 6] < 4)%nat /\
  exists m',
    q_sort 4 1 ex3 = Done tt m' /\
    queue_at m' 1 [2; 4; 6] /\ same_data ex3 m' /\
    forall q, nx m' q = nx ex3 q /\ pv m' q = pv ex3 q.
Proof.
  split_and!; [right; exact ex3_queue|exact ex3_ascending|simpl; lia|].
  apply (q_sort_keeps_sorted 4 ex3 1 [2; 4; 6]);
    [right; exact ex3_queue|exact ex3_ascending|simpl; lia].
Defined.

(** X18.  [element_t_cmp] compares the strings of two elements in the
    order of the dictionary, bytes as unsigned chars, and changes
    nothing: the result is negative exactly when the first string comes
    first, zero exactly when the strings are equal, and the result for
    the elements exchanged is the opposite number. *)
Theorem element_t_cmp_orders m a b sa sb :
  str m a = Some sa -> str m b = Some sb ->
  exists c,
    element_t_cmp a b m = Done c m /\
    element_t_cmp b a m = Done (- c) m /\
    (c < 0 <-> lex_lt sa sb) /\
    (c = 0 <-> sa = sb) /\
    (0 < c <-> lex_lt sb sa).
Proof.
  intros Ha Hb. exists (strcmp_bytes sa sb).
  pose proof (str_nonul _ _ _ Ha) as Na. pose proof (str_nonul _ _ _ Hb) as Nb.
  split_and!.
  - by apply element_t_cmp_run.
  - rewrite <- strcmp_bytes_antisym. by apply element_t_cmp_run.
  - by apply strcmp_bytes_lt.
  - split; [by apply strcmp_bytes_eq|]. intros <-. apply strcmp_bytes_refl.
  - rewrite <- (strcmp_bytes_lt sb sa), (strcmp_bytes_antisym sa sb) by done. lia.
Qed.

Lemma element_t_cmp_orders_witness :
  str ex5 2 = Some (String.list_byte_of_string "b") /\
  str ex5 4 = Some (String.list_byte_of_string "a") /\
  exists c,
    element_t_cmp 2 4 ex5 = Done c ex5 /\
    element_t_cmp 4 2 ex5 = Done (- c) ex5 /\
    (c < 0 <-> lex_lt (String.list_byte_of_string "b")
                      (String.list_byte_of_string "a")) /\
    (c = 0 <-> String.list_byte_of_string "b" = String.list_byte_of_string "a") /\
    (0 < c <-> lex_lt (String.list_byte_of_string "a")
                      (String.list_byte_of_string "b")).
Proof.
  split_and!; [reflexivity|reflexivity|].
  apply (element_t_cmp_orders ex5 2 4); reflexivity.
Defined.

(** X19.  [merge] of two null-terminated chains of elements, each in
    ascending order, returns the first node of one null-terminated chain
    of all of them in ascending order, in which elements with equal
    strings keep their order and those of the first chain come first.
    Only [next] links of the nodes of the chains are written: [prev]
    links are not maintained. *)
Theorem merge_merges_chains fuel m a la b lb :
  fpath (nx m) a la NULL -> fpath (nx m) b lb NULL ->
  NoDup ((a :: la) ++ b :: lb) ->
  (forall e, e ∈ (a :: la) ++ b :: lb -> is_Some (str m e)) ->
  ascending (key m) (a :: la) -> ascending (key m) (b :: lb) ->
  (length la + length lb < fuel)%nat ->
  exists o out m',
    merge fuel element_t_cmp a b m = Done o m' /\
    fpath (nx m') o out NULL /\
    sorted_of (key m) ((a :: la) ++ b :: lb) (o :: out) /\
    same_data m m' /\
    (forall q, pv m' q = pv m q) /\
    (forall q, q ∉ (a :: la) ++ b :: lb -> nx m' q = nx m q).
Proof.
  intros Fa Fb ND HS Aa Ab Hfuel.
  destruct (merge_loop_run (key m) fuel la lb a b m NULL LocalHead Fa Fb ND)
    as (o & out & m' & E & Hrun & F' & _ & D & P & N); [|done|done|].
  { intros e He. by apply str_key, HS. }
  exists o, out, m'. split_and!; [done|done| |done|done|].
  - rewrite <- E.
    apply (merge_list_sorted_of _ (key_nonul m)); by apply sorted_of_self.
  - intros q Hq. by apply N.
Qed.

Lemma merge_merges_chains_witness :
  fpath (nx ex_chains) 2 [6] NULL /\ fpath (nx ex_chains) 4 [] NULL /\
  NoDup ((2 :: [6]) ++ 4 :: []) /\
  (forall e, e ∈ (2 :: [6]) ++ 4 :: [] -> is_Some (str ex_chains e)) /\
  ascending (key ex_chains) (2 :: [6]) /\ ascending (key ex_chains) (4 :: []) /\
  (length [6] + length (@nil ptr) < 2)%nat /\
  exists o out m',
    merge 2 element_t_cmp 2 4 ex_chains = Done o m' /\
    fpath (nx m') o out NULL /\
    sorted_of (key ex_chains) ((2 :: [6]) ++ 4 :: []) (o :: out) /\
    same_data ex_chains m' /\
    (forall q, pv m' q = pv ex_chains q) /\
    (forall q, q ∉ (2 :: [6]) ++ 4 :: [] -> nx m' q = nx ex_chains q).
Proof.
  assert (forall e, e ∈ (2 :: [6]) ++ 4 :: [] -> is_Some (str ex_chains e))
    as HS by (intros e He; simpl in He; check_members He).
  assert (NoDup ((2 :: [6]) ++ 4 :: [])) as ND by check_nodup.
  assert (ascending (key ex_chains) (2 :: [6])) as A1
    by (repeat constructor; by vm_compute).
  assert (ascending (key ex_chains) (4 :: [])) as A2 by (repeat constructor).
  split_and!; [check_path|check_path|exact ND|exact HS|exact A1|exact A2|
               simpl; lia|].
  apply (merge_merges_chains 2 ex_chains 2 [6] 4 []);
    [check_path|check_path|exact ND|exact HS|exact A1|exact A2|simpl; lia].
Defined.

(** X20.  [merge_sort] of a null-terminated chain of elements, in which
    every node but the first has its [prev] link, returns the first node
    of a null-terminated chain of the same elements in ascending order,
    elements with equal strings in the order they had.  Only [next]
    links of the nodes of the chain are written. *)
Theorem merge_sort_sorts_chain fuel m x l :
  fpath (nx m) x l NULL -> bseg (pv m) x l -> NoDup (x :: l) ->
  (forall e, e ∈ x :: l -> is_Some (str m e)) ->
  (length l < fuel)%nat ->
  exists r out m',
    merge_sort fuel x element_t_cmp m = Done r m' /\
    fpath (nx m') r out NULL /\
    sorted_of (key m) (x :: l) (r :: out) /\
    same_data m m' /\
    (forall q, pv m' q = pv m q) /\
    (forall q, q ∉ x :: l -> nx m' q = nx m q).
Proof.
  intros F B ND HS Hfuel.
  destruct (merge_sort_run (key m) (key_nonul m) fuel x l m F B ND)
    as (r & out & m' & Hrun & So & F' & D & P & N); [|done|].
  { intros e He. by apply str_key, HS. }
  exists r, out, m'. by split_and!.
Qed.

Lemma merge_sort_sorts_chain_witness :
  fpath (nx ex_chain) 2 [6; 4] NULL /\ bseg (pv ex_chain) 2 [6; 4] /\
  NoDup (2 :: [6; 4]) /\
  (forall e, e ∈ 2 :: [6; 4] -> is_Some (str ex_chain e)) /\
  (length [6; 4] < 3)%nat /\
  exists r out m',
    merge_sort 3 2 element_t_cmp ex_chain = Done r m' /\
    fpath (nx m') r out NULL /\
    sorted_of (key ex_chain) (2 :: [6; 4]) (r :: out) /\
    same_data ex_chain m' /\
    (forall q, pv m' q = pv ex_chain q) /\
    (forall q, q ∉ 2 :: [6; 4] -> nx m' q = nx ex_chain q).
Proof.
  assert (forall e, e ∈ 2 :: [6; 4] -> is_Some (str ex_chain e))
    as HS by (intros e He; check_members He).
  assert (NoDup (2 :: [6; 4])) as ND by check_nodup.
  split_and!; [check_path|check_path|exact ND|exact HS|simpl; lia|].
  apply (merge_sort_sorts_chain 3 ex_chain 2 [6; 4]);
    [check_path|check_path|exact ND|exact HS|simpl; lia].
Defined.

(** X21.  [reconnect] of a sentinel whose [next] links lead through at
    least one node to NULL closes the chain to a ring of the same nodes
    in the same order: it sets every [prev] link and the [next] link of
    the last node, and writes nothing else. *)
Theorem reconnect_closes_ring fuel m h l :
  fpath (nx m) h l NULL -> l <> [] -> NoDup (h :: l) ->
  (length l <= fuel)%nat ->
  exists m',
    reconnect fuel h m = Done tt m' /\
    ring m' h l /\
    relinked (h :: l) m m' /\
    forall q, q <> List.last l h -> nx m' q = nx m q.
Proof.
  intros F Hl ND Hfuel. unfold reconnect.
  destruct (reconnect_loop_run fuel h l m F Hl ND Hfuel)
    as (m1 & Hrun & B & D & N & P).
  destruct (reconnect_run fuel m h l F Hl ND Hfuel) as (m' & Hrun' & R & Hrel).
  exists m'. split_and!; [done|done|done|].
  intros q Hq. unfold reconnect in Hrun'.
  rewrite (bind_run _ _ _ _ _ Hrun) in Hrun'.
  assert (is_Some (nx m1 (List.last l h))) as Hlast.
  { rewrite N. apply fpath_last in F. eauto. }
  assert (is_Some (nx m1 h)) as Hh.
  { rewrite N. apply fpath_first in F. eauto. }
  revert Hrun'. run. intros [= <-]. autorewrite with mem.
  rewrite decide_False by done. apply N.
Qed.

Lemma reconnect_closes_ring_witness :
  fpath (nx ex_open) 1 [2; 4] NULL /\ [2; 4] <> [] /\ NoDup (1 :: [2; 4]) /\
  (length [2; 4] <= 2)%nat /\
  exists m',
    reconnect 2 1 ex_open = Done tt m' /\
    ring m' 1 [2; 4] /\
    relinked (1 :: [2; 4]) ex_open m' /\
    forall q, q <> List.last [2; 4] 1 -> nx m' q = nx ex_open q.
Proof.
  assert (NoDup (1 :: [2; 4])) as ND by check_nodup.
  split_and!; [check_path|done|exact ND|simpl; lia|].
  apply (reconnect_closes_ring 2 ex_open 1 [2; 4]);
    [check_path|done|exact ND|simpl; lia].
Defined.

(** X22.  [q_sort] followed by [q_reverse] leaves the queue in descending
    order: the same elements, their strings never increasing, with only
    links rewritten. *)
Theorem sort_then_reverse_descends fuel m h l :
  queue_at m h l -> (length l < fuel)%nat ->
  exists l' m1 m2,
    q_sort fuel h m = Done tt m1 /\
    q_reverse fuel h m1 = Done tt m2 /\
    queue_at m2 h l' /\ l ≡ₚ l' /\
    descending (key m) l' /\ same_data m m2.
Proof.
  intros [[-> ->]|Q] Hfuel.
  { exists [], m, m.
    split_and!; [done|done|by left|done|constructor|apply same_data_refl]. }
  pose proof Q as (R & HS & _).
  destruct (q_sort_run fuel m h l R HS Hfuel)
    as (l0 & m1 & Hrun1 & R1 & (P & A & _) & [D1 _] & _).
  destruct (q_reverse_run fuel m1 h l0 R1) as (m2 & Hrun2 & Mi & _).
  { by rewrite <- (Permutation_length P). }
  pose proof Mi as [D2 _].
  pose proof (mirrored_ring _ _ _ _ R1 Mi) as R2.
  assert (same_data m m2) as D by (by eapply same_data_trans).
  exists (rev l0), m1, m2. split_and!; [done|done| | |by apply ascending_rev|done].
  - right. eapply queue_relinked; [exact Q|done|done|].
    by rewrite <- Permutation_rev.
  - by rewrite <- Permutation_rev.
Qed.

Lemma sort_then_reverse_descends_witness :
  queue_at ex5 1 [2; 4; 6; 8; 10] /\ (length [2; 4; 6; 8; 10] < 6)%nat /\
  exists l' m1 m2,
    q_sort 6 1 ex5 = Done tt m1 /\
    q_reverse 6 1 m1 = Done tt m2 /\
    queue_at m2 1 l' /\ [2; 4; 6; 8; 10] ≡ₚ l' /\
    descending (key ex5) l' /\ same_data ex5 m2.
Proof.
  split_and!; [right; exact ex5_queue|simpl; lia|].
  apply (sort_then_reverse_descends 6 ex5 1 [2; 4; 6; 8; 10]);
    [right; exact ex5_queue|simpl; lia].
Defined.

(** X23.  [q_release_element] frees the element and the array of its
    string and nothing else; a second call for the same element reads
    freed storage. *)
Theorem q_release_element_frees_both m e v b :
  val m e = Some v -> chars m v = Some b ->
  exists m',
    q_release_element e m = Done tt m' /\
    obj_at m' e = None /\ obj_at m' v = None /\
    (forall q, q <> e -> q <> v -> obj_at m' q = obj_at m q) /\
    dom (heap m') = dom (heap m) ∖ {[e; v]} /\
    q_release_element e m' = Fault.
Proof.
  intros Hv Hb. exists (release e (release v m)).
  split_and!.
  - apply q_release_element_run; eauto.
  - rewrite obj_at_release. by rewrite decide_True.
  - rewrite !obj_at_release. case_decide; [done|]. by rewrite decide_True.
  - intros q ? ?. rewrite !obj_at_release. by rewrite !decide_False.
  - rewrite !dom_release. set_solver.
  - unfold q_release_element, get_value, bind, deref.
    destruct (e =? NULL); [done|]. simpl. by rewrite lookup_delete_eq.
Qed.

Lemma q_release_element_frees_both_witness :
  val ex5 2 = Some 3 /\ chars ex5 3 = Some (lit "b") /\
  exists m',
    q_release_element 2 ex5 = Done tt m' /\
    obj_at m' 2 = None /\ obj_at m' 3 = None /\
    (forall q, q <> 2 -> q <> 3 -> obj_at m' q = obj_at ex5 q) /\
    dom (heap m') = dom (heap ex5) ∖ {[2; 3]} /\
    q_release_element 2 m' = Fault.
Proof.
  split_and!; [reflexivity|reflexivity|].
  apply (q_release_element_frees_both ex5 2 3 (lit "b")); reflexivity.
Defined.
